(** * minicoin: a shallow embedding of the consensus core

    The development follows the JavaScript sources module by module:
    [Work] (work.js), [Txs] (txs.js), [Blocks] (blocks.js), [Pool] (pool.js)
    and [Wallet] (wallet.js).  Arrays are lists, objects are records, a
    function that mutates its arguments is a computation in a small
    state-and-exception monad whose state is exactly the mutable arguments,
    and the SHA-256 / secp256k1 collaborators are the operations of the
    [Crypto] class. *)

From Stdlib Require Import ZArith List String Ascii Bool Lia SpecFloat.
Import ListNotations.
Open Scope Z_scope.
Open Scope list_scope.

(** ** JavaScript values and array primitives *)

Module JS.

(** [/^[0-9a-f]$/] on one character. *)
Definition is_lower_hex (c : ascii) : bool :=
  let n := nat_of_ascii c in
  ((48 <=? n) && (n <=? 57) || (97 <=? n) && (n <=? 102))%nat.

Fixpoint all_chars (p : ascii -> bool) (s : string) : bool :=
  match s with
  | EmptyString => true
  | String c r => p c && all_chars p r
  end.

(** [/^[0-9a-f]{n}$/.test(s)] *)
Definition hex_exact (n : nat) (s : string) : bool :=
  (String.length s =? n)%nat && all_chars is_lower_hex s.

(** [/^[0-9a-f]{lo,hi}$/.test(s)] *)
Definition hex_between (lo hi : nat) (s : string) : bool :=
  (lo <=? String.length s)%nat && (String.length s <=? hi)%nat
  && all_chars is_lower_hex s.

(** [Number.isSafeInteger] on a number that is an integer. *)
Definition isSafeInteger (z : Z) : bool :=
  (- (2 ^ 53 - 1) <=? z) && (z <=? 2 ^ 53 - 1).

(** [Array.prototype.findIndex]; [None] stands for -1. *)
Fixpoint findIndex {A} (p : A -> bool) (l : list A) : option nat :=
  match l with
  | [] => None
  | x :: r => if p x then Some O else option_map S (findIndex p r)
  end.

(** [Array.prototype.includes] on an array of indexes. *)
Definition includes (i : nat) (l : list nat) : bool := existsb (Nat.eqb i) l.

(** [a.splice(i, 1)]: removes the element at position [i], nothing when
    [i] is past the end. *)
Definition splice1 {A} (i : nat) (l : list A) : list A :=
  firstn i l ++ skipn (S i) l.

(** [s.charAt(i)]: [None] is the empty string returned past the end. *)
Definition charAt (s : string) (i : nat) : option ascii := String.get i s.

(** [Number.parseInt(c, 16)] on a string of at most one character; [None]
    is NaN. *)
Definition parseInt16 (c : option ascii) : option Z :=
  match c with
  | None => None
  | Some a =>
      let n := nat_of_ascii a in
      if ((48 <=? n) && (n <=? 57))%nat then Some (Z.of_nat n - 48)
      else if ((97 <=? n) && (n <=? 102))%nat then Some (Z.of_nat n - 87)
      else if ((65 <=? n) && (n <=? 70))%nat then Some (Z.of_nat n - 55)
      else None
  end.

Fixpoint bin_digits (p : positive) (acc : string) : string :=
  match p with
  | xH => String "1" acc
  | xO q => bin_digits q (String "0" acc)
  | xI q => bin_digits q (String "1" acc)
  end.

(** [n.toString(2)] *)
Definition toString2 (n : option Z) : string :=
  match n with
  | None => "NaN"
  | Some 0 => "0"
  | Some (Zpos p) => bin_digits p ""
  | Some (Zneg p) => String "-" (bin_digits p "")
  end.

(** [s.substr(-4)] *)
Definition substr_last4 (s : string) : string :=
  String.substring (String.length s - 4) 4 s.

(** [s.indexOf(c)] for a one-character needle. *)
Fixpoint indexOf (c : ascii) (s : string) : Z :=
  match s with
  | EmptyString => -1
  | String a r =>
      if Ascii.eqb a c then 0
      else let k := indexOf c r in if k <? 0 then -1 else 1 + k
  end.

End JS.

(** ** IEEE-754 doubles that are multiples of one half

    [chainDifficulty] adds powers of two [2^d] with [-1 <= d <= 255] in
    double precision.  Every such double is a multiple of 1/2 below
    [2^1024], so it is represented by its number of halves, and an
    operation is the exact operation followed by rounding to 53 significant
    bits, to nearest, ties to even.  (A chain would need more than [2^768]
    blocks for the sum to overflow.) *)

Module F64.

Definition t := Z.

(** Round-to-nearest-even of a non-negative integer to 53 significant bits. *)
Definition rne (x : Z) : Z :=
  let e := Z.log2 x in
  if e <? 53 then x
  else
    let s := e - 52 in
    let q := Z.shiftr x s in
    let r := x - Z.shiftl q s in
    let half := 2 ^ (s - 1) in
    let q' := if r <? half then q
              else if half <? r then q + 1
              else if Z.even q then q else q + 1 in
    Z.shiftl q' s.

Definition round (x : Z) : Z := if x <? 0 then - rne (- x) else rne x.

Definition zero : t := 0.
Definition add (x y : t) : t := round (x + y).
Definition sub (x y : t) : t := round (x - y).
Definition ltb (x y : t) : bool := x <? y.

(** [Math.pow(2, d)] for an integer [d >= -1], in halves. *)
Definition pow2 (d : Z) : t := 2 ^ (d + 1).

(** The double of an integer below [2^53]. *)
Definition of_Z (n : Z) : t := 2 * n.

End F64.

(** ** Amounts

    The amounts of outputs and UTXOs, and the sums the wallet and the
    validator make of them, are doubles of integer value; each is
    represented by that value.  A sum or a difference is the exact result
    rounded to 53 significant bits, to nearest, ties to even: the rounding
    of [F64], which does not depend on the unit.  An array holds fewer than
    [2^32] elements: its length, and [1 + length], are exact, and a sum of
    that many safe integers stays far below [2^1024], where a double
    becomes [Infinity]. *)

Module Num.

(** [x + y] *)
Definition plus (x y : Z) : Z := F64.round (x + y).

(** [x - y] *)
Definition minus (x y : Z) : Z := F64.round (x - y).

End Num.

(** ** Data model (the comments heading blocks.js and txs.js) *)

Record Output := { publicKey : string; amount : Z }.

(** An input before it is signed: [{hash, index}]. *)
Record OutPoint := { op_hash : string; op_index : Z }.

Record Input := { in_hash : string; in_index : Z; signature : string }.

Record Tx := { inputs : list Input; outputs : list Output; tx_hash : string }.

Record Coinbase := { cb_outputs : list Output; cb_hash : string }.

(** An element of [block.txs]: an object with keys [inputs, outputs, hash]
    or one with keys [outputs, hash]. *)
Inductive TxObject :=
| UserTx (t : Tx)
| CoinbaseTx (c : Coinbase).

Record UTXO := {
  utxo_hash : string;
  utxo_index : Z;
  utxo_publicKey : string;
  utxo_amount : Z
}.

Record Block := {
  time : Z;
  txs : list TxObject;
  nonce : Z;
  block_hash : string
}.

(** ** Work (work.js) *)

Module Work.

Definition adjust (interval difficulty : Z) : Z :=
  let difficulty :=
    if interval <? 5 then difficulty + 1
    else if interval >? 20 then difficulty - 1
    else difficulty in
  if difficulty <? 0 then 0
  else if difficulty >? 256 then 256
  else difficulty.

(** [chain[i].time], for [i] within the bounds of the loop. *)
Definition time_at (chain : list Block) (i : nat) : Z :=
  match nth_error chain i with Some b => time b | None => 0 end.

(** [for (let i = 1; i < chain.length; i++)] with
    [interval = chain[i].time - chain[i - 1].time]. *)
Definition nextDifficulty (chain : list Block) : Z :=
  fold_left
    (fun difficulty i =>
       adjust (time_at chain i - time_at chain (i - 1)) difficulty)
    (seq 1 (List.length chain - 1)) 0.

(** One round of the loop of [blockDifficulty]:
    [('0000' + nibble.toString(2)).substr(-4)]. *)
Definition nibble_bits (hash : string) (i : nat) : string :=
  let nibble := JS.parseInt16 (JS.charAt hash i) in
  JS.substr_last4 (String.append "0000" (JS.toString2 nibble)).

Definition binary_of (hash : string) : string :=
  fold_left (fun binary i => String.append binary (nibble_bits hash i))
    (seq 0 64) EmptyString.

Definition blockDifficulty (block : Block) : Z :=
  JS.indexOf "1" (binary_of (block_hash block)).

Definition chainDifficulty (chain : list Block) : F64.t :=
  fold_left
    (fun cumulative block => F64.add cumulative (F64.pow2 (blockDifficulty block)))
    chain F64.zero.

End Work.

(** ** Mutation and exceptions

    A JavaScript function that mutates its arguments and may throw is a
    function from the state of those arguments to an outcome and their
    final state.  A [throw] keeps whatever was written before it, as in
    JavaScript. *)

Inductive outcome (A : Type) :=
| Return (a : A)
| Throw (e : string).
Arguments Return {A} a.
Arguments Throw {A} e.

Definition M (S A : Type) : Type := S -> outcome A * S.

Definition ret {S A} (a : A) : M S A := fun s => (Return a, s).
Definition throw {S A} (e : string) : M S A := fun s => (Throw e, s).
Definition bind {S A B} (m : M S A) (k : A -> M S B) : M S B :=
  fun s => match m s with
           | (Return a, s') => k a s'
           | (Throw e, s') => (Throw e, s')
           end.
Definition get {S} : M S S := fun s => (Return s, s).
Definition put {S} (s : S) : M S unit := fun _ => (Return tt, s).
Definition modify {S} (f : S -> S) : M S unit := fun s => (Return tt, f s).

(** A call on objects the caller has just created ([{txs: []}],
    [UTXOs.slice()], a deep copy): the callee runs on the fresh objects
    [l], its exception propagates, and the caller's own state is not
    touched. *)
Definition call_on_fresh {S L A} (m : M L A) (l : L) : M S (A * L) :=
  fun s => match m l with
           | (Return a, l') => (Return (a, l'), s)
           | (Throw e, _) => (Throw e, s)
           end.

Declare Scope monad_scope.
Delimit Scope monad_scope with monad.
Notation "x <- m ;; k" := (bind m (fun x => k))
  (at level 61, m at next level, right associativity) : monad_scope.
Notation "m ;;; k" := (bind m (fun _ => k))
  (at level 61, right associativity) : monad_scope.
Open Scope monad_scope.

(** ** The cryptographic collaborators

    SHA-256 is only ever applied to [JSON.stringify] of a rebuilt object,
    possibly after a prefix, so each digest is a function of the object
    that is serialised. *)

Class Crypto := {
  (** [SHA256(JSON.stringify({inputs: [{hash, index}..], outputs: [..]}))] *)
  sha256_tx : list OutPoint -> list Output -> string;
  (** [SHA256(time + JSON.stringify({outputs: [..]}))] *)
  sha256_coinbase : Z -> list Output -> string;
  (** [SHA256(prefix + JSON.stringify({time, txs, nonce}))] *)
  sha256_block : string -> Z -> list TxObject -> Z -> string;
  (** [pk === secp256k1.keyFromPublic(pk, 'hex').getPublic(true, 'hex')],
      false also when [keyFromPublic] throws *)
  canonicalKey : string -> bool;
  (** [secp256k1.keyFromPublic(pk, 'hex').verify(msg, signature)] *)
  verify : string -> string -> string -> bool;
  (** the compressed public key of the genesis private key *)
  genesisTxPublicKey : string;
  (** [exports.publicKey] of wallet.js *)
  wallet_publicKey : string;
  (** [keyPair.sign(msg, 'hex').toDER('hex')] of wallet.js *)
  wallet_sign : string -> string
}.

(** ** The engine

    A call takes a limited number of arguments: spreading an array into a
    call, [f(a, b, ...array)], raises a RangeError when the arguments are
    more than the engine has room for (a number of the order of [10^5] in
    practice), before the callee runs.  The spread of [addBlock] is given
    the whole UTXO set and is modelled with the limit.  The one of
    [Pool.addTx], [usedUTXOs.push(...inputUTXOs)], is given the inputs of a
    single transaction: the model of the pool takes a transaction to have
    fewer inputs than the limit, and leaves that spread out. *)

Class Engine := {
  (** the largest number of arguments of a call *)
  spread_limit : Z
}.

(** ** Tx validator (txs.js) *)

Module Txs.
Section WithCrypto.
Context `{Crypto}.

(** The mutable arguments of [addTx] and [addCoinbase]: the array
    [block.txs] and the array [UTXOs]. *)
Definition state : Type := list TxObject * list UTXO.

Definition refers_to (h : string) (i : Z) (u : UTXO) : bool :=
  String.eqb (utxo_hash u) h && (utxo_index u =? i).

(** The first loop of [addTx]; the accumulator is
    [(validated.inputs, inputUTXOIndexes, net)].  [UTXOs[UTXOIndex]] is
    always defined, [UTXOIndex] being what [findIndex] returned. *)
Fixpoint validate_inputs (ins : list Input) (acc : list OutPoint * list nat * Z)
  : M state (list OutPoint * list nat * Z) :=
  match ins with
  | [] => ret acc
  | input :: rest =>
      let '(vinputs, inputUTXOIndexes, net) := acc in
      if negb (JS.hex_exact 64 (in_hash input))
      then throw "Bad input UTXO hash string"
      else if negb (JS.isSafeInteger (in_index input))
              || (in_index input <? 0) || (in_index input >? 1)
      then throw "Bad input UTXO index"
      else
        s <- get ;;
        match JS.findIndex (refers_to (in_hash input) (in_index input)) (snd s) with
        | None => throw "UTXO not found"
        | Some UTXOIndex =>
            if JS.includes UTXOIndex inputUTXOIndexes
            then throw "UTXO already used in this transaction"
            else
              match nth_error (snd s) UTXOIndex with
              | None => throw "TypeError"
              | Some u =>
                  validate_inputs rest
                    (vinputs ++ [{| op_hash := in_hash input; op_index := in_index input |}],
                     inputUTXOIndexes ++ [UTXOIndex],
                     Num.plus net (utxo_amount u))
              end
        end
  end.

(** The second loop; the accumulator is [(validated.outputs, net)].  (The
    source appends the amount to the message "Bad amount".) *)
Fixpoint validate_outputs (outs : list Output) (acc : list Output * Z)
  : M state (list Output * Z) :=
  match outs with
  | [] => ret acc
  | output :: rest =>
      let '(voutputs, net) := acc in
      if negb (JS.hex_exact 66 (publicKey output))
      then throw "Bad public key string"
      else if negb (canonicalKey (publicKey output))
      then throw "Bad public key"
      else if negb (JS.isSafeInteger (amount output)) || (amount output <? 2)
      then throw "Bad amount"
      else
        validate_outputs rest
          (voutputs ++ [{| publicKey := publicKey output; amount := amount output |}],
           Num.minus net (amount output))
  end.

(** The third loop, over [i], reading [tx.inputs[i]],
    [inputUTXOIndexes[i]] and [validated.inputs[i]] side by side; it returns
    [validated.inputs] with the signatures attached. *)
Fixpoint validate_signatures (txhash : string) (ins : list Input)
  (inputUTXOIndexes : list nat) (vinputs : list OutPoint) : M state (list Input) :=
  match ins with
  | [] => ret []
  | input :: rest =>
      if negb (JS.hex_between 20 144 (signature input))
      then throw "Bad signature string"
      else
        s <- get ;;
        match inputUTXOIndexes, vinputs with
        | i :: idxs, v :: vs =>
            match nth_error (snd s) i with
            | None => throw "TypeError"
            | Some u =>
                if negb (verify (utxo_publicKey u) txhash (signature input))
                then throw "Bad signature"
                else
                  signed <- validate_signatures txhash rest idxs vs ;;
                  ret ({| in_hash := op_hash v; in_index := op_index v;
                          signature := signature input |} :: signed)
            end
        | _, _ => throw "TypeError"
        end
  end.

(** [for (const i of inputUTXOIndexes) UTXOs.splice(i, 1)] *)
Definition remove_spent (inputUTXOIndexes : list nat) (UTXOs : list UTXO) : list UTXO :=
  fold_left (fun UTXOs i => JS.splice1 i UTXOs) inputUTXOIndexes UTXOs.

(** The UTXOs pushed for [tx.outputs[i]], [i = 0, 1, ...]. *)
Definition new_UTXOs (txhash : string) (outs : list Output) : list UTXO :=
  map (fun io => {| utxo_hash := txhash; utxo_index := Z.of_nat (fst io);
                    utxo_publicKey := publicKey (snd io);
                    utxo_amount := amount (snd io) |})
      (combine (seq 0 (List.length outs)) outs).

Definition addTx (tx : TxObject) : M state bool :=
  match tx with
  | CoinbaseTx _ => throw "Bad structure"
  | UserTx tx =>
      if (List.length (inputs tx) <? 1)%nat then throw "Bad inputs array"
      else if ((List.length (outputs tx) <? 1) || (2 <? List.length (outputs tx)))%nat
      then throw "Bad outputs array"
      else
        r1 <- validate_inputs (inputs tx) ([], [], 0) ;;
        let '(vinputs, inputUTXOIndexes, net) := r1 in
        r2 <- validate_outputs (outputs tx) ([], net) ;;
        let '(voutputs, net) := r2 in
        if negb (net =? 1 + Z.of_nat (List.length (inputs tx)))
        then throw "Amounts do not net a 1/tx burn + 1/input fee"
        else if negb (String.eqb (tx_hash tx) (sha256_tx vinputs voutputs))
        then throw "Bad tx hash"
        else
          signed <- validate_signatures (tx_hash tx) (inputs tx) inputUTXOIndexes vinputs ;;
          let validated :=
            {| inputs := signed; outputs := voutputs; tx_hash := tx_hash tx |} in
          modify (fun s => (fst s ++ [UserTx validated], snd s)) ;;;
          modify (fun s => (fst s, remove_spent inputUTXOIndexes (snd s))) ;;;
          modify (fun s => (fst s, snd s ++ new_UTXOs (tx_hash validated) (outputs validated))) ;;;
          ret true
  end.

(** [block.txs.reduce((count, tx) => count + tx.inputs.length, 0)]; an
    element without [inputs] raises a TypeError ([None]). *)
Fixpoint count_inputs (btxs : list TxObject) : option Z :=
  match btxs with
  | [] => Some 0
  | UserTx t :: rest =>
      option_map (fun n => Z.of_nat (List.length (inputs t)) + n) (count_inputs rest)
  | CoinbaseTx _ :: _ => None
  end.

(** [addCoinbase(coinbase, block, UTXOs)]; of [block] it reads [block.time]
    and mutates [block.txs]. *)
Definition addCoinbase (coinbase : TxObject) (block_time : Z) : M state unit :=
  match coinbase with
  | UserTx _ => throw "Bad coinbase structure"
  | CoinbaseTx cb =>
      match cb_outputs cb with
      | [output] =>
          if negb (JS.hex_exact 66 (publicKey output))
          then throw "Bad public key string"
          else if negb (canonicalKey (publicKey output))
          then throw "Bad public key"
          else
            s <- get ;;
            match count_inputs (fst s) with
            | None => throw "TypeError"
            | Some fees =>
                if negb (amount output =? 10 + fees) then throw "Bad amount"
                else
                  let voutputs :=
                    [{| publicKey := publicKey output; amount := amount output |}] in
                  if negb (String.eqb (cb_hash cb) (sha256_coinbase block_time voutputs))
                  then throw "Bad hash"
                  else
                    let validated := {| cb_outputs := voutputs; cb_hash := cb_hash cb |} in
                    modify (fun s => (fst s ++ [CoinbaseTx validated], snd s)) ;;;
                    modify (fun s =>
                      (fst s,
                       snd s ++ [{| utxo_hash := cb_hash validated; utxo_index := 0;
                                    utxo_publicKey := publicKey output;
                                    utxo_amount := amount output |}]))
            end
      | _ => throw "Bad coinbase outputs array"
      end
  end.

End WithCrypto.
End Txs.

(** ** Block / Chain (blocks.js) *)

Module Blocks.
Section WithCrypto.
Context `{Crypto} {engine : Engine}.

Definition genesisTx : Coinbase :=
  let outs := [{| publicKey := genesisTxPublicKey; amount := 10 |}] in
  {| cb_outputs := outs; cb_hash := sha256_coinbase 0 outs |}.

Definition genesisBlock : Block :=
  {| time := 0; txs := [CoinbaseTx genesisTx]; nonce := 0;
     block_hash := sha256_block EmptyString 0 [CoinbaseTx genesisTx] 0 |}.

Definition genesisChain : list Block := [genesisBlock].

Definition genesisUTXOs : list UTXO :=
  [{| utxo_hash := cb_hash genesisTx; utxo_index := 0;
      utxo_publicKey := genesisTxPublicKey; utxo_amount := 10 |}].

(** The mutable arguments of [addBlock], and the module variables
    [exports.chain] and [exports.UTXOs] of [swapChains]. *)
Definition state : Type := list Block * list UTXO.

(** [chain[chain.length - 1]] *)
Definition last_block (chain : list Block) : option Block :=
  nth_error chain (List.length chain - 1).

(** [for (let i = 0; i < block.txs.length - 1; i++) Txs.addTx(block.txs[i], ..)] *)
Fixpoint add_txs (btxs : list TxObject) : M Txs.state unit :=
  match btxs with
  | [] => ret tt
  | tx :: rest => Txs.addTx tx ;;; add_txs rest
  end.

(** The transactions and the coinbase of [block], rebuilt in the fresh
    block [validated] (of which [time] is already set) and the fresh copy
    [validatedUTXOs]. *)
Definition rebuild_txs (block : Block) : M Txs.state unit :=
  add_txs (removelast (txs block)) ;;;
  match nth_error (txs block) (List.length (txs block) - 1) with
  | None => throw "TypeError"
  | Some coinbase => Txs.addCoinbase coinbase (time block)
  end.

(** [addBlock(block, chain, UTXOs)] when [Date.now()] is [now]
    milliseconds. [block.time > 10 + now / 1000] is compared after
    multiplying by 1000.  The commit is [chain.push(block)] followed by
    [UTXOs.splice(0, UTXOs.length, ...validatedUTXOs)], a call of two
    arguments and the spread of the new UTXO set; ["RangeError"] stands for
    the RangeError that the engine raises, whatever its message. *)
Definition addBlock (now : Z) (block : Block) : M state unit :=
  if negb (JS.isSafeInteger (time block)) || (time block <? 0)
  then throw "Bad time integer"
  else if (List.length (txs block) <? 1)%nat then throw "Bad txs array"
  else if negb (JS.isSafeInteger (nonce block)) || (nonce block <? 0)
  then throw "Bad nonce integer"
  else if negb (JS.hex_exact 64 (block_hash block)) then throw "Bad hash string"
  else
    s <- get ;;
    let chain := fst s in
    let validatedUTXOs := snd s in
    match last_block chain with
    | None => throw "TypeError"
    | Some prevBlock =>
        if (time block <=? time prevBlock) || (1000 * time block >? 10000 + now)
        then throw "Bad time"
        else
          r <- call_on_fresh (rebuild_txs block) ([], validatedUTXOs) ;;
          let '(vtxs, validatedUTXOs) := snd r in
          if negb (String.eqb (block_hash block)
                     (sha256_block (block_hash prevBlock) (time block) vtxs (nonce block)))
          then throw "Bad hash"
          else if Work.blockDifficulty block <? Work.nextDifficulty chain
          then throw "Not enough difficulty"
          else
            let validated :=
              {| time := time block; txs := vtxs; nonce := nonce block;
                 block_hash := block_hash block |} in
            modify (fun s => (fst s ++ [validated], snd s)) ;;;
            if spread_limit <? 2 + Z.of_nat (List.length validatedUTXOs)
            then throw "RangeError"
            else modify (fun s => (fst s, validatedUTXOs))
    end.

(** [for (let i = 1; i < chain.length; i++) exports.addBlock(chain[i], ..)] *)
Fixpoint add_blocks (now : Z) (blocks : list Block) : M state unit :=
  match blocks with
  | [] => ret tt
  | b :: rest => addBlock now b ;;; add_blocks now rest
  end.

(** [swapChains(chain)]; the state is the pair of module variables
    [exports.chain], [exports.UTXOs]. *)
Definition swapChains (now : Z) (chain : list Block) : M state F64.t :=
  r <- call_on_fresh (add_blocks now (skipn 1 chain)) (genesisChain, genesisUTXOs) ;;
  let '(validated, validatedUTXOs) := snd r in
  s <- get ;;
  let increase := F64.sub (Work.chainDifficulty validated) (Work.chainDifficulty (fst s)) in
  if F64.ltb 0 increase
  then put (validated, validatedUTXOs) ;;; ret increase
  else ret increase.

End WithCrypto.
End Blocks.

(** ** Mempool (pool.js) *)

Module Pool.

Record pool := { pool_txs : list Tx; usedUTXOs : list UTXO }.

Section WithCrypto.
Context `{Crypto}.

(** The state of [addTx]: the module variables [exports.txs] and
    [exports.usedUTXOs], and the array [UTXOs] it is given. *)
Definition state : Type := pool * list UTXO.

Definition same_outpoint (a b : UTXO) : bool :=
  String.eqb (utxo_hash a) (utxo_hash b) && (utxo_index a =? utxo_index b).

(** The loop of [addTx]; [None] is its [return false], [Some inputUTXOs]
    its normal end.  [UTXOs.find] returns an entry for every input of a
    transaction that has just been validated against the same array; where
    it returns [undefined] the source would read a property of it, or push
    it, and the model throws. *)
Fixpoint claim_inputs (ins : list Input) (inputUTXOs : list UTXO)
  : M state (option (list UTXO)) :=
  match ins with
  | [] => ret (Some inputUTXOs)
  | input :: rest =>
      s <- get ;;
      match find (Txs.refers_to (in_hash input) (in_index input)) (snd s) with
      | None => throw "TypeError"
      | Some u =>
          match find (fun used => same_outpoint used u) (usedUTXOs (fst s)) with
          | Some _ => ret None
          | None => claim_inputs rest (inputUTXOs ++ [u])
          end
      end
  end.

Definition addTx (tx : TxObject) : M state bool :=
  s <- get ;;
  r <- call_on_fresh (Txs.addTx tx) ([], snd s) ;;
  if negb (fst r) then throw "Bad transaction"
  else
    match tx with
    | CoinbaseTx _ => throw "TypeError"
    | UserTx t =>
        claimed <- claim_inputs (inputs t) [] ;;
        match claimed with
        | None => ret false
        | Some inputUTXOs =>
            modify (fun s => ({| pool_txs := pool_txs (fst s) ++ [t];
                                 usedUTXOs := usedUTXOs (fst s) |}, snd s)) ;;;
            modify (fun s => ({| pool_txs := pool_txs (fst s);
                                 usedUTXOs := usedUTXOs (fst s) ++ inputUTXOs |}, snd s)) ;;;
            ret true
        end
    end.

End WithCrypto.

Definition spends (u : UTXO) (input : Input) : bool :=
  String.eqb (in_hash input) (utxo_hash u) && (in_index input =? utxo_index u).

(** [findTxIndex(UTXO)] over [exports.txs]; [None] is -1. *)
Definition findTxIndex (u : UTXO) (ptxs : list Tx) : option nat :=
  JS.findIndex (fun t => existsb (spends u) (inputs t)) ptxs.

(** [usedUTXOs.splice(x, 1)] where [x] is what [Array.prototype.find]
    returned, an object or [undefined]: the start index is [ToInteger(x)],
    which is 0 for both. *)
Definition splice_start (x : option UTXO) : nat := O.

(** [for (const removedInput of removedTx.inputs)] *)
Fixpoint release_inputs (ins : list Input) : M pool unit :=
  match ins with
  | [] => ret tt
  | removedInput :: rest =>
      p <- get ;;
      let removedUTXOIndex :=
        find (Txs.refers_to (in_hash removedInput) (in_index removedInput)) (usedUTXOs p) in
      modify (fun p => {| pool_txs := pool_txs p;
                          usedUTXOs := JS.splice1 (splice_start removedUTXOIndex) (usedUTXOs p) |}) ;;;
      release_inputs rest
  end.

(** The body of the loop over the inputs of one transaction of the block. *)
Definition remove_claimant (input : Input) : M pool unit :=
  p <- get ;;
  match find (Txs.refers_to (in_hash input) (in_index input)) (usedUTXOs p) with
  | None => ret tt
  | Some usedUTXO =>
      match findTxIndex usedUTXO (pool_txs p) with
      | None => ret tt
      | Some removedTxIndex =>
          match nth_error (pool_txs p) removedTxIndex with
          | None => throw "TypeError"
          | Some removedTx =>
              release_inputs (inputs removedTx) ;;;
              modify (fun p => {| pool_txs := JS.splice1 removedTxIndex (pool_txs p);
                                  usedUTXOs := usedUTXOs p |})
          end
      end
  end.

Fixpoint remove_claimants (ins : list Input) : M pool unit :=
  match ins with
  | [] => ret tt
  | input :: rest => remove_claimant input ;;; remove_claimants rest
  end.

(** [for (let i = 0; i < block.txs.length - 1; i++)], iterating
    [block.txs[i].inputs]; an element without [inputs] raises a TypeError. *)
Fixpoint remove_each (btxs : list TxObject) : M pool unit :=
  match btxs with
  | [] => ret tt
  | UserTx t :: rest => remove_claimants (inputs t) ;;; remove_each rest
  | CoinbaseTx _ :: _ => throw "TypeError"
  end.

Definition removeBlockTxs (block : Block) : M pool unit :=
  remove_each (removelast (txs block)).

End Pool.

(** ** Wallet (wallet.js) *)

Module Wallet.
Section WithCrypto.
Context `{Crypto}.

(** The loop with [break]; the accumulator is [(tx.inputs, amountInput)]. *)
Fixpoint gather (amountSent : Z) (UTXOs : list UTXO) (acc : list OutPoint * Z)
  : list OutPoint * Z :=
  match UTXOs with
  | [] => acc
  | u :: rest =>
      let ins := fst acc ++ [{| op_hash := utxo_hash u; op_index := utxo_index u |}] in
      let amountInput := Num.plus (snd acc) (utxo_amount u) in
      if amountInput >=? Num.plus (Num.plus amountSent 1) (Z.of_nat (List.length ins))
      then (ins, amountInput)
      else gather amountSent rest (ins, amountInput)
  end.

(** [makeTx(amountSent, publicKey, UTXOs)]: [Throw] is its exception,
    [Return None] its [return false]. *)
Definition makeTx (amountSent : Z) (recipient : string) (UTXOs : list UTXO)
  : outcome (option Tx) :=
  if amountSent <=? 2 then Throw "Amount sent is zero after fees"
  else
    let outs := [{| publicKey := recipient; amount := amountSent |}] in
    let UTXOs := filter (fun u => String.eqb (utxo_publicKey u) wallet_publicKey) UTXOs in
    let '(ins, amountInput) := gather amountSent UTXOs ([], 0) in
    if amountInput <? Num.plus (Num.plus amountSent 1) (Z.of_nat (List.length ins))
    then Return None
    else
      let amountChange :=
        Num.minus (Num.minus (Num.minus amountInput amountSent) 1)
                  (Z.of_nat (List.length ins)) in
      let outs :=
        if amountChange >? 1
        then outs ++ [{| publicKey := wallet_publicKey; amount := amountChange |}]
        else outs in
      let h := sha256_tx ins outs in
      Return (Some {| inputs := map (fun i => {| in_hash := op_hash i; in_index := op_index i;
                                                 signature := wallet_sign h |}) ins;
                      outputs := outs; tx_hash := h |}).

End WithCrypto.
End Wallet.

(** ** Miner (miner.js) *)

Module Miner.
Section WithCrypto.
Context `{Crypto}.

(** [let reward = 10; for (const tx of txs) reward += tx.inputs.length] *)
Definition reward (ptxs : list Tx) : Z :=
  fold_left (fun reward tx => reward + Z.of_nat (List.length (inputs tx))) ptxs 10.

(** [Math.ceil(now / 1000)] for an integer [now]. *)
Definition ceil_seconds (now : Z) : Z := - ((- now) / 1000).

(** [mineBlock(txs, publicKey, chain)] when [Date.now()] is [now]
    milliseconds and [Math.trunc(Math.random() * Number.MAX_SAFE_INTEGER)]
    is [random_nonce]; [Return None] is its [return false].  [txs] is
    [Pool.txs]: each of its elements has passed [Txs.addTx], which checks
    the keys of a transaction, of its inputs and of its outputs, so
    [JSON.stringify] gives for it what it gives for the rebuilt one. *)
Definition mineBlock (now random_nonce : Z) (ptxs : list Tx) (publicKey : string)
  (chain : list Block) : outcome (option Block) :=
  match Blocks.last_block chain with
  | None => Throw "TypeError"
  | Some prevBlock =>
      let t := Z.max (time prevBlock + 1) (ceil_seconds now) in
      let outs := [{| publicKey := publicKey; amount := reward ptxs |}] in
      let coinbase := {| cb_outputs := outs; cb_hash := sha256_coinbase t outs |} in
      let btxs := map UserTx ptxs ++ [CoinbaseTx coinbase] in
      let block :=
        {| time := t; txs := btxs; nonce := random_nonce;
           block_hash := sha256_block (block_hash prevBlock) t btxs random_nonce |} in
      if Work.blockDifficulty block <? Work.nextDifficulty chain then Return None
      else Return (Some block)
  end.

End WithCrypto.
End Miner.

(** ** The node (index.js and p2p.js)

    The module variables [Blocks.chain], [Blocks.UTXOs], [Pool.txs] and
    [Pool.usedUTXOs] are the state; what the node writes to its peers and
    to [console.error] is the result of a handler.  Writing to a socket
    ([peer.send]) is taken to succeed, and a message to have the fields of
    its type. *)

Module Node.

(** [JSON.parse(data)], by [message.type]; [UNKNOWN] is any other type. *)
Inductive message :=
| LATESTBLOCK (block : Block)
| BLOCKCHAIN (chain : list Block)
| TRANSACTION (tx : TxObject)
| UNKNOWN (type : string).

(** The peer a message came from, every peer but that one
    ([skippedPeer]), or every peer. *)
Inductive audience := Sender | Others | Everyone.

Inductive event :=
| SentTip (to : audience) (block : option Block)
| SentChain (to : audience) (chain : list Block)
| SentTx (to : audience) (tx : TxObject)
| Logged (error : string).

Definition node : Type := Blocks.state * Pool.pool.

Definition empty_pool : Pool.pool := {| Pool.pool_txs := []; Pool.usedUTXOs := [] |}.

(** [try { m } catch (error) { handler(error) }] *)
Definition try_catch {S A} (m : M S A) (handler : string -> M S A) : M S A :=
  fun s => match m s with
           | (Return a, s') => (Return a, s')
           | (Throw e, s') => handler e s'
           end.

(** A call that is given [Blocks.chain] and [Blocks.UTXOs]. *)
Definition on_chain {A} (m : M Blocks.state A) : M node A :=
  fun n => let '(r, s') := m (fst n) in (r, (s', snd n)).

(** A call that works on [Pool.txs] and [Pool.usedUTXOs]. *)
Definition on_pool {A} (m : M Pool.pool A) : M node A :=
  fun n => let '(r, p') := m (snd n) in (r, (fst n, p')).

(** A call that works on the pool and is given [Blocks.UTXOs]. *)
Definition on_pool_and_UTXOs {A} (m : M Pool.state A) : M node A :=
  fun n => let '(r, (p', U')) := m (snd n, snd (fst n)) in
           (r, ((fst (fst n), U'), p')).

(** [broadcastBlock(block, skippedPeer)]: what is sent is
    [Blocks.chain[Blocks.chain.length - 1]], not [block]. *)
Definition broadcastBlock (to : audience) : M node (list event) :=
  n <- get ;; ret [SentTip to (Blocks.last_block (fst (fst n)))].

(** [peer.send(JSON.stringify({type: 'BLOCKCHAIN', chain: Blocks.chain}))] *)
Definition sendChain : M node (list event) :=
  n <- get ;; ret [SentChain Sender (fst (fst n))].

(** [exports.peers], the sockets by their identity.  [onError] and
    [onClose] run [exports.peers.splice(exports.peers.indexOf(this), 1)];
    when [indexOf] returns -1 the start of the splice is the last
    position. *)
Definition forget (peer : nat) (peers : list nat) : list nat :=
  match JS.findIndex (Nat.eqb peer) peers with
  | Some i => JS.splice1 i peers
  | None => removelast peers
  end.

Definition onError : nat -> list nat -> list nat := forget.
Definition onClose : nat -> list nat -> list nat := forget.

(** The handler of ['connection'] of the server: the peer is refused when
    there are 100 peers. *)
Definition onConnection (peer : nat) (peers : list nat) : list nat :=
  if (100 <=? List.length peers)%nat then peers else peers ++ [peer].

Section WithCrypto.
Context `{Crypto} {engine : Engine}.

(** [onMessage(data)] of p2p.js when [Date.now()] is [now]. *)
Definition onMessage (now : Z) (msg : message) : M node (list event) :=
  try_catch
    (match msg with
     | LATESTBLOCK block =>
         try_catch
           (on_chain (Blocks.addBlock now block) ;;;
            on_pool (Pool.removeBlockTxs block) ;;;
            broadcastBlock Others)
           (fun _ => sendChain)
     | BLOCKCHAIN chain =>
         increase <- on_chain (Blocks.swapChains now chain) ;;
         if F64.ltb 0 increase
         then modify (fun n : node => (fst n, empty_pool)) ;;;
              broadcastBlock Others
         else if F64.ltb increase 0 then sendChain
         else ret []
     | TRANSACTION tx =>
         accepted <- on_pool_and_UTXOs (Pool.addTx tx) ;;
         if accepted then ret [SentTx Others tx] else ret []
     | UNKNOWN _ => throw "Unknown message type"
     end)
    (fun error => ret [Logged error]).

(** [mineAttempt] of index.js; [Date.now()] is [now] in [mineBlock] and
    [now'] in [addBlock].  Nothing catches what it throws. *)
Definition mineAttempt (now now' random_nonce : Z) : M node (list event) :=
  n <- get ;;
  match Miner.mineBlock now random_nonce (Pool.pool_txs (snd n)) wallet_publicKey
          (fst (fst n)) with
  | Throw e => throw e
  | Return None => ret []
  | Return (Some block) =>
      on_chain (Blocks.addBlock now' block) ;;;
      on_pool (Pool.removeBlockTxs block) ;;;
      broadcastBlock Everyone
  end.

(** [UTXO => Pool.findTxIndex(UTXO) === -1] *)
Definition unused (p : Pool.pool) (u : UTXO) : bool :=
  match Pool.findTxIndex u (Pool.pool_txs p) with
  | None => true
  | Some _ => false
  end.

(** The command [.send amountSent publicKey] of index.js, for an integer
    [amountSent]. *)
Definition send (amountSent : Z) (recipient : string) : M node (list event) :=
  try_catch
    (n <- get ;;
     let unusedUTXOs := filter (unused (snd n)) (snd (fst n)) in
     match Wallet.makeTx amountSent recipient unusedUTXOs with
     | Throw e => throw e
     | Return None => throw "Insufficient balance (not including unconfirmed change)"
     | Return (Some tx) =>
         accepted <- on_pool_and_UTXOs (Pool.addTx (UserTx tx)) ;;
         if negb accepted
         then throw "Transaction uses input UTXOs already used in pool"
         else ret [SentTx Everyone (UserTx tx)]
     end)
    (fun error => ret [Logged error]).

End WithCrypto.
End Node.

(** ** A small instance of the collaborators

    Digests are 64 hexadecimal digits computed from the amounts, the time
    and the nonce, the block digest has [nonce mod 256] leading zero bits,
    and only the wallet's key signs (a checksum of the message).  The instance is used to run the
    model on concrete inputs. *)

Module Toy.

Definition hex_digit (n : Z) : ascii :=
  ascii_of_nat (Z.to_nat (if n <? 10 then 48 + n else 87 + n)).

Fixpoint hex_of (digits : nat) (z : Z) : string :=
  match digits with
  | O => EmptyString
  | S d => String (hex_digit ((z / 16 ^ Z.of_nat d) mod 16)) (hex_of d z)
  end.

Definition key (n : Z) : string := String.append "02" (hex_of 64 n).

Definition sum_amounts (outs : list Output) : Z :=
  fold_right (fun o acc => amount o + acc) 0 outs.

Definition sum_indexes (ins : list OutPoint) : Z :=
  fold_right (fun i acc => 1 + op_index i + acc) 0 ins.

Definition checksum (msg : string) : Z :=
  (fix go (s : string) : Z :=
     match s with
     | EmptyString => 0
     | String c r => Z.of_nat (nat_of_ascii c) + 31 * go r
     end) msg.

Definition sign (msg : string) : string := hex_of 20 (checksum msg).

#[export] Instance crypto : Crypto := {|
  sha256_tx := fun ins outs => hex_of 64 (1000 * sum_amounts outs + sum_indexes ins);
  sha256_coinbase := fun t outs => hex_of 64 (2 ^ 64 * (t + 1) + sum_amounts outs);
  sha256_block := fun prefix t btxs n => hex_of 64 (2 ^ (255 - n mod 256));
  canonicalKey := fun pk => String.prefix "02" pk || String.prefix "03" pk;
  verify := fun pk msg sig => String.eqb pk (key 1) && String.eqb sig (sign msg);
  genesisTxPublicKey := key 0;
  wallet_publicKey := key 1;
  wallet_sign := sign
|}.

(** An engine whose calls take 100000 arguments. *)
#[export] Instance engine : Engine := {| spread_limit := 100000 |}.

End Toy.

(** * Properties of Work *)

(** ** The difficulty schedule as the specification words it *)

Module WorkSpec.

(** The intervals [chain[i].time - chain[i-1].time], [i = 1 .. len-1]. *)
Fixpoint intervals (chain : list Block) : list Z :=
  match chain with
  | b0 :: (b1 :: _) as rest => (time b1 - time b0) :: intervals rest
  | _ => []
  end.

Definition clamp (d : Z) : Z := Z.max 0 (Z.min 256 d).

(** One step: plus one under 5 seconds, minus one over 20 seconds,
    unchanged otherwise, then clamped to [0, 256]. *)
Definition step (d interval : Z) : Z :=
  clamp (if interval <? 5 then d + 1
         else if 20 <? interval then d - 1
         else d).

Definition nextDifficulty (chain : list Block) : Z :=
  fold_left step (intervals chain) 0.

(** The number of zero bits before the first one bit, reading the bits
    [width - 1], ..., 0 of [v]. *)
Fixpoint leading_zeros (width : nat) (v : Z) : Z :=
  match width with
  | O => 0
  | S k => if Z.testbit v (Z.of_nat k) then 0 else 1 + leading_zeros k v
  end.

(** The number of leading zero bits of a 256-bit value. *)
Definition leading_zero_bits (v : Z) : Z := leading_zeros 256 v.

(** The value of a string of lowercase hexadecimal digits. *)
Definition hex_value (s : string) : Z :=
  (fix go (acc : Z) (s : string) : Z :=
     match s with
     | EmptyString => acc
     | String c r =>
         go (16 * acc + match JS.parseInt16 (Some c) with Some v => v | None => 0 end) r
     end) 0 s.

End WorkSpec.

Section WorkFacts.

Lemma adjust_is_step interval d : Work.adjust interval d = WorkSpec.step d interval.
Proof.
  unfold Work.adjust, WorkSpec.step, WorkSpec.clamp.
  destruct (interval <? 5) eqn:E5; [|destruct (interval >? 20) eqn:E20];
    rewrite ?Z.gtb_ltb in *; rewrite ?E20;
    repeat match goal with
           | |- context [if ?c then _ else _] => destruct c eqn:?
           end; lia.
Qed.

Lemma adjust_bounds interval d : 0 <= Work.adjust interval d <= 256.
Proof. rewrite adjust_is_step. unfold WorkSpec.step, WorkSpec.clamp. lia. Qed.

Lemma fold_left_map_arg {A B C} (g : A -> C -> A) (h : B -> C) (l : list B) (a : A) :
  fold_left (fun acc i => g acc (h i)) l a = fold_left g (map h l) a.
Proof. revert a. induction l as [|x l IH]; intros a; simpl; [reflexivity | apply IH]. Qed.

Lemma fold_left_pointwise {A B} (f g : A -> B -> A) (l : list B) (a : A) :
  (forall x y, f x y = g x y) -> fold_left f l a = fold_left g l a.
Proof.
  intros Hfg. revert a.
  induction l as [|x l IH]; intros a; simpl; [reflexivity|].
  rewrite Hfg. apply IH.
Qed.

Lemma time_at_cons b chain i : Work.time_at (b :: chain) (S i) = Work.time_at chain i.
Proof. reflexivity. Qed.

Lemma intervals_cons2 b0 b1 rest :
  WorkSpec.intervals (b0 :: b1 :: rest)
  = (time b1 - time b0) :: WorkSpec.intervals (b1 :: rest).
Proof. reflexivity. Qed.

(** The index loop of the source visits exactly the consecutive intervals. *)
Lemma intervals_by_index chain :
  map (fun i => Work.time_at chain i - Work.time_at chain (i - 1))
      (seq 1 (List.length chain - 1))
  = WorkSpec.intervals chain.
Proof.
  induction chain as [|b0 rest IH]; [reflexivity|].
  destruct rest as [|b1 rest']; [reflexivity|].
  replace (List.length (b0 :: b1 :: rest') - 1)%nat
    with (S (List.length (b1 :: rest') - 1)) by (simpl; lia).
  rewrite intervals_cons2, <- IH.
  cbn [seq map]. f_equal.
  rewrite <- seq_shift, map_map.
  apply map_ext_in. intros i Hi. apply in_seq in Hi.
  rewrite time_at_cons.
  destruct i as [|i]; [lia|].
  replace (S (S i) - 1)%nat with (S (S i - 1)) by lia.
  rewrite time_at_cons. reflexivity.
Qed.

Lemma nextDifficulty_refines chain :
  Work.nextDifficulty chain = WorkSpec.nextDifficulty chain.
Proof.
  unfold Work.nextDifficulty, WorkSpec.nextDifficulty.
  rewrite <- intervals_by_index.
  rewrite <- fold_left_map_arg.
  apply fold_left_pointwise. intros d i. apply adjust_is_step.
Qed.

Lemma fold_adjust_bounds (f : nat -> Z) l d0 :
  0 <= d0 <= 256 ->
  0 <= fold_left (fun d i => Work.adjust (f i) d) l d0 <= 256.
Proof.
  revert d0. induction l as [|i l IH]; intros d0 Hd; simpl; [exact Hd|].
  apply IH, adjust_bounds.
Qed.

Lemma nextDifficulty_bounds chain : 0 <= Work.nextDifficulty chain <= 256.
Proof. unfold Work.nextDifficulty. apply fold_adjust_bounds. lia. Qed.

(** C8: [nextDifficulty] is the accumulator of the specification (start at
    0; +1 for an interval under 5 s, -1 for one over 20 s, unchanged
    otherwise; clamped to [0, 256] after each step), and it lies in
    [0, 256] for every chain and for every prefix of it. *)
Theorem nextDifficulty_schedule_and_bounds :
  forall chain : list Block,
    Work.nextDifficulty chain = WorkSpec.nextDifficulty chain
    /\ forall k : nat, 0 <= Work.nextDifficulty (firstn k chain) <= 256.
Proof.
  intros chain. split.
  - apply nextDifficulty_refines.
  - intros k. apply nextDifficulty_bounds.
Qed.

End WorkFacts.

(** * Reasoning about computations in [M] *)

Section MonadFacts.
Context {S : Type}.

(** [m] never writes. *)
Definition readonly {A} (m : M S A) : Prop := forall s, snd (m s) = s.

(** [m] never throws. *)
Definition unfailing {A} (m : M S A) : Prop :=
  forall s, exists a, fst (m s) = Return a.

(** [m] throws only before its first write: a thrown exception leaves the
    state as it was. *)
Definition atomic {A} (m : M S A) : Prop :=
  forall s e s', m s = (Throw e, s') -> s' = s.

Lemma readonly_ret {A} (a : A) : readonly (ret a).
Proof. intros s. reflexivity. Qed.

Lemma readonly_throw {A} e : readonly (@throw S A e).
Proof. intros s. reflexivity. Qed.

Lemma readonly_get : readonly (@get S).
Proof. intros s. reflexivity. Qed.

Lemma readonly_bind {A B} (m : M S A) (k : A -> M S B) :
  readonly m -> (forall a, readonly (k a)) -> readonly (bind m k).
Proof.
  intros Hm Hk s. unfold bind. specialize (Hm s).
  destruct (m s) as [[a|e] s1]; simpl in *; subst; [apply Hk | reflexivity].
Qed.

Lemma readonly_call_on_fresh {L A} (m : M L A) (l : L) :
  readonly (@call_on_fresh S L A m l).
Proof. intros s. unfold call_on_fresh. destruct (m l) as [[a|e] l']; reflexivity. Qed.

Lemma unfailing_ret {A} (a : A) : unfailing (ret a).
Proof. intros s. exists a. reflexivity. Qed.

Lemma unfailing_modify f : unfailing (@modify S f).
Proof. intros s. exists tt. reflexivity. Qed.

Lemma unfailing_put s0 : unfailing (@put S s0).
Proof. intros s. exists tt. reflexivity. Qed.

Lemma unfailing_bind {A B} (m : M S A) (k : A -> M S B) :
  unfailing m -> (forall a, unfailing (k a)) -> unfailing (bind m k).
Proof.
  intros Hm Hk s. unfold bind. destruct (Hm s) as [a Ha].
  destruct (m s) as [[a'|e] s1]; simpl in Ha; [|discriminate].
  apply Hk.
Qed.

Lemma atomic_readonly {A} (m : M S A) : readonly m -> atomic m.
Proof. intros Hm s e s' E. specialize (Hm s). rewrite E in Hm. exact Hm. Qed.

Lemma atomic_unfailing {A} (m : M S A) : unfailing m -> atomic m.
Proof. intros Hm s e s' E. destruct (Hm s) as [a Ha]. rewrite E in Ha. discriminate. Qed.

Lemma atomic_throw {A} e : atomic (@throw S A e).
Proof. apply atomic_readonly, readonly_throw. Qed.

(** A read-only prefix followed by an atomic computation is atomic. *)
Lemma atomic_bind {A B} (m : M S A) (k : A -> M S B) :
  readonly m -> (forall a, atomic (k a)) -> atomic (bind m k).
Proof.
  intros Hm Hk s e s' E. unfold bind in E. specialize (Hm s).
  destruct (m s) as [[a|e1] s1]; simpl in Hm; subst s1.
  - eapply Hk; eassumption.
  - congruence.
Qed.

End MonadFacts.

(** Splits the conditionals and matches of a computation. *)
Ltac split_cases :=
  repeat match goal with
         | |- context [if ?c then _ else _] => destruct c eqn:?
         | |- context [match ?x with _ => _ end] => destruct x eqn:?
         end.

(** Proves [readonly m] by following the structure of [m]; [IH] is the
    induction hypothesis of a loop. *)
Ltac prove_readonly IH :=
  repeat first
    [ apply readonly_ret | apply readonly_throw | apply readonly_get
    | apply readonly_call_on_fresh | apply IH
    | apply readonly_bind; [ | intros ? ]
    | progress split_cases ].

(** Proves [unfailing m] for a sequence of writes. *)
Ltac prove_unfailing :=
  repeat first
    [ apply unfailing_ret | apply unfailing_modify | apply unfailing_put
    | apply unfailing_bind; [ | intros ? ] ].

(** Proves [atomic m] for checks followed by writes; [RO] proves the loops
    read-only. *)
Ltac prove_atomic RO :=
  repeat first
    [ apply atomic_throw
    | apply atomic_bind; [ solve [ RO ] | intros ? ]
    | apply atomic_unfailing; solve [ prove_unfailing ]
    | progress split_cases ].

(** * Properties of the transaction validator *)

Section TxsFacts.
Context `{Crypto}.

Lemma validate_inputs_readonly ins acc : readonly (Txs.validate_inputs ins acc).
Proof.
  revert acc. induction ins as [|input rest IH]; intros acc; simpl; prove_readonly IH.
Qed.

Lemma validate_outputs_readonly outs acc : readonly (Txs.validate_outputs outs acc).
Proof.
  revert acc. induction outs as [|output rest IH]; intros acc; simpl; prove_readonly IH.
Qed.

Lemma validate_signatures_readonly h ins idxs vinputs :
  readonly (Txs.validate_signatures h ins idxs vinputs).
Proof.
  revert idxs vinputs.
  induction ins as [|input rest IH]; intros idxs vinputs; simpl; prove_readonly IH.
Qed.

Ltac txs_readonly :=
  first [ apply validate_inputs_readonly | apply validate_outputs_readonly
        | apply validate_signatures_readonly | apply readonly_get ].

(** [addTx] writes only after its last check. *)
Lemma addTx_atomic tx : atomic (Txs.addTx tx).
Proof. destruct tx as [tx|cb]; simpl; prove_atomic txs_readonly. Qed.

Lemma addCoinbase_atomic cb t : atomic (Txs.addCoinbase cb t).
Proof. destruct cb as [tx|cb]; simpl; prove_atomic txs_readonly. Qed.

End TxsFacts.

(** * Properties of blocks and chains *)

Section BlocksFacts.
Context `{Crypto} {engine : Engine}.

Ltac blocks_readonly :=
  first [ apply readonly_get | apply readonly_call_on_fresh ].

(** [swapChains] rebuilds the candidate in deep copies of the genesis and
    assigns [exports.chain] and [exports.UTXOs] only after the last
    [addBlock] returned. *)
Lemma swapChains_atomic now chain : atomic (Blocks.swapChains now chain).
Proof. unfold Blocks.swapChains. prove_atomic blocks_readonly. Qed.

End BlocksFacts.

(** * What a successful validation rebuilt *)

(** Splits the conditionals and matches of a hypothesis that says how a
    computation ended. *)
Ltac open_run H :=
  unfold bind, get, throw, ret, modify, put in H; simpl in H;
  repeat (match type of H with
          | context [if ?c then _ else _] => destruct c eqn:?
          | context [match ?x with _ => _ end] => destruct x eqn:?
          end; simpl in H; try discriminate H).

Section RebuildFacts.
Context `{Crypto}.

Definition outpoint_of (input : Input) : OutPoint :=
  {| op_hash := in_hash input; op_index := in_index input |}.

Lemma validate_inputs_ok ins : forall vin idxs net s vin' idxs' net' s',
  Txs.validate_inputs ins (vin, idxs, net) s = (Return (vin', idxs', net'), s') ->
  vin' = vin ++ map outpoint_of ins
  /\ exists pos,
       idxs' = idxs ++ pos
       /\ Forall2 (fun input i =>
            JS.findIndex (Txs.refers_to (in_hash input) (in_index input)) (snd s) = Some i)
          ins pos.
Proof.
  induction ins as [|input rest IH]; intros vin idxs net s vin' idxs' net' s' E.
  - simpl in E. inversion E; subst. rewrite app_nil_r. split; [reflexivity|].
    exists []. rewrite app_nil_r. split; [reflexivity | constructor].
  - cbn [Txs.validate_inputs] in E. open_run E.
    apply IH in E. destruct E as (E1 & pos & E2 & E3).
    rewrite E1, E2, <- !app_assoc. split; [reflexivity|].
    eexists (_ :: pos). split; [reflexivity|]. constructor; eassumption.
Qed.

Lemma validate_outputs_ok outs : forall vout net s vout' net' s',
  Txs.validate_outputs outs (vout, net) s = (Return (vout', net'), s') ->
  vout' = vout ++ outs.
Proof.
  induction outs as [|output rest IH]; intros vout net s vout' net' s' E.
  - simpl in E. inversion E; subst. now rewrite app_nil_r.
  - cbn [Txs.validate_outputs] in E. open_run E.
    apply IH in E. rewrite E, <- app_assoc. destruct output; reflexivity.
Qed.

Lemma validate_signatures_ok h ins : forall idxs s signed s',
  Txs.validate_signatures h ins idxs (map outpoint_of ins) s = (Return signed, s') ->
  signed = ins.
Proof.
  induction ins as [|input rest IH]; intros idxs s signed s' E.
  - simpl in E. inversion E. reflexivity.
  - cbn [Txs.validate_signatures map] in E. open_run E.
    match goal with
    | Hrec : Txs.validate_signatures _ _ _ _ _ = _ |- _ => apply IH in Hrec; subst
    end.
    inversion E; subst. destruct input; reflexivity.
Qed.

(** An accepted transaction is pushed as it was offered: the rebuilt copy
    has the same inputs, outputs and hash. *)
Lemma addTx_ok tx btxs U b s' :
  Txs.addTx tx (btxs, U) = (Return b, s') ->
  exists t idxs,
    tx = UserTx t /\ b = true
    /\ s' = (btxs ++ [UserTx t],
             Txs.remove_spent idxs U ++ Txs.new_UTXOs (tx_hash t) (outputs t))
    /\ Forall2 (fun input i =>
         JS.findIndex (Txs.refers_to (in_hash input) (in_index input)) U = Some i)
       (inputs t) idxs.
Proof.
  intros E. destruct tx as [t|cb]; [|discriminate E].
  cbn [Txs.addTx] in E. unfold throw in E.
  destruct (List.length (inputs t) <? 1)%nat; [discriminate E|].
  destruct ((List.length (outputs t) <? 1) || (2 <? List.length (outputs t)))%nat;
    [discriminate E|].
  unfold bind at 1 in E.
  destruct (Txs.validate_inputs (inputs t) ([], [], 0) (btxs, U))
    as [[[[vin idxs] net]|e] s1] eqn:E1;
    cbv beta iota in E; [|discriminate E].
  pose proof (validate_inputs_readonly (inputs t) ([], [], 0) (btxs, U)) as R1.
  rewrite E1 in R1. simpl in R1. subst s1.
  apply validate_inputs_ok in E1. destruct E1 as (-> & pos & -> & Hfound).
  cbn [app snd] in *.
  unfold bind at 1 in E.
  destruct (Txs.validate_outputs (outputs t) ([], net) (btxs, U))
    as [[[vout net']|e] s2] eqn:E2;
    cbv beta iota in E; [|discriminate E].
  pose proof (validate_outputs_readonly (outputs t) ([], net) (btxs, U)) as R2.
  rewrite E2 in R2. simpl in R2. subst s2.
  apply validate_outputs_ok in E2. subst vout.
  change ([] ++ map outpoint_of (inputs t)) with (map outpoint_of (inputs t)) in E.
  change ([] ++ outputs t) with (outputs t) in E.
  destruct (negb (net' =? 1 + Z.of_nat (List.length (inputs t)))); [discriminate E|].
  destruct (negb (tx_hash t =? sha256_tx (map outpoint_of (inputs t)) (outputs t))%string);
    [discriminate E|].
  unfold bind at 1 in E.
  destruct (Txs.validate_signatures (tx_hash t) (inputs t) pos
              (map outpoint_of (inputs t)) (btxs, U)) as [[signed|e] s3] eqn:E3;
    cbv beta iota in E; [|discriminate E].
  pose proof (validate_signatures_readonly (tx_hash t) (inputs t) pos
                (map outpoint_of (inputs t)) (btxs, U)) as R3.
  rewrite E3 in R3. simpl in R3. subst s3.
  apply validate_signatures_ok in E3. subst signed.
  unfold bind, modify, ret in E. simpl in E. inversion E; subst.
  exists t, pos. destruct t; simpl in *. auto.
Qed.

Lemma addCoinbase_ok coinbase t btxs U s' :
  Txs.addCoinbase coinbase t (btxs, U) = (Return tt, s') ->
  exists cb output,
    coinbase = CoinbaseTx cb /\ cb_outputs cb = [output]
    /\ s' = (btxs ++ [CoinbaseTx cb],
             U ++ [{| utxo_hash := cb_hash cb; utxo_index := 0;
                      utxo_publicKey := publicKey output;
                      utxo_amount := amount output |}]).
Proof.
  intros E. destruct coinbase as [tx|cb]; [discriminate E|].
  cbn [Txs.addCoinbase] in E. open_run E.
  inversion E; subst. exists cb, o. repeat split; [assumption|].
  destruct cb as [outs h]; simpl in *. subst outs. destruct o; reflexivity.
Qed.

End RebuildFacts.

(** * Chains rebuilt from the genesis *)

Section ChainFacts.
Context `{Crypto} {engine : Engine}.

Lemma add_txs_ok l : forall btxs U s',
  Blocks.add_txs l (btxs, U) = (Return tt, s') -> fst s' = btxs ++ l.
Proof.
  induction l as [|tx rest IH]; intros btxs U s' E.
  - inversion E. simpl. now rewrite app_nil_r.
  - cbn [Blocks.add_txs] in E. unfold bind at 1 in E.
    destruct (Txs.addTx tx (btxs, U)) as [[b|e] [btxs1 U1]] eqn:E1; [|discriminate E].
    apply addTx_ok in E1. destruct E1 as (t & idxs & -> & _ & E1 & _).
    inversion E1; subst. apply IH in E. rewrite E, <- app_assoc. reflexivity.
Qed.

Lemma removelast_nth_error {A} (l : list A) x :
  nth_error l (List.length l - 1) = Some x -> removelast l ++ [x] = l.
Proof.
  induction l as [|a l IH]; intros E; [discriminate E|].
  destruct l as [|b l'].
  - simpl in E. inversion E. reflexivity.
  - change (removelast (a :: b :: l')) with (a :: removelast (b :: l')).
    cbn [app]. f_equal. apply IH.
    cbn [List.length] in *. rewrite Nat.sub_succ, Nat.sub_0_r in *. exact E.
Qed.

(** The block that [addBlock] rebuilds has the transactions of the block it
    was offered. *)
Lemma rebuild_txs_ok block U s' :
  Blocks.rebuild_txs block ([], U) = (Return tt, s') -> fst s' = txs block.
Proof.
  unfold Blocks.rebuild_txs. intros E. unfold bind at 1 in E.
  destruct (Blocks.add_txs (removelast (txs block)) ([], U)) as [[[]|e] [btxs1 U1]] eqn:E1;
    [|discriminate E].
  apply add_txs_ok in E1. simpl in E1. subst btxs1.
  destruct (nth_error (txs block) (List.length (txs block) - 1)) as [cb|] eqn:En;
    [|discriminate E].
  apply addCoinbase_ok in E. destruct E as (c & o & -> & _ & ->).
  simpl. apply removelast_nth_error. exact En.
Qed.

(** The part of [addBlock] after the check of the time, which does not
    read the clock. *)
Definition addBlock_after_time (block prevBlock : Block) : M Blocks.state unit :=
  s <- get ;;
  r <- call_on_fresh (Blocks.rebuild_txs block) ([], snd s) ;;
  let '(vtxs, validatedUTXOs) := snd r in
  if negb (String.eqb (block_hash block)
             (sha256_block (block_hash prevBlock) (time block) vtxs (nonce block)))
  then throw "Bad hash"
  else if Work.blockDifficulty block <? Work.nextDifficulty (fst s)
  then throw "Not enough difficulty"
  else
    let validated :=
      {| time := time block; txs := vtxs; nonce := nonce block;
         block_hash := block_hash block |} in
    modify (fun s => (fst s ++ [validated], snd s)) ;;;
    if spread_limit <? 2 + Z.of_nat (List.length validatedUTXOs)
    then throw "RangeError"
    else modify (fun s => (fst s, validatedUTXOs)).

(** The structural checks of [addBlock]: the message of the first that
    fails. *)
Definition shape_error (block : Block) : option string :=
  if negb (JS.isSafeInteger (time block)) || (time block <? 0)
  then Some "Bad time integer"%string
  else if (List.length (txs block) <? 1)%nat then Some "Bad txs array"%string
  else if negb (JS.isSafeInteger (nonce block)) || (nonce block <? 0)
  then Some "Bad nonce integer"%string
  else if negb (JS.hex_exact 64 (block_hash block)) then Some "Bad hash string"%string
  else None.

Lemma addBlock_unfold now block s :
  Blocks.addBlock now block s =
  match shape_error block with
  | Some e => (Throw e, s)
  | None =>
    match Blocks.last_block (fst s) with
    | None => (Throw "TypeError"%string, s)
    | Some prevBlock =>
        if (time block <=? time prevBlock) || (1000 * time block >? 10000 + now)
        then (Throw "Bad time"%string, s)
        else addBlock_after_time block prevBlock s
    end
  end.
Proof.
  unfold Blocks.addBlock, shape_error, addBlock_after_time.
  destruct (negb (JS.isSafeInteger (time block)) || (time block <? 0)); [reflexivity|].
  destruct (List.length (txs block) <? 1)%nat; [reflexivity|].
  destruct (negb (JS.isSafeInteger (nonce block)) || (nonce block <? 0)); [reflexivity|].
  destruct (negb (JS.hex_exact 64 (block_hash block))); [reflexivity|].
  unfold bind at 1. unfold get at 1. cbv beta iota.
  destruct (Blocks.last_block (fst s)) as [prevBlock|]; [|reflexivity].
  destruct ((time block <=? time prevBlock) || (1000 * time block >? 10000 + now));
    reflexivity.
Qed.

(** How the part after the check of the time ends: a failed check leaves
    the chain and the UTXO set alone; after the last check the block is
    pushed, and the UTXO set is replaced unless the spread throws. *)
Lemma addBlock_after_time_eq block prevBlock chain U :
  addBlock_after_time block prevBlock (chain, U) =
  match Blocks.rebuild_txs block ([], U) with
  | (Throw e, _) => (Throw e, (chain, U))
  | (Return _, (_, vU)) =>
      if negb (String.eqb (block_hash block)
                 (sha256_block (block_hash prevBlock) (time block) (txs block) (nonce block)))
      then (Throw "Bad hash"%string, (chain, U))
      else if Work.blockDifficulty block <? Work.nextDifficulty chain
      then (Throw "Not enough difficulty"%string, (chain, U))
      else if spread_limit <? 2 + Z.of_nat (List.length vU)
      then (Throw "RangeError"%string, (chain ++ [block], U))
      else (Return tt, (chain ++ [block], vU))
  end.
Proof.
  unfold addBlock_after_time. unfold bind at 1, get at 1. cbv beta iota.
  unfold bind at 1, call_on_fresh at 1. cbn [snd fst].
  destruct (Blocks.rebuild_txs block ([], U)) as [[[]|e] [vtxs vU]] eqn:E1;
    [|reflexivity].
  apply rebuild_txs_ok in E1. cbn [fst] in E1. subst vtxs. cbn [snd fst].
  destruct (negb (block_hash block =?
                  sha256_block (block_hash prevBlock) (time block) (txs block) (nonce block))%string);
    [reflexivity|].
  destruct (Work.blockDifficulty block <? Work.nextDifficulty chain); [reflexivity|].
  unfold bind at 1, modify at 1. cbn [fst snd].
  assert ({| time := time block; txs := txs block; nonce := nonce block;
             block_hash := block_hash block |} = block) as -> by (destruct block; reflexivity).
  destruct (spread_limit <? 2 + Z.of_nat (List.length vU)); reflexivity.
Qed.

(** An accepted block is appended as it was offered. *)
Lemma addBlock_ok now block chain U s' :
  Blocks.addBlock now block (chain, U) = (Return tt, s') ->
  fst s' = chain ++ [block]
  /\ (exists prevBlock, Blocks.last_block chain = Some prevBlock)
  /\ Work.nextDifficulty chain <= Work.blockDifficulty block.
Proof.
  intros E. rewrite addBlock_unfold in E.
  destruct (shape_error block); [discriminate E|].
  cbn [fst] in E.
  destruct (Blocks.last_block chain) as [prevBlock|]; [|discriminate E].
  destruct ((time block <=? time prevBlock) || (1000 * time block >? 10000 + now));
    [discriminate E|].
  rewrite addBlock_after_time_eq in E.
  destruct (Blocks.rebuild_txs block ([], U)) as [[[]|e] [vtxs vU]]; [|discriminate E].
  destruct (negb (block_hash block =?
                  sha256_block (block_hash prevBlock) (time block) (txs block) (nonce block))%string);
    [discriminate E|].
  destruct (Work.blockDifficulty block <? Work.nextDifficulty chain) eqn:Ed;
    [discriminate E|].
  destruct (spread_limit <? 2 + Z.of_nat (List.length vU)); [discriminate E|].
  inversion E; subst. cbn [fst]. apply Z.ltb_ge in Ed.
  split; [reflexivity|]. split; [eauto | exact Ed].
Qed.

(** When [addBlock] throws, nothing was assigned, unless what it throws is
    the RangeError of the spread: the block had passed every check and is
    pushed on the chain, and the UTXO set is the one before the block. *)
Lemma addBlock_throws now block chain U e s' :
  Blocks.addBlock now block (chain, U) = (Throw e, s') ->
  s' = (chain, U)
  \/ (e = "RangeError"%string /\ s' = (chain ++ [block], U)
      /\ (exists prevBlock, Blocks.last_block chain = Some prevBlock)
      /\ Work.nextDifficulty chain <= Work.blockDifficulty block
      /\ exists vU, Blocks.rebuild_txs block ([], U) = (Return tt, (txs block, vU))
                    /\ spread_limit < 2 + Z.of_nat (List.length vU)).
Proof.
  intros E. rewrite addBlock_unfold in E.
  destruct (shape_error block); [left; inversion E; reflexivity|].
  cbn [fst] in E.
  destruct (Blocks.last_block chain) as [prevBlock|]; [|left; inversion E; reflexivity].
  destruct ((time block <=? time prevBlock) || (1000 * time block >? 10000 + now));
    [left; inversion E; reflexivity|].
  rewrite addBlock_after_time_eq in E.
  destruct (Blocks.rebuild_txs block ([], U)) as [[[]|e0] [vtxs vU]] eqn:Er;
    [|left; inversion E; reflexivity].
  pose proof (rebuild_txs_ok _ _ _ Er) as Et. cbn [fst] in Et. subst vtxs.
  destruct (negb (block_hash block =?
                  sha256_block (block_hash prevBlock) (time block) (txs block) (nonce block))%string);
    [left; inversion E; reflexivity|].
  destruct (Work.blockDifficulty block <? Work.nextDifficulty chain) eqn:Ed;
    [left; inversion E; reflexivity|].
  destruct (spread_limit <? 2 + Z.of_nat (List.length vU)) eqn:El; [|discriminate E].
  right. inversion E; subst. apply Z.ltb_ge in Ed. apply Z.ltb_lt in El.
  repeat split; eauto.
Qed.

(** Acceptance survives the passing of time: the clock only bounds
    [block.time] from above. *)
Lemma addBlock_later now now' block s s' :
  now <= now' ->
  Blocks.addBlock now block s = (Return tt, s') ->
  Blocks.addBlock now' block s = (Return tt, s').
Proof.
  intros Hle E. rewrite addBlock_unfold in E. rewrite addBlock_unfold.
  destruct (shape_error block); [discriminate E|].
  destruct (Blocks.last_block (fst s)) as [prevBlock|]; [|discriminate E].
  destruct (time block <=? time prevBlock); [discriminate E|].
  cbn [orb] in *.
  destruct (1000 * time block >? 10000 + now) eqn:Et; [discriminate E|].
  replace (1000 * time block >? 10000 + now') with false; [exact E|].
  symmetry. rewrite Z.gtb_ltb in *. apply Z.ltb_ge. apply Z.ltb_ge in Et. lia.
Qed.

Lemma add_blocks_app now l1 l2 s :
  Blocks.add_blocks now (l1 ++ l2) s =
  match Blocks.add_blocks now l1 s with
  | (Return _, s1) => Blocks.add_blocks now l2 s1
  | (Throw e, s1) => (Throw e, s1)
  end.
Proof.
  revert s. induction l1 as [|b l1 IH]; intros s; [reflexivity|].
  cbn [app Blocks.add_blocks]. unfold bind.
  destruct (Blocks.addBlock now b s) as [[[]|e] s1]; [apply IH | reflexivity].
Qed.

Lemma add_blocks_ok now l : forall chain U s',
  Blocks.add_blocks now l (chain, U) = (Return tt, s') -> fst s' = chain ++ l.
Proof.
  induction l as [|b l IH]; intros chain U s' E.
  - inversion E. simpl. now rewrite app_nil_r.
  - cbn [Blocks.add_blocks] in E. unfold bind at 1 in E.
    destruct (Blocks.addBlock now b (chain, U)) as [[[]|e] [chain1 U1]] eqn:E1;
      [|discriminate E].
    apply addBlock_ok in E1. destruct E1 as [E1 _]. simpl in E1. subst chain1.
    apply IH in E. rewrite E, <- app_assoc. reflexivity.
Qed.

Lemma add_blocks_later now now' l : forall s s',
  now <= now' ->
  Blocks.add_blocks now l s = (Return tt, s') ->
  Blocks.add_blocks now' l s = (Return tt, s').
Proof.
  induction l as [|b l IH]; intros s s' Hle E; [exact E|].
  cbn [Blocks.add_blocks] in *. unfold bind at 1 in E. unfold bind at 1.
  destruct (Blocks.addBlock now b s) as [[[]|e] s1] eqn:E1; [|discriminate E].
  rewrite (addBlock_later now now' b s s1 Hle E1). eapply IH; eassumption.
Qed.

End ChainFacts.

(** * Double-precision sums of powers of two *)

Section F64Facts.

(** The number of halves of a finite double of the Standard Library's
    specification of IEEE-754 arithmetic. *)
Definition halves_of_spec_float (f : spec_float) : Z :=
  match f with
  | S754_finite s m e =>
      let v := if 0 <=? e + 1 then Z.pos m * 2 ^ (e + 1)
               else Z.pos m / 2 ^ (- (e + 1)) in
      if s then - v else v
  | _ => 0
  end.

(** [F64.round] agrees with [binary_normalize 53 1024], the rounding of
    binary64, on sample values around the points where rounding starts, on
    ties, and on negative values. *)
Example round_agrees_with_binary64 :
  let samples :=
    [0; 1; 2; 3; 2 ^ 53 - 1; 2 ^ 53; 2 ^ 53 + 1; 2 ^ 53 + 3; 2 ^ 54 + 1; 2 ^ 54 + 2;
     2 ^ 54 + 3; 2 ^ 54 + 6; 2 ^ 61 + 2; 2 ^ 61 - 18; 2 ^ 200 + 2 ^ 147;
     2 ^ 200 + 2 ^ 146; 2 ^ 200 + 3 * 2 ^ 146; 2 ^ 257 - 1; - (2 ^ 61 - 18); -5] in
  map (fun x => halves_of_spec_float (binary_normalize 53 1024 x (-1) false)) samples
  = map F64.round samples.
Proof. vm_compute. reflexivity. Qed.

Lemma rne_small x : 0 <= x < 2 ^ 53 -> F64.rne x = x.
Proof.
  intros Hx. unfold F64.rne.
  destruct (Z.eq_dec x 0) as [->|Hne]; [reflexivity|].
  assert (Z.log2 x < 53) as Hl by (apply Z.log2_lt_pow2; lia).
  apply Z.ltb_lt in Hl. rewrite Hl. reflexivity.
Qed.

(** Up to [2^54] the rounded value is at most one away. *)
Lemma rne_near x : 0 <= x <= 2 ^ 54 -> x - 1 <= F64.rne x.
Proof.
  intros Hx. destruct (Z.eq_dec x (2 ^ 54)) as [->|Hne]; [vm_compute; discriminate|].
  destruct (Z_lt_le_dec x (2 ^ 53)) as [Hs|Hb].
  - rewrite rne_small by lia. lia.
  - unfold F64.rne.
    assert (Z.log2 x = 53) as Hl.
    { apply Z.log2_unique; [lia|]. change (Z.succ 53) with 54. lia. }
    rewrite Hl. change (53 <? 53) with false. cbv beta iota zeta.
    change (53 - 52) with 1. change (2 ^ (1 - 1)) with 1.
    rewrite Z.shiftr_div_pow2 by lia. change (2 ^ 1) with 2.
    rewrite !Z.shiftl_mul_pow2 by lia. change (2 ^ 1) with 2.
    pose proof (Z.div_mod x 2 ltac:(lia)) as Hdm.
    pose proof (Z.mod_pos_bound x 2 ltac:(lia)) as Hm.
    repeat match goal with
           | |- context [if ?c then _ else _] => destruct c eqn:?
           end; lia.
Qed.

Lemma rne_pos x : 0 < x -> 0 < F64.rne x.
Proof.
  intros Hx. unfold F64.rne.
  destruct (Z.log2 x <? 53) eqn:Hl; [exact Hx|].
  apply Z.ltb_ge in Hl. cbv zeta.
  set (s := Z.log2 x - 52).
  assert (0 < s) as Hs by (unfold s; lia).
  assert (1 <= Z.shiftr x s) as Hq.
  { rewrite Z.shiftr_div_pow2 by lia.
    apply Z.div_le_lower_bound; [apply Z.pow_pos_nonneg; lia|].
    rewrite Z.mul_1_r.
    transitivity (2 ^ Z.log2 x).
    - apply Z.pow_le_mono_r; unfold s; lia.
    - apply Z.log2_spec. exact Hx. }
  rewrite Z.shiftl_mul_pow2 by lia.
  apply Z.mul_pos_pos; [|apply Z.pow_pos_nonneg; lia].
  repeat match goal with
         | |- context [if ?c then _ else _] => destruct c
         end; lia.
Qed.

Lemma round_pos_iff d : 0 < F64.round d <-> 0 < d.
Proof.
  unfold F64.round. destruct (d <? 0) eqn:Hd.
  - apply Z.ltb_lt in Hd. pose proof (rne_pos (- d) ltac:(lia)). lia.
  - apply Z.ltb_ge in Hd. destruct (Z.eq_dec d 0) as [->|Hne].
    + change (F64.rne 0) with 0. lia.
    + pose proof (rne_pos d ltac:(lia)). lia.
Qed.

Lemma add_pos x y : 0 <= x -> 0 < y -> 0 < F64.add x y.
Proof. intros Hx Hy. unfold F64.add. apply round_pos_iff. lia. Qed.

Lemma sub_diag x : F64.sub x x = 0.
Proof. unfold F64.sub. rewrite Z.sub_diag. reflexivity. Qed.

Lemma indexOf_ge c s : -1 <= JS.indexOf c s.
Proof.
  induction s as [|a r IH]; cbn [JS.indexOf]; [lia|].
  destruct (Ascii.eqb a c); [lia|]. cbv zeta.
  destruct (JS.indexOf c r <? 0); lia.
Qed.

Lemma blockDifficulty_ge b : -1 <= Work.blockDifficulty b.
Proof. apply indexOf_ge. Qed.

Lemma pow2_pos d : -1 <= d -> 0 < F64.pow2 d.
Proof. intros Hd. unfold F64.pow2. apply Z.pow_pos_nonneg; lia. Qed.

Lemma chainDifficulty_snoc chain b :
  Work.chainDifficulty (chain ++ [b])
  = F64.add (Work.chainDifficulty chain) (F64.pow2 (Work.blockDifficulty b)).
Proof. unfold Work.chainDifficulty. rewrite fold_left_app. reflexivity. Qed.

Lemma chainDifficulty_fold_nonneg chain : forall acc,
  0 <= acc ->
  0 <= fold_left
         (fun cumulative block =>
            F64.add cumulative (F64.pow2 (Work.blockDifficulty block))) chain acc
  /\ (chain <> [] ->
      0 < fold_left
            (fun cumulative block =>
               F64.add cumulative (F64.pow2 (Work.blockDifficulty block))) chain acc).
Proof.
  induction chain as [|b chain IH]; intros acc Hacc; simpl.
  - split; [exact Hacc | congruence].
  - pose proof (add_pos acc (F64.pow2 (Work.blockDifficulty b)) Hacc
                  (pow2_pos _ (blockDifficulty_ge b))) as Hp.
    destruct (IH (F64.add acc (F64.pow2 (Work.blockDifficulty b))) ltac:(lia)) as [H0 H1].
    split; [exact H0|]. intros _.
    destruct chain as [|b' chain']; [exact Hp | apply H1; discriminate].
Qed.

Lemma chainDifficulty_nonneg chain : 0 <= Work.chainDifficulty chain.
Proof. apply chainDifficulty_fold_nonneg. unfold F64.zero. lia. Qed.

Lemma chainDifficulty_pos chain : chain <> [] -> 0 < Work.chainDifficulty chain.
Proof. apply chainDifficulty_fold_nonneg. unfold F64.zero. lia. Qed.

End F64Facts.

(** * Fork choice *)

Section ForkChoice.
Context `{Crypto} {engine : Engine}.

(** The states of [exports.chain] and [exports.UTXOs] a node can be in
    when its clock shows [now]: the genesis, and what [addBlock] and
    [swapChains] make of a state reached earlier. *)
Inductive reachable : Z -> Blocks.state -> Prop :=
| reach_genesis now :
    reachable now (Blocks.genesisChain, Blocks.genesisUTXOs)
| reach_later now now' s :
    reachable now s -> now <= now' -> reachable now' s
| reach_addBlock now block s s' :
    reachable now s ->
    Blocks.addBlock now block s = (Return tt, s') ->
    reachable now s'
| reach_swapChains now chain s increase s' :
    reachable now s ->
    Blocks.swapChains now chain s = (Return increase, s') ->
    reachable now s'.

Lemma swapChains_unfold now chain s :
  Blocks.swapChains now chain s =
  match Blocks.add_blocks now (skipn 1 chain) (Blocks.genesisChain, Blocks.genesisUTXOs) with
  | (Throw e, _) => (Throw e, s)
  | (Return _, (validated, validatedUTXOs)) =>
      let increase :=
        F64.sub (Work.chainDifficulty validated) (Work.chainDifficulty (fst s)) in
      (Return increase, if 0 <? increase then (validated, validatedUTXOs) else s)
  end.
Proof.
  unfold Blocks.swapChains, bind, call_on_fresh, get, put, ret, F64.ltb.
  destruct (Blocks.add_blocks now (skipn 1 chain) (Blocks.genesisChain, Blocks.genesisUTXOs))
    as [[[]|e] [validated validatedUTXOs]]; [|reflexivity].
  cbn [snd fst]. cbv zeta.
  destruct (0 <? F64.sub (Work.chainDifficulty validated) (Work.chainDifficulty (fst s)));
    reflexivity.
Qed.

(** The chain of a node starts with the genesis block, and validating it
    again from the genesis, now or later, rebuilds the node's state. *)
Lemma reachable_rebuilds now s :
  reachable now s ->
  exists rest,
    fst s = Blocks.genesisBlock :: rest
    /\ forall now', now <= now' ->
         Blocks.add_blocks now' rest (Blocks.genesisChain, Blocks.genesisUTXOs)
         = (Return tt, s).
Proof.
  induction 1 as [now | now now' s _ IH Hle | now block s s' _ IH E
                 | now chain s increase s' _ IH E].
  - exists []. split; [reflexivity|]. intros now' _. reflexivity.
  - destruct IH as (rest & Hc & Hr). exists rest. split; [exact Hc|].
    intros now'' Hle'. apply Hr. lia.
  - destruct IH as (rest & Hc & Hr). destruct s as [chain U]. simpl in Hc. subst chain.
    exists (rest ++ [block]). split.
    + apply addBlock_ok in E. destruct E as [E _]. exact E.
    + intros now' Hle. rewrite add_blocks_app, (Hr now' Hle).
      cbn [Blocks.add_blocks]. unfold bind.
      rewrite (addBlock_later now now' _ _ _ Hle E). reflexivity.
  - rewrite swapChains_unfold in E.
    destruct (Blocks.add_blocks now (skipn 1 chain)
                (Blocks.genesisChain, Blocks.genesisUTXOs))
      as [[[]|e] [validated validatedUTXOs]] eqn:Er; [|discriminate E].
    cbv zeta in E.
    destruct (0 <? F64.sub (Work.chainDifficulty validated) (Work.chainDifficulty (fst s)));
      inversion E; subst; [|exact IH].
    exists (skipn 1 chain). split.
    + apply add_blocks_ok in Er. exact Er.
    + intros now' Hle. eapply add_blocks_later; eassumption.
Qed.

(** C5: for a candidate that validates, [swapChains] returns the
    difference of the cumulative difficulties and replaces the node's chain
    and UTXO set exactly when the candidate's is strictly greater, leaving
    them unchanged otherwise (equal work included).  Applied to the node's
    own chain it returns 0 and changes nothing when that chain and the UTXO
    set are what calls of [addBlock] and [swapChains] that returned have
    made of the genesis, under a clock that has not gone back since: the
    own chain is validated again, against the clock of the call. *)
Theorem swapChains_fork_choice :
  (forall now candidate s validated validatedUTXOs,
     Blocks.add_blocks now (skipn 1 candidate) (Blocks.genesisChain, Blocks.genesisUTXOs)
       = (Return tt, (validated, validatedUTXOs)) ->
     let increase :=
       F64.sub (Work.chainDifficulty validated) (Work.chainDifficulty (fst s)) in
     Blocks.swapChains now candidate s
       = (Return increase,
          if Work.chainDifficulty (fst s) <? Work.chainDifficulty validated
          then (validated, validatedUTXOs) else s)
     /\ (0 < increase <-> Work.chainDifficulty (fst s) < Work.chainDifficulty validated))
  /\ (forall now s, reachable now s -> Blocks.swapChains now (fst s) s = (Return 0, s)).
Proof.
  split.
  - intros now candidate s validated validatedUTXOs Er increase.
    assert (0 < increase <-> Work.chainDifficulty (fst s) < Work.chainDifficulty validated)
      as Hiff.
    { unfold increase, F64.sub. rewrite round_pos_iff. lia. }
    split; [|exact Hiff].
    rewrite swapChains_unfold, Er. cbv zeta. fold increase. f_equal.
    destruct (0 <? increase) eqn:E1;
      destruct (Work.chainDifficulty (fst s) <? Work.chainDifficulty validated) eqn:E2;
      try reflexivity; exfalso.
    + apply Z.ltb_lt in E1. apply Z.ltb_ge in E2. apply Hiff in E1. lia.
    + apply Z.ltb_ge in E1. apply Z.ltb_lt in E2. apply Hiff in E2. lia.
  - intros now s Hr. apply reachable_rebuilds in Hr. destruct Hr as (rest & Hc & Hr).
    destruct s as [chain U]. cbn [fst] in *.
    rewrite swapChains_unfold. cbn [fst]. rewrite Hc at 1. cbn [skipn].
    rewrite (Hr now (Z.le_refl now)). cbv zeta. rewrite sub_diag. reflexivity.
Qed.

(** C6, as the code has it: the cumulative difficulty of a non-empty chain
    is strictly positive, and a block that [addBlock] accepts strictly
    increases it whenever the sum does not exceed [2^53], up to where the
    double-precision addition is exact to the unit. *)
Theorem chainDifficulty_grows_below_2_53 :
  (forall chain, chain <> [] -> 0 < Work.chainDifficulty chain)
  /\ (forall now block chain U s',
        Blocks.addBlock now block (chain, U) = (Return tt, s') ->
        Work.chainDifficulty chain + F64.pow2 (Work.blockDifficulty block)
          <= F64.of_Z (2 ^ 53) ->
        fst s' = chain ++ [block]
        /\ Work.chainDifficulty chain < Work.chainDifficulty (fst s')).
Proof.
  split; [apply chainDifficulty_pos|].
  intros now block chain U s' E Hsum.
  apply addBlock_ok in E. destruct E as (E & _ & Hd).
  split; [exact E|]. rewrite E, chainDifficulty_snoc.
  pose proof (nextDifficulty_bounds chain) as Hn.
  pose proof (chainDifficulty_nonneg chain) as H0.
  assert (2 <= F64.pow2 (Work.blockDifficulty block)) as Hp.
  { unfold F64.pow2. change 2 with (2 ^ 1) at 1. apply Z.pow_le_mono_r; lia. }
  unfold F64.add, F64.round.
  replace (_ + _ <? 0) with false by (symmetry; apply Z.ltb_ge; lia).
  unfold F64.of_Z in Hsum. change (2 * 2 ^ 53) with (2 ^ 54) in Hsum.
  pose proof (rne_near (Work.chainDifficulty chain + F64.pow2 (Work.blockDifficulty block))
                ltac:(lia)).
  lia.
Qed.

End ForkChoice.

(** * Properties of the pool *)

Section FrameFacts.
Context {S T : Type}.

(** [m] leaves the part [f] of the state as it was, however it ends. *)
Definition preserves {A} (f : S -> T) (m : M S A) : Prop :=
  forall s, f (snd (m s)) = f s.

Lemma preserves_readonly {A} f (m : M S A) : readonly m -> preserves f m.
Proof. intros Hm s. rewrite Hm. reflexivity. Qed.

Lemma preserves_modify f (g : S -> S) :
  (forall s, f (g s) = f s) -> preserves f (modify g).
Proof. intros Hg s. apply Hg. Qed.

Lemma preserves_bind {A B} f (m : M S A) (k : A -> M S B) :
  preserves f m -> (forall a, preserves f (k a)) -> preserves f (bind m k).
Proof.
  intros Hm Hk s. unfold bind. specialize (Hm s).
  destruct (m s) as [[a|e] s1]; simpl in *; [|exact Hm].
  rewrite Hk. exact Hm.
Qed.

End FrameFacts.

Section PoolFacts.
Context `{Crypto}.

(** Some member of the pool has claimed the output that [input] spends. *)
Definition claimed (used : list UTXO) (input : Input) : bool :=
  existsb (Txs.refers_to (in_hash input) (in_index input)) used.

(** The UTXOs that the inputs refer to, in the order of the inputs. *)
Definition claims_of (UTXOs : list UTXO) (ins : list Input) : list UTXO :=
  flat_map (fun input =>
              match find (Txs.refers_to (in_hash input) (in_index input)) UTXOs with
              | Some u => [u]
              | None => []
              end) ins.

Definition found_in (UTXOs : list UTXO) (input : Input) : Prop :=
  exists i, JS.findIndex (Txs.refers_to (in_hash input) (in_index input)) UTXOs = Some i.

Lemma findIndex_find {A} (p : A -> bool) l i :
  JS.findIndex p l = Some i -> exists x, find p l = Some x /\ nth_error l i = Some x.
Proof.
  revert i. induction l as [|a l IH]; intros i E; [discriminate E|].
  simpl in *. destruct (p a).
  - inversion E. eauto.
  - destruct (JS.findIndex p l) as [j|]; [|discriminate E].
    inversion E. destruct (IH j eq_refl) as (x & Hx & Hn). eauto.
Qed.

Lemma refers_to_eq h i u :
  Txs.refers_to h i u = true -> utxo_hash u = h /\ utxo_index u = i.
Proof.
  unfold Txs.refers_to. intros E. apply andb_prop in E. destruct E as [E1 E2].
  apply String.eqb_eq in E1. apply Z.eqb_eq in E2. auto.
Qed.

Lemma existsb_find {A} (p : A -> bool) l :
  existsb p l = match find p l with Some _ => true | None => false end.
Proof. induction l as [|a l IH]; simpl; [reflexivity|]. destruct (p a); auto. Qed.

Lemma find_pointwise {A} (p q : A -> bool) l :
  (forall x, p x = q x) -> find p l = find q l.
Proof.
  intros Hpq. induction l as [|a l IH]; simpl; [reflexivity|].
  rewrite Hpq, IH. reflexivity.
Qed.

(** The loop of [addTx] on inputs that were all found: it ends with
    [return false] exactly when some input is claimed, and writes nothing. *)
Lemma claim_inputs_run ins : forall acc p U,
  Forall (found_in U) ins ->
  Pool.claim_inputs ins acc (p, U) =
  (Return (if existsb (claimed (Pool.usedUTXOs p)) ins then None
           else Some (acc ++ claims_of U ins)), (p, U)).
Proof.
  induction ins as [|input rest IH]; intros acc p U Hf.
  - simpl. rewrite app_nil_r. reflexivity.
  - inversion Hf as [|? ? [i Hi] Hrest]; subst.
    apply findIndex_find in Hi. destruct Hi as (u & Hu & _).
    cbn [Pool.claim_inputs existsb claims_of flat_map].
    unfold bind at 1, get at 1. cbn [snd fst]. rewrite Hu.
    pose proof (find_some _ _ Hu) as [_ Hr]. apply refers_to_eq in Hr.
    destruct Hr as [Hh Hx].
    rewrite (find_pointwise (fun used => Pool.same_outpoint used u)
               (Txs.refers_to (in_hash input) (in_index input))).
    2:{ intros x. unfold Pool.same_outpoint, Txs.refers_to. rewrite Hh, Hx. reflexivity. }
    unfold claimed at 1. rewrite existsb_find.
    destruct (find (Txs.refers_to (in_hash input) (in_index input)) (Pool.usedUTXOs p)).
    + reflexivity.
    + cbn [orb]. rewrite IH by exact Hrest.
      fold (claims_of U rest). rewrite <- app_assoc. reflexivity.
Qed.

Lemma claim_inputs_readonly ins acc : readonly (Pool.claim_inputs ins acc).
Proof.
  revert acc. induction ins as [|input rest IH]; intros acc; simpl; prove_readonly IH.
Qed.

(** C10: [Pool.addTx] validates in [UTXOs.slice()] and never writes to the
    array [UTXOs] it was given: it is the same after the call, whether the
    transaction was accepted, rejected as a duplicate claim, or failed
    validation. *)
Theorem pool_addTx_never_mutates_UTXOs :
  forall (tx : TxObject) (p : Pool.pool) (UTXOs : list UTXO),
    snd (snd (Pool.addTx tx (p, UTXOs))) = UTXOs.
Proof.
  intros tx p UTXOs.
  change UTXOs with (snd (p, UTXOs)) at 2.
  generalize (p, UTXOs). change (preserves snd (Pool.addTx tx)).
  unfold Pool.addTx.
  apply preserves_bind; [apply preserves_readonly, readonly_get | intros s].
  apply preserves_bind; [apply preserves_readonly, readonly_call_on_fresh | intros r].
  destruct (negb (fst r)); [apply preserves_readonly, readonly_throw|].
  destruct tx as [t|cb]; [|apply preserves_readonly, readonly_throw].
  apply preserves_bind; [apply preserves_readonly, claim_inputs_readonly | intros c].
  destruct c as [inputUTXOs|]; [|apply preserves_readonly, readonly_ret].
  repeat (apply preserves_bind; [apply preserves_modify; reflexivity | intros ?]).
  apply preserves_readonly, readonly_ret.
Qed.

(** [tx] passes the validation that [Pool.addTx] runs first. *)
Definition validates (UTXOs : list UTXO) (tx : TxObject) : Prop :=
  fst (Txs.addTx tx ([], UTXOs)) = Return true.

Definition accept (p : Pool.pool) (UTXOs : list UTXO) (t : Tx) : Pool.pool :=
  {| Pool.pool_txs := Pool.pool_txs p ++ [t];
     Pool.usedUTXOs := Pool.usedUTXOs p ++ claims_of UTXOs (inputs t) |}.

Lemma validates_found U tx :
  validates U tx -> exists t, tx = UserTx t /\ Forall (found_in U) (inputs t).
Proof.
  unfold validates. intros Hv.
  destruct (Txs.addTx tx ([], U)) as [[b|e] s'] eqn:E; [|discriminate Hv].
  apply addTx_ok in E. destruct E as (t & idxs & -> & _ & _ & Hf).
  exists t. split; [reflexivity|].
  clear - Hf. induction Hf as [|input i ins idxs' Hi _ IH]; constructor.
  - exists i. exact Hi.
  - exact IH.
Qed.

Lemma pool_addTx_run t p U :
  validates U (UserTx t) ->
  Pool.addTx (UserTx t) (p, U) =
  if existsb (claimed (Pool.usedUTXOs p)) (inputs t)
  then (Return false, (p, U))
  else (Return true, (accept p U t, U)).
Proof.
  intros Hv. destruct (validates_found _ _ Hv) as (t' & Et & Hf).
  inversion Et; subst t'. unfold validates in Hv.
  unfold Pool.addTx. unfold bind at 1, get at 1. cbn [snd].
  unfold bind at 1, call_on_fresh at 1.
  destruct (Txs.addTx (UserTx t) ([], U)) as [[b|e] s'] eqn:E; [|discriminate Hv].
  simpl in Hv. inversion Hv; subst b. cbn [fst negb].
  unfold bind at 1. rewrite claim_inputs_run by exact Hf.
  destruct (existsb (claimed (Pool.usedUTXOs p)) (inputs t)); reflexivity.
Qed.

Lemma claims_of_outpoints U ins :
  Forall (found_in U) ins ->
  map (fun u => (utxo_hash u, utxo_index u)) (claims_of U ins)
  = map (fun input => (in_hash input, in_index input)) ins.
Proof.
  induction 1 as [|input rest [i Hi] _ IH]; [reflexivity|].
  apply findIndex_find in Hi. destruct Hi as (u & Hu & _).
  cbn [claims_of flat_map map]. rewrite Hu. cbn [app map].
  fold (claims_of U rest). rewrite IH.
  apply find_some in Hu. destruct Hu as [_ Hr]. apply refers_to_eq in Hr.
  destruct Hr as [-> ->]. reflexivity.
Qed.



End PoolFacts.

(** * The commit of an accepted transaction *)

Section CommitFacts.
Context `{Crypto}.

(** X3: whenever [addTx] succeeds it has pushed the transaction onto
    [block.txs], spliced the positions found for the inputs, in the order of
    the inputs, out of the UTXO set, and pushed one UTXO per output.  For a
    transaction with a single input the splice removes exactly the UTXO the
    input refers to. *)
Theorem addTx_commit :
  forall tx btxs U b s',
    Txs.addTx tx (btxs, U) = (Return b, s') ->
    exists t idxs,
      tx = UserTx t /\ b = true
      /\ Forall2 (fun input i =>
           JS.findIndex (Txs.refers_to (in_hash input) (in_index input)) U = Some i)
         (inputs t) idxs
      /\ s' = (btxs ++ [UserTx t],
               Txs.remove_spent idxs U ++ Txs.new_UTXOs (tx_hash t) (outputs t))
      /\ (forall input, inputs t = [input] ->
          exists i u,
            idxs = [i] /\ nth_error U i = Some u
            /\ utxo_hash u = in_hash input /\ utxo_index u = in_index input
            /\ Txs.remove_spent idxs U = firstn i U ++ skipn (S i) U).
Proof.
  intros tx btxs U b s' E. apply addTx_ok in E.
  destruct E as (t & idxs & -> & -> & -> & Hpos).
  exists t, idxs. repeat split; try assumption.
  intros input Hone. rewrite Hone in Hpos.
  inversion Hpos as [|? i ? rest Hi Hrest]; subst. inversion Hrest; subst.
  destruct (findIndex_find _ _ _ Hi) as (u & Hfind & Hnth).
  apply find_some in Hfind. destruct Hfind as [_ Hr]. apply refers_to_eq in Hr.
  destruct Hr as [Hh Hx]. exists i, u. repeat split; assumption.
Qed.

End CommitFacts.

(** * Sums of amounts in double precision *)

Section AmountFacts.

(** The sum of [amounts] from [start], one addition after the other. *)
Definition sum_from (start : Z) (amounts : list Z) : Z :=
  fold_left Num.plus amounts start.

(** [start] less each of [amounts], one subtraction after the other. *)
Definition less_each (start : Z) (amounts : list Z) : Z :=
  fold_left Num.minus amounts start.

(** The exact sum. *)
Definition total (amounts : list Z) : Z := fold_right Z.add 0 amounts.

(** On integers, [F64.round] agrees with [binary_normalize 53 1024] at the
    exponent 0: around [2^53], on ties and on negative values. *)
Example round_of_integers_agrees_with_binary64 :
  let samples :=
    [0; 1; 7; 2 ^ 53 - 1; 2 ^ 53; 2 ^ 53 + 1; 2 ^ 53 + 2; 2 ^ 53 + 3; 2 ^ 53 + 5;
     2 ^ 54 + 2; 2 ^ 54 + 6; 2 ^ 60 + 1; - (2 ^ 53 + 1); - (2 ^ 53 + 3); -3] in
  map (fun x => halves_of_spec_float (binary_normalize 53 1024 x 0 false)) samples
  = map (fun x => 2 * F64.round x) samples.
Proof. vm_compute. reflexivity. Qed.

(** Rounding does not depend on the unit: a number of halves that is even
    rounds as the integer it stands for. *)
Lemma rne_scale x : 0 <= x -> F64.rne (2 * x) = 2 * F64.rne x.
Proof.
  intros Hx. destruct (Z.eq_dec x 0) as [->|Hne]; [reflexivity|].
  assert (0 < x) as Hpos by lia.
  unfold F64.rne. rewrite (Z.log2_double x Hpos).
  pose proof (Z.log2_nonneg x) as Hl.
  destruct (Z.log2 x <? 53) eqn:E1.
  - apply Z.ltb_lt in E1. destruct (Z.succ (Z.log2 x) <? 53) eqn:E2; [reflexivity|].
    apply Z.ltb_ge in E2. assert (Z.log2 x = 52) as E52 by lia.
    rewrite E52. cbv zeta. change (Z.succ 52 - 52) with 1. change (2 ^ (1 - 1)) with 1.
    rewrite Z.shiftr_div_pow2 by lia. change (2 ^ 1) with 2.
    rewrite (Z.mul_comm 2 x), Z.div_mul by lia.
    rewrite !Z.shiftl_mul_pow2 by lia. change (2 ^ 1) with 2.
    replace (x * 2 - x * 2) with 0 by lia. change (0 <? 1) with true. cbv iota. lia.
  - apply Z.ltb_ge in E1.
    replace (Z.succ (Z.log2 x) <? 53) with false by (symmetry; apply Z.ltb_ge; lia).
    cbv zeta. set (s := Z.log2 x - 52).
    replace (Z.succ (Z.log2 x) - 52) with (s + 1) by (unfold s; lia).
    assert (0 < s) as Hs by (unfold s; lia).
    replace (s + 1 - 1) with s by lia.
    assert (Z.shiftr (2 * x) (s + 1) = Z.shiftr x s) as Hq.
    { rewrite !Z.shiftr_div_pow2 by lia. rewrite Z.pow_add_r by lia.
      change (2 ^ 1) with 2. rewrite (Z.mul_comm (2 ^ s) 2).
      apply Z.div_mul_cancel_l; [apply Z.pow_nonzero; lia | lia]. }
    rewrite Hq. set (q := Z.shiftr x s).
    assert (forall z, Z.shiftl z (s + 1) = 2 * Z.shiftl z s) as Hsh.
    { intros z. rewrite !Z.shiftl_mul_pow2 by lia. rewrite Z.pow_add_r by lia.
      change (2 ^ 1) with 2. lia. }
    rewrite !Hsh.
    assert (2 ^ s = 2 * 2 ^ (s - 1)) as Hhalf.
    { replace s with (s - 1 + 1) at 1 by lia. rewrite Z.pow_add_r by lia.
      change (2 ^ 1) with 2. lia. }
    rewrite Hhalf. set (r := x - Z.shiftl q s). set (half := 2 ^ (s - 1)).
    replace (2 * x - 2 * Z.shiftl q s) with (2 * r) by (unfold r; lia).
    replace (2 * r <? 2 * half) with (r <? half)
      by (destruct (r <? half) eqn:E; symmetry;
          [apply Z.ltb_lt; apply Z.ltb_lt in E | apply Z.ltb_ge; apply Z.ltb_ge in E]; lia).
    replace (2 * half <? 2 * r) with (half <? r)
      by (destruct (half <? r) eqn:E; symmetry;
          [apply Z.ltb_lt; apply Z.ltb_lt in E | apply Z.ltb_ge; apply Z.ltb_ge in E]; lia).
    reflexivity.
Qed.

Lemma round_scale x : F64.round (2 * x) = 2 * F64.round x.
Proof.
  unfold F64.round.
  replace (2 * x <? 0) with (x <? 0)
    by (destruct (x <? 0) eqn:E; symmetry;
        [apply Z.ltb_lt; apply Z.ltb_lt in E | apply Z.ltb_ge; apply Z.ltb_ge in E]; lia).
  destruct (x <? 0) eqn:E.
  - apply Z.ltb_lt in E. replace (- (2 * x)) with (2 * - x) by lia.
    rewrite rne_scale by lia. lia.
  - apply Z.ltb_ge in E. apply rne_scale. exact E.
Qed.

(** A sum of two amounts is the sum of [F64] of the doubles they are. *)
Lemma plus_in_halves x y :
  F64.add (F64.of_Z x) (F64.of_Z y) = F64.of_Z (Num.plus x y)
  /\ F64.sub (F64.of_Z x) (F64.of_Z y) = F64.of_Z (Num.minus x y).
Proof.
  unfold F64.add, F64.sub, F64.of_Z, Num.plus, Num.minus.
  rewrite <- !round_scale. split; f_equal; lia.
Qed.

(** Up to [2^53] in absolute value every integer is a double. *)
Lemma round_exact x : - 2 ^ 53 <= x <= 2 ^ 53 -> F64.round x = x.
Proof.
  intros Hx. unfold F64.round. destruct (x <? 0) eqn:E.
  - apply Z.ltb_lt in E. destruct (Z.eq_dec x (- 2 ^ 53)) as [->|Hne]; [reflexivity|].
    rewrite rne_small by lia. lia.
  - apply Z.ltb_ge in E. destruct (Z.eq_dec x (2 ^ 53)) as [->|Hne]; [reflexivity|].
    apply rne_small. lia.
Qed.

Lemma plus_exact x y : - 2 ^ 53 <= x + y <= 2 ^ 53 -> Num.plus x y = x + y.
Proof. apply round_exact. Qed.

Lemma minus_exact x y : - 2 ^ 53 <= x - y <= 2 ^ 53 -> Num.minus x y = x - y.
Proof. apply round_exact. Qed.

Lemma total_nonneg amounts : Forall (fun a => 0 <= a) amounts -> 0 <= total amounts.
Proof. induction 1 as [|a l Ha _ IH]; cbn [total fold_right]; [lia|]. fold (total l). lia. Qed.

Lemma total_app a b : total (a ++ b) = total a + total b.
Proof. unfold total. induction a as [|x a IH]; cbn [app fold_right]; lia. Qed.

Lemma sum_from_app start a b : sum_from start (a ++ b) = sum_from (sum_from start a) b.
Proof. apply fold_left_app. Qed.

Lemma less_each_app start a b : less_each start (a ++ b) = less_each (less_each start a) b.
Proof. apply fold_left_app. Qed.

(** While the sum stays within [2^53], it is exact. *)
Lemma sum_from_exact amounts : forall start,
  Forall (fun a => 0 <= a) amounts ->
  0 <= start -> start + total amounts <= 2 ^ 53 ->
  sum_from start amounts = start + total amounts.
Proof.
  induction amounts as [|a l IH]; intros start Hall H0 Hle.
  - cbn [sum_from fold_left total fold_right]. lia.
  - inversion Hall as [|? ? Ha Hl]; subst.
    pose proof (total_nonneg l Hl) as Ht.
    cbn [total fold_right] in *. fold (total l) in *.
    unfold sum_from. cbn [fold_left]. fold (sum_from (Num.plus start a) l).
    rewrite plus_exact by lia. rewrite IH; [lia | exact Hl | lia | lia].
Qed.


End AmountFacts.

(** * The wallet against the validator *)

(** What the validator needs of the wallet's key pair. *)
Class WalletLaws `{Crypto} : Prop := {
  wallet_key_hex : JS.hex_exact 66 wallet_publicKey = true;
  wallet_key_canonical : canonicalKey wallet_publicKey = true;
  wallet_sign_hex : forall msg, JS.hex_between 20 144 (wallet_sign msg) = true;
  wallet_sign_verifies : forall msg, verify wallet_publicKey msg (wallet_sign msg) = true
}.

Definition hash_a : string :=
  "aaaaaaaaaaaaaaaaaaaaaaaaaaaaaaaaaaaaaaaaaaaaaaaaaaaaaaaaaaaaaaaa".
Definition hash_b : string :=
  "bbbbbbbbbbbbbbbbbbbbbbbbbbbbbbbbbbbbbbbbbbbbbbbbbbbbbbbbbbbbbbbb".
Definition hash_c : string :=
  "cccccccccccccccccccccccccccccccccccccccccccccccccccccccccccccccc".

Definition utxo (h : string) (i : Z) (pk : string) (a : Z) : UTXO :=
  {| utxo_hash := h; utxo_index := i; utxo_publicKey := pk; utxo_amount := a |}.

Section WalletFacts.
Context `{WalletLaws}.

Lemma makeTx_change_one (recipient : string) :
  Wallet.makeTx 7 recipient [utxo hash_a 0 wallet_publicKey 10]
  = Return (Some {| inputs := [{| in_hash := hash_a; in_index := 0;
                                  signature := wallet_sign
                                    (sha256_tx [{| op_hash := hash_a; op_index := 0 |}]
                                       [{| publicKey := recipient; amount := 7 |}]) |}];
                    outputs := [{| publicKey := recipient; amount := 7 |}];
                    tx_hash := sha256_tx [{| op_hash := hash_a; op_index := 0 |}]
                                 [{| publicKey := recipient; amount := 7 |}] |}).
Proof.
  unfold Wallet.makeTx, utxo. cbn [filter utxo_publicKey].
  rewrite String.eqb_refl. reflexivity.
Qed.

(** C1 at [amountSent = 7] against one own UTXO of amount 10: the change is
    [10 - 7 - 1 - 1 = 1]; [makeTx] omits the change output and returns a
    transaction whose inputs exceed its outputs by 3, and [addTx] against
    the same UTXO set throws (for a valid recipient key, at the check of
    the net amount). *)
Theorem makeTx_change_one_is_rejected :
  forall (recipient : string) (btxs : list TxObject),
    let U := [utxo hash_a 0 wallet_publicKey 10] in
    exists tx,
      Wallet.makeTx 7 recipient U = Return (Some tx)
      /\ outputs tx = [{| publicKey := recipient; amount := 7 |}]
      /\ Txs.addTx (UserTx tx) (btxs, U)
         = (Throw (if negb (JS.hex_exact 66 recipient) then "Bad public key string"
                   else if negb (canonicalKey recipient) then "Bad public key"
                   else "Amounts do not net a 1/tx burn + 1/input fee")%string,
            (btxs, U)).
Proof.
  intros recipient btxs U. eexists. split; [apply makeTx_change_one|].
  split; [reflexivity|].
  unfold U, utxo, hash_a.
  cbv - [String.eqb JS.hex_exact canonicalKey wallet_publicKey wallet_sign sha256_tx
         Num.plus Num.minus].
  destruct (JS.hex_exact 66 recipient); [|reflexivity].
  destruct (canonicalKey recipient); reflexivity.
Qed.

Lemma makeTx_two_inputs (other : string) :
  let U := [utxo hash_a 0 wallet_publicKey 5; utxo hash_b 0 wallet_publicKey 5;
            utxo hash_c 0 other 9] in
  let ins := [{| op_hash := hash_a; op_index := 0 |}; {| op_hash := hash_b; op_index := 0 |}] in
  let outs := [{| publicKey := wallet_publicKey; amount := 5 |};
               {| publicKey := wallet_publicKey; amount := 2 |}] in
  Wallet.makeTx 5 wallet_publicKey U
  = Return (Some {| inputs := map (fun i => {| in_hash := op_hash i; in_index := op_index i;
                                               signature := wallet_sign (sha256_tx ins outs) |}) ins;
                    outputs := outs;
                    tx_hash := sha256_tx ins outs |}).
Proof.
  intros U ins outs. unfold U, Wallet.makeTx, utxo. cbn [filter utxo_publicKey].
  rewrite String.eqb_refl. destruct (String.eqb other wallet_publicKey); reflexivity.
Qed.

(** C2 at a transaction with two inputs, the first two of three UTXOs:
    [addTx] accepts it, and the UTXO set it leaves still holds the second
    spent UTXO and has lost the third, which the transaction does not
    refer to. *)
Theorem addTx_two_inputs_removes_unrelated_UTXO :
  forall (other : string) (btxs : list TxObject),
    let U := [utxo hash_a 0 wallet_publicKey 5; utxo hash_b 0 wallet_publicKey 5;
              utxo hash_c 0 other 9] in
    exists tx,
      Wallet.makeTx 5 wallet_publicKey U = Return (Some tx)
      /\ map outpoint_of (inputs tx)
         = [{| op_hash := hash_a; op_index := 0 |}; {| op_hash := hash_b; op_index := 0 |}]
      /\ Txs.addTx (UserTx tx) (btxs, U)
         = (Return true,
            (btxs ++ [UserTx tx],
             [utxo hash_b 0 wallet_publicKey 5;
              utxo (tx_hash tx) 0 wallet_publicKey 5;
              utxo (tx_hash tx) 1 wallet_publicKey 2])).
Proof.
  intros other btxs U. eexists. split; [apply makeTx_two_inputs|].
  split; [reflexivity|].
  unfold U, utxo.
  do 4 (cbv - [String.eqb JS.hex_exact JS.hex_between canonicalKey verify
               wallet_publicKey wallet_sign sha256_tx hash_a hash_b hash_c
               Num.plus Num.minus];
        repeat first
          [ rewrite String.eqb_refl | rewrite wallet_key_hex
          | rewrite wallet_key_canonical | rewrite wallet_sign_hex
          | rewrite wallet_sign_verifies
          | progress change (String.eqb hash_a hash_b) with false
          | progress change (JS.hex_exact 64 hash_a) with true
          | progress change (JS.hex_exact 64 hash_b) with true
          | progress change (Num.plus 0 5) with 5
          | progress change (Num.plus 5 5) with 10
          | progress change (Num.minus 10 5) with 5
          | progress change (Num.minus 5 2) with 3 ]).
  reflexivity.
Qed.

End WalletFacts.

(** * Eviction from the pool *)

Section EvictionFacts.

Definition spend (h : string) (sig : string) : Input :=
  {| in_hash := h; in_index := 0; signature := sig |}.

(** C4 at a pool of two entries, [tA] claiming [(hash_a, 0)] and [tB]
    claiming [(hash_b, 0)].  A block that spends [(hash_b, 0)] evicts
    [tB], but the claim released from [usedUTXOs] is the first of the
    array, [tA]'s, and [tB]'s stays.  When the block also spends
    [(hash_a, 0)], [tA] is therefore not found and stays in the pool. *)
Theorem removeBlockTxs_releases_first_claim :
  forall (sA sB sC sD : string) (outsA outsB outsC : list Output) (hA hB hC : string)
         (pkA pkB : string) (aA aB : Z) (cb : Coinbase) (t n : Z) (bh : string),
    let tA := {| inputs := [spend hash_a sA]; outputs := outsA; tx_hash := hA |} in
    let tB := {| inputs := [spend hash_b sB]; outputs := outsB; tx_hash := hB |} in
    let uA := utxo hash_a 0 pkA aA in
    let uB := utxo hash_b 0 pkB aB in
    let p := {| Pool.pool_txs := [tA; tB]; Pool.usedUTXOs := [uA; uB] |} in
    let block (ins : list Input) :=
      {| time := t;
         txs := [UserTx {| inputs := ins; outputs := outsC; tx_hash := hC |}; CoinbaseTx cb];
         nonce := n; block_hash := bh |} in
    Pool.removeBlockTxs (block [spend hash_b sC]) p
      = (Return tt, {| Pool.pool_txs := [tA]; Pool.usedUTXOs := [uB] |})
    /\ Pool.removeBlockTxs (block [spend hash_b sC; spend hash_a sD]) p
      = (Return tt, {| Pool.pool_txs := [tA]; Pool.usedUTXOs := [uB] |}).
Proof. intros. split; reflexivity. Qed.

End EvictionFacts.

(** * The difficulty of the all-zero hash *)

Section ZeroHash.

Definition zero_hash : string :=
  "0000000000000000000000000000000000000000000000000000000000000000".

(** C7 at the hash of 64 zero digits: it has 256 leading zero bits, and
    [blockDifficulty] returns -1, the result of [indexOf] when there is no
    ['1']. *)
Theorem blockDifficulty_of_zero_hash :
  forall (t : Z) (btxs : list TxObject) (n : Z),
    let block := {| time := t; txs := btxs; nonce := n; block_hash := zero_hash |} in
    JS.hex_exact 64 (block_hash block) = true
    /\ WorkSpec.leading_zero_bits (WorkSpec.hex_value (block_hash block)) = 256
    /\ Work.blockDifficulty block = -1.
Proof. intros. repeat split; vm_compute; reflexivity. Qed.

End ZeroHash.

(** * [blockDifficulty] on hashes that are not zero *)

Section LeadingZeros.

(** The four binary digits of one hexadecimal digit. *)
Definition nibble4 (c : ascii) : string :=
  JS.substr_last4 (String.append "0000" (JS.toString2 (JS.parseInt16 (Some c)))).

Fixpoint bits_of (s : string) : string :=
  match s with
  | EmptyString => EmptyString
  | String c r => String.append (nibble4 c) (bits_of r)
  end.

Definition digit (c : ascii) : Z :=
  match JS.parseInt16 (Some c) with Some v => v | None => 0 end.

Lemma append_assoc_string (a b c : string) :
  String.append (String.append a b) c = String.append a (String.append b c).
Proof. induction a as [|x a IH]; simpl; [reflexivity|]. now rewrite IH. Qed.

Lemma append_empty_r (a : string) : String.append a EmptyString = a.
Proof. induction a as [|x a IH]; simpl; [reflexivity|]. now rewrite IH. Qed.

Lemma nibble_bits_cons c r i : Work.nibble_bits (String c r) (S i) = Work.nibble_bits r i.
Proof. reflexivity. Qed.

Lemma binary_loop s : forall n acc,
  String.length s = n ->
  fold_left (fun binary i => String.append binary (Work.nibble_bits s i)) (seq 0 n) acc
  = String.append acc (bits_of s).
Proof.
  induction s as [|c r IH]; intros n acc Hn; simpl in Hn; subst n.
  - simpl. now rewrite append_empty_r.
  - cbn [seq fold_left bits_of]. rewrite <- seq_shift.
    rewrite <- (fold_left_map_arg
                  (fun binary i => String.append binary (Work.nibble_bits (String c r) i)) S).
    rewrite (fold_left_pointwise _
               (fun binary i => String.append binary (Work.nibble_bits r i)))
      by (intros; apply f_equal, nibble_bits_cons).
    rewrite IH by reflexivity. apply append_assoc_string.
Qed.

Lemma binary_of_hex hash :
  String.length hash = 64%nat -> Work.binary_of hash = bits_of hash.
Proof. intros Hl. unfold Work.binary_of. now rewrite binary_loop. Qed.

Lemma indexOf_append c a b :
  JS.indexOf c (String.append a b) =
  if JS.indexOf c a <? 0
  then (if JS.indexOf c b <? 0 then -1 else Z.of_nat (String.length a) + JS.indexOf c b)
  else JS.indexOf c a.
Proof.
  induction a as [|x a IH].
  - cbn [String.append JS.indexOf String.length]. change (-1 <? 0) with true. cbv iota.
    pose proof (indexOf_ge c b). destruct (JS.indexOf c b <? 0) eqn:E; [|lia].
    apply Z.ltb_lt in E. lia.
  - cbn [String.append JS.indexOf String.length]. destruct (Ascii.eqb x c); [reflexivity|].
    cbv zeta. rewrite IH. pose proof (indexOf_ge c a). pose proof (indexOf_ge c b).
    destruct (JS.indexOf c a <? 0) eqn:Ea; [destruct (JS.indexOf c b <? 0) eqn:Eb|].
    + reflexivity.
    + apply Z.ltb_ge in Eb.
      replace (Z.of_nat (String.length a) + JS.indexOf c b <? 0) with false
        by (symmetry; apply Z.ltb_ge; lia).
      change (-1 <? 0) with true. cbv iota. lia.
    + rewrite Ea. apply Z.ltb_ge in Ea.
      replace (1 + JS.indexOf c a <? 0) with false by (symmetry; apply Z.ltb_ge; lia).
      reflexivity.
Qed.

(** The digits, one by one. *)
Lemma nibble4_lower_hex c :
  JS.is_lower_hex c = true ->
  0 <= digit c < 16
  /\ String.length (nibble4 c) = 4%nat
  /\ JS.indexOf "1" (nibble4 c) = (if digit c =? 0 then -1 else 3 - Z.log2 (digit c)).
Proof.
  destruct c as [[] [] [] [] [] [] [] []]; intros Hc;
    try discriminate Hc; vm_compute; intuition discriminate.
Qed.

Lemma hex_value_cons c r :
  WorkSpec.hex_value (String c r)
  = digit c * 16 ^ Z.of_nat (String.length r) + WorkSpec.hex_value r.
Proof.
  unfold WorkSpec.hex_value. cbn [String.length]. fold (digit c).
  rewrite Z.mul_0_r, Z.add_0_l.
  generalize (digit c). induction r as [|x r IH]; intros acc.
  - simpl. lia.
  - cbn [String.length]. fold (digit x). rewrite Nat2Z.inj_succ, Z.pow_succ_r by lia.
    rewrite IH. rewrite (IH (16 * 0 + digit x)). lia.
Qed.

Lemma hex_value_bounds s :
  JS.all_chars JS.is_lower_hex s = true ->
  0 <= WorkSpec.hex_value s < 16 ^ Z.of_nat (String.length s).
Proof.
  induction s as [|c r IH]; intros Hs.
  - vm_compute. intuition discriminate.
  - cbn [JS.all_chars] in Hs. apply andb_prop in Hs. destruct Hs as [Hc Hr].
    rewrite hex_value_cons. cbn [String.length].
    rewrite Nat2Z.inj_succ, Z.pow_succ_r by lia.
    destruct (nibble4_lower_hex c Hc) as [Hd _]. specialize (IH Hr). nia.
Qed.

Lemma log2_shifted v k w :
  0 < v -> 0 <= k -> 0 <= w < 2 ^ k -> Z.log2 (v * 2 ^ k + w) = Z.log2 v + k.
Proof.
  intros Hv Hk Hw. apply Z.log2_unique.
  - pose proof (Z.log2_nonneg v). lia.
  - pose proof (Z.log2_spec v Hv) as [Hlo Hhi].
    rewrite Z.pow_add_r by (try apply Z.log2_nonneg; lia).
    replace (Z.succ (Z.log2 v + k)) with (Z.succ (Z.log2 v) + k) by lia.
    rewrite Z.pow_add_r by (pose proof (Z.log2_nonneg v); lia).
    assert (0 < 2 ^ k) by (apply Z.pow_pos_nonneg; lia). nia.
Qed.

Lemma indexOf_bits s :
  JS.all_chars JS.is_lower_hex s = true ->
  JS.indexOf "1" (bits_of s) =
  if WorkSpec.hex_value s =? 0 then -1
  else 4 * Z.of_nat (String.length s) - 1 - Z.log2 (WorkSpec.hex_value s).
Proof.
  induction s as [|c r IH]; intros Hs; [reflexivity|].
  cbn [JS.all_chars] in Hs. apply andb_prop in Hs. destruct Hs as [Hc Hr].
  specialize (IH Hr). pose proof (hex_value_bounds r Hr) as Hw.
  destruct (nibble4_lower_hex c Hc) as (Hd & Hl & Hi).
  cbn [bits_of String.length]. rewrite indexOf_append, Hi, Hl, IH, hex_value_cons.
  set (m := Z.of_nat (String.length r)) in *.
  set (w := WorkSpec.hex_value r) in *.
  rewrite Nat2Z.inj_succ. fold m.
  assert (16 ^ m = 2 ^ (4 * m)) as H16.
  { change 16 with (2 ^ 4). rewrite <- Z.pow_mul_r by lia. reflexivity. }
  assert (0 <= m) as Hm by (unfold m; lia).
  destruct (digit c =? 0) eqn:Ed.
  - apply Z.eqb_eq in Ed. rewrite Ed. change (-1 <? 0) with true. cbv iota.
    rewrite Z.mul_0_l, Z.add_0_l.
    destruct (w =? 0) eqn:Ew; [reflexivity|].
    apply Z.eqb_neq in Ew.
    assert (Z.log2 w < 4 * m) as Hlog by (apply Z.log2_lt_pow2; lia).
    replace (4 * m - 1 - Z.log2 w <? 0) with false by (symmetry; apply Z.ltb_ge; lia).
    change (Z.of_nat 4) with 4. lia.
  - apply Z.eqb_neq in Ed.
    assert (0 <= Z.log2 (digit c) < 4) as Hlg.
    { split; [apply Z.log2_nonneg|]. apply Z.log2_lt_pow2; [lia|]. change (2 ^ 4) with 16. lia. }
    replace (3 - Z.log2 (digit c) <? 0) with false by (symmetry; apply Z.ltb_ge; lia).
    rewrite H16 in *. rewrite log2_shifted by lia.
    assert (0 < 2 ^ (4 * m)) by (apply Z.pow_pos_nonneg; lia).
    replace (digit c * 2 ^ (4 * m) + w =? 0) with false by (symmetry; apply Z.eqb_neq; nia).
    lia.
Qed.

Lemma testbit_top k v :
  0 <= v < 2 ^ (Z.of_nat (S k)) ->
  Z.testbit v (Z.of_nat k) = (2 ^ Z.of_nat k <=? v).
Proof.
  intros Hv. rewrite Nat2Z.inj_succ, Z.pow_succ_r in Hv by lia.
  assert (0 < 2 ^ Z.of_nat k) as Hpos by (apply Z.pow_pos_nonneg; lia).
  rewrite Z.testbit_eqb by lia.
  destruct (2 ^ Z.of_nat k <=? v) eqn:E.
  - apply Z.leb_le in E.
    replace (v / 2 ^ Z.of_nat k) with 1; [reflexivity|].
    apply Z.div_unique with (r := v - 2 ^ Z.of_nat k); lia.
  - apply Z.leb_gt in E. rewrite Z.div_small by lia. reflexivity.
Qed.

Lemma leading_zeros_log2 width : forall v,
  0 <= v < 2 ^ Z.of_nat width ->
  WorkSpec.leading_zeros width v
  = if v =? 0 then Z.of_nat width else Z.of_nat width - 1 - Z.log2 v.
Proof.
  induction width as [|k IH]; intros v Hv.
  - change (2 ^ Z.of_nat 0) with 1 in Hv. replace v with 0 by lia. reflexivity.
  - cbn [WorkSpec.leading_zeros]. rewrite testbit_top by exact Hv.
    assert (0 < 2 ^ Z.of_nat k) as Hpos by (apply Z.pow_pos_nonneg; lia).
    destruct (2 ^ Z.of_nat k <=? v) eqn:E.
    + apply Z.leb_le in E.
      replace (v =? 0) with false by (symmetry; apply Z.eqb_neq; lia).
      rewrite Nat2Z.inj_succ in Hv.
      rewrite (Z.log2_unique v (Z.of_nat k)) by lia. lia.
    + apply Z.leb_gt in E. rewrite IH by lia.
      destruct (v =? 0); lia.
Qed.

(** X1: for every hash of 64 lowercase hexadecimal digits other than the
    all-zero one, [blockDifficulty] is the number of leading zero bits of
    the 256-bit value. *)
Theorem blockDifficulty_counts_leading_zero_bits :
  forall block : Block,
    JS.hex_exact 64 (block_hash block) = true ->
    WorkSpec.hex_value (block_hash block) <> 0 ->
    Work.blockDifficulty block
    = WorkSpec.leading_zero_bits (WorkSpec.hex_value (block_hash block)).
Proof.
  intros block Hhex Hnz. unfold JS.hex_exact in Hhex.
  apply andb_prop in Hhex. destruct Hhex as [Hlen Hchars].
  apply Nat.eqb_eq in Hlen.
  unfold Work.blockDifficulty. rewrite binary_of_hex by exact Hlen.
  rewrite indexOf_bits by exact Hchars. rewrite Hlen.
  pose proof (hex_value_bounds _ Hchars) as Hb. rewrite Hlen in Hb.
  unfold WorkSpec.leading_zero_bits.
  rewrite leading_zeros_log2
    by (change (Z.of_nat 256) with (4 * Z.of_nat 64);
        rewrite Z.pow_mul_r by lia; exact Hb).
  replace (WorkSpec.hex_value (block_hash block) =? 0) with false
    by (symmetry; apply Z.eqb_neq; exact Hnz).
  reflexivity.
Qed.

End LeadingZeros.

(** * Transactions of the wallet that the validator accepts *)

Section WalletAccepted.
Context `{WalletLaws}.

Definition key_of (u : UTXO) : string * Z := (utxo_hash u, utxo_index u).

Definition own (u : UTXO) : bool := String.eqb (utxo_publicKey u) wallet_publicKey.

Definition outpoint_of_utxo (u : UTXO) : OutPoint :=
  {| op_hash := utxo_hash u; op_index := utxo_index u |}.

Definition to_input (sig : string) (u : UTXO) : Input :=
  {| in_hash := utxo_hash u; in_index := utxo_index u; signature := sig |}.

Definition amount_sum (us : list UTXO) : Z :=
  fold_right (fun u acc => utxo_amount u + acc) 0 us.

Definition amounts (us : list UTXO) : list Z := map utxo_amount us.

(** [amountChange] of [makeTx]. *)
Definition amountChange (amountSent : Z) (UTXOs : list UTXO) : Z :=
  let '(ins, amountInput) := Wallet.gather amountSent (filter own UTXOs) ([], 0) in
  Num.minus (Num.minus (Num.minus amountInput amountSent) 1) (Z.of_nat (List.length ins)).

(** What [makeTx] compares [amountInput] with: [amountSent + 1 + n]. *)
Definition needed (amountSent : Z) (n : nat) : Z :=
  Num.plus (Num.plus amountSent 1) (Z.of_nat n).

(** The amounts of the wallet's own entries, and what is sent with the burn
    and the fees, stay where every integer is a double. *)
Definition in_exact_range (amountSent : Z) (UTXOs : list UTXO) : Prop :=
  Forall (fun u => 0 <= utxo_amount u) (filter own UTXOs)
  /\ amount_sum (filter own UTXOs) <= 2 ^ 53
  /\ amountSent + 1 + Z.of_nat (List.length (filter own UTXOs)) <= 2 ^ 53.

(** The UTXO set is keyed by (hash, index), and the wallet's entries refer
    to outputs as the validator expects them. *)
Definition well_formed (UTXOs : list UTXO) : Prop :=
  NoDup (map key_of UTXOs)
  /\ Forall (fun u => own u = true ->
                      JS.hex_exact 64 (utxo_hash u) = true
                      /\ (utxo_index u = 0 \/ utxo_index u = 1)) UTXOs.

Lemma amount_sum_total us : amount_sum us = total (amounts us).
Proof.
  induction us as [|u us IH]; [reflexivity|].
  cbn [amount_sum amounts map total fold_right]. fold (amount_sum us). fold (amounts us).
  fold (total (amounts us)). rewrite IH. reflexivity.
Qed.

Lemma gather_spec amountSent us : forall ins amt,
  exists chosen rest,
    us = chosen ++ rest
    /\ Wallet.gather amountSent us (ins, amt)
       = (ins ++ map outpoint_of_utxo chosen, sum_from amt (amounts chosen)).
Proof.
  induction us as [|u us IH]; intros ins amt.
  - exists [], []. simpl. rewrite app_nil_r. auto.
  - cbn [Wallet.gather fst snd].
    destruct (Num.plus amt (utxo_amount u) >=?
              Num.plus (Num.plus amountSent 1)
                (Z.of_nat (List.length (ins ++ [{| op_hash := utxo_hash u; op_index := utxo_index u |}])))).
    + exists [u], us. simpl. auto.
    + destruct (IH (ins ++ [{| op_hash := utxo_hash u; op_index := utxo_index u |}])
                  (Num.plus amt (utxo_amount u))) as (chosen & rest & -> & E).
      exists (u :: chosen), rest. rewrite E. simpl.
      rewrite <- app_assoc. split; reflexivity.
Qed.

Lemma makeTx_spec amountSent recipient U tx :
  Wallet.makeTx amountSent recipient U = Return (Some tx) ->
  exists chosen rest,
    filter own U = chosen ++ rest
    /\ amountChange amountSent U
       = Num.minus (Num.minus (Num.minus (sum_from 0 (amounts chosen)) amountSent) 1)
           (Z.of_nat (List.length chosen))
    /\ 2 < amountSent
    /\ needed amountSent (List.length chosen) <= sum_from 0 (amounts chosen)
    /\ let outs :=
         {| publicKey := recipient; amount := amountSent |}
         :: (if amountChange amountSent U >? 1
             then [{| publicKey := wallet_publicKey; amount := amountChange amountSent U |}]
             else []) in
       let h := sha256_tx (map outpoint_of_utxo chosen) outs in
       tx = {| inputs := map (to_input (wallet_sign h)) chosen; outputs := outs; tx_hash := h |}.
Proof.
  unfold Wallet.makeTx, amountChange, needed. fold own.
  destruct (amountSent <=? 2) eqn:Ea; [discriminate|]. apply Z.leb_gt in Ea.
  destruct (gather_spec amountSent (filter own U) [] 0) as (chosen & rest & Hsplit & Hg).
  rewrite Hg. cbn [app]. rewrite length_map.
  destruct (sum_from 0 (amounts chosen)
            <? Num.plus (Num.plus amountSent 1) (Z.of_nat (List.length chosen))) eqn:Eb;
    [discriminate|]. apply Z.ltb_ge in Eb.
  intros E. inversion E as [Etx]. clear E.
  exists chosen, rest. repeat split; try assumption; try lia.
  cbv zeta.
  destruct (Num.minus (Num.minus (Num.minus (sum_from 0 (amounts chosen)) amountSent) 1)
              (Z.of_nat (List.length chosen)) >? 1);
    cbn [app]; rewrite map_map; reflexivity.
Qed.

(** Within the exact range, what [makeTx] computes is what the integers
    give. *)
Lemma makeTx_exact amountSent U chosen rest :
  in_exact_range amountSent U ->
  filter own U = chosen ++ rest ->
  2 < amountSent ->
  sum_from 0 (amounts chosen) = amount_sum chosen
  /\ 0 <= amount_sum chosen <= 2 ^ 53
  /\ needed amountSent (List.length chosen) = amountSent + 1 + Z.of_nat (List.length chosen)
  /\ (amountSent + 1 + Z.of_nat (List.length chosen) <= amount_sum chosen ->
      Num.minus (Num.minus (Num.minus (amount_sum chosen) amountSent) 1)
        (Z.of_nat (List.length chosen))
      = amount_sum chosen - amountSent - 1 - Z.of_nat (List.length chosen)).
Proof.
  intros (Hpos & Hsum & Hsent) Hsplit Ha.
  rewrite Hsplit in Hpos, Hsum, Hsent.
  apply Forall_app in Hpos. destruct Hpos as [Hc Hr].
  assert (Forall (fun a => 0 <= a) (amounts chosen)) as Hc'
    by (unfold amounts; apply Forall_map; exact Hc).
  assert (Forall (fun a => 0 <= a) (amounts rest)) as Hr'
    by (unfold amounts; apply Forall_map; exact Hr).
  pose proof (total_nonneg _ Hc') as Hct. pose proof (total_nonneg _ Hr') as Hrt.
  rewrite !amount_sum_total in *. unfold amounts in Hsum. rewrite map_app in Hsum.
  fold (amounts chosen) in Hsum. fold (amounts rest) in Hsum. rewrite total_app in Hsum.
  rewrite length_app, Nat2Z.inj_add in Hsent.
  repeat split; try lia.
  - rewrite sum_from_exact; [lia | exact Hc' | lia | lia].
  - unfold needed. rewrite (plus_exact amountSent 1) by lia. apply plus_exact. lia.
  - intros Hcover. rewrite (minus_exact (total (amounts chosen)) amountSent) by lia.
    rewrite (minus_exact (total (amounts chosen) - amountSent) 1) by lia.
    apply minus_exact. lia.
Qed.

Lemma refers_to_self u : Txs.refers_to (utxo_hash u) (utxo_index u) u = true.
Proof. unfold Txs.refers_to. now rewrite String.eqb_refl, Z.eqb_refl. Qed.

(** In a set keyed by (hash, index), looking an entry up by its key finds
    that entry. *)
Lemma findIndex_position U u :
  NoDup (map key_of U) -> In u U ->
  exists i, JS.findIndex (Txs.refers_to (utxo_hash u) (utxo_index u)) U = Some i
            /\ nth_error U i = Some u.
Proof.
  induction U as [|x U IH]; intros Hnd Hin; [inversion Hin|].
  inversion Hnd as [|? ? Hnotin Hnd']; subst.
  cbn [JS.findIndex].
  destruct (Txs.refers_to (utxo_hash u) (utxo_index u) x) eqn:E.
  - exists O. split; [reflexivity|]. destruct Hin as [->|Hin]; [reflexivity|].
    exfalso. apply Hnotin. apply refers_to_eq in E. destruct E as [Eh Ei].
    replace (key_of x) with (key_of u) by (unfold key_of; now rewrite Eh, Ei).
    apply in_map. exact Hin.
  - destruct Hin as [->|Hin]; [rewrite refers_to_self in E; discriminate E|].
    destruct (IH Hnd' Hin) as (i & Hi & Hn). exists (S i). rewrite Hi. auto.
Qed.

Lemma validate_inputs_run sig btxs U chosen : forall vin idxs net,
  NoDup (map key_of U) -> NoDup chosen ->
  (forall u, In u chosen ->
     In u U /\ JS.hex_exact 64 (utxo_hash u) = true
     /\ (utxo_index u = 0 \/ utxo_index u = 1)) ->
  (forall i, In i idxs -> exists u, nth_error U i = Some u /\ ~ In u chosen) ->
  exists pos,
    Forall2 (fun u i => nth_error U i = Some u) chosen pos
    /\ Txs.validate_inputs (map (to_input sig) chosen) (vin, idxs, net) (btxs, U)
       = (Return (vin ++ map outpoint_of_utxo chosen, idxs ++ pos,
                  sum_from net (amounts chosen)),
          (btxs, U)).
Proof.
  induction chosen as [|u chosen IH]; intros vin idxs net HndU Hnd Hok Hidx.
  - exists []. split; [constructor|]. simpl. now rewrite !app_nil_r.
  - inversion Hnd as [|? ? Hfresh Hnd']; subst.
    destruct (Hok u (or_introl eq_refl)) as (HinU & Hhex & Hindex).
    destruct (findIndex_position U u HndU HinU) as (i & Hfind & Hnth).
    assert (JS.includes i idxs = false) as Hnew.
    { destruct (JS.includes i idxs) eqn:E; [|reflexivity]. exfalso.
      unfold JS.includes in E. apply existsb_exists in E. destruct E as (j & Hj & Eij).
      apply Nat.eqb_eq in Eij. subst j.
      destruct (Hidx i Hj) as (u' & Hu' & Hnot).
      rewrite Hnth in Hu'. inversion Hu'; subst u'. apply Hnot. left. reflexivity. }
    destruct (IH (vin ++ [outpoint_of_utxo u]) (idxs ++ [i]) (Num.plus net (utxo_amount u))
                HndU Hnd') as (pos & Hpos & Hrun).
    { intros u' Hu'. apply Hok. right. exact Hu'. }
    { intros j Hj. apply in_app_or in Hj. destruct Hj as [Hj|[<-|[]]].
      - destruct (Hidx j Hj) as (u' & Hu' & Hnot). exists u'. split; [exact Hu'|].
        intros Hin. apply Hnot. right. exact Hin.
      - exists u. split; [exact Hnth | exact Hfresh]. }
    exists (i :: pos). split; [constructor; assumption|].
    cbn [map Txs.validate_inputs to_input in_hash in_index].
    rewrite Hhex. cbn [negb].
    replace (negb (JS.isSafeInteger (utxo_index u)) || (utxo_index u <? 0)
             || (utxo_index u >? 1)) with false
      by (destruct Hindex as [-> | ->]; reflexivity).
    unfold bind at 1, get at 1. cbn [snd]. rewrite Hfind, Hnew, Hnth.
    fold (outpoint_of_utxo u). fold (to_input sig). rewrite Hrun.
    rewrite <- !app_assoc. reflexivity.
Qed.

Definition acceptable_output (o : Output) : Prop :=
  JS.hex_exact 66 (publicKey o) = true /\ canonicalKey (publicKey o) = true
  /\ JS.isSafeInteger (amount o) = true /\ 2 <= amount o.


Lemma validate_outputs_run s outs : forall vout net,
  Forall acceptable_output outs ->
  Txs.validate_outputs outs (vout, net) s
  = (Return (vout ++ outs, less_each net (map amount outs)), s).
Proof.
  induction outs as [|o outs IH]; intros vout net Hok.
  - simpl. now rewrite app_nil_r.
  - inversion Hok as [|? ? (Hhex & Hcan & Hsafe & Hge) Hok']; subst.
    cbn [Txs.validate_outputs]. rewrite Hhex, Hcan, Hsafe. cbn [negb orb].
    replace (amount o <? 2) with false by (symmetry; apply Z.ltb_ge; exact Hge).
    rewrite IH by exact Hok'.
    rewrite <- app_assoc. destruct o. reflexivity.
Qed.

Lemma validate_signatures_run h btxs U chosen : forall pos,
  Forall2 (fun u i => nth_error U i = Some u) chosen pos ->
  (forall u, In u chosen -> utxo_publicKey u = wallet_publicKey) ->
  Txs.validate_signatures h (map (to_input (wallet_sign h)) chosen) pos
    (map outpoint_of_utxo chosen) (btxs, U)
  = (Return (map (to_input (wallet_sign h)) chosen), (btxs, U)).
Proof.
  induction chosen as [|u chosen IH]; intros pos Hpos Hown.
  - reflexivity.
  - inversion Hpos as [|? i ? pos' Hnth Hpos']; subst.
    cbn [map Txs.validate_signatures to_input signature].
    rewrite wallet_sign_hex. cbn [negb].
    unfold bind at 1, get at 1. cbn [snd]. rewrite Hnth.
    rewrite (Hown u (or_introl eq_refl)), wallet_sign_verifies. cbn [negb].
    unfold bind at 1. fold (to_input (wallet_sign h)).
    rewrite IH; [reflexivity | exact Hpos' |].
    intros u' Hu'. apply Hown. right. exact Hu'.
Qed.

(** X2: while the amounts stay where every integer is a double (the
    wallet's own amounts are not negative and sum to [2^53] at most, and so
    does [amountSent + 1] plus the number of own entries), what [makeTx]
    returns is accepted by [addTx] against the same UTXO set unless the
    change is 1, in which case [addTx] throws at the check of the net
    amount: the UTXO set is keyed by (hash, index), the wallet's own
    entries carry a 64-digit hash and an index 0 or 1, the recipient's key
    is canonical, and the output amounts are safe integers. *)
Theorem makeTx_validates_unless_change_is_one :
  forall (amountSent : Z) (recipient : string) (U : list UTXO) (tx : Tx)
         (btxs : list TxObject),
    well_formed U ->
    in_exact_range amountSent U ->
    JS.hex_exact 66 recipient = true -> canonicalKey recipient = true ->
    Wallet.makeTx amountSent recipient U = Return (Some tx) ->
    Forall (fun o => JS.isSafeInteger (amount o) = true) (outputs tx) ->
    fst (Txs.addTx (UserTx tx) (btxs, U))
    = if amountChange amountSent U =? 1
      then Throw "Amounts do not net a 1/tx burn + 1/input fee"
      else Return true.
Proof.
  intros amountSent recipient U tx btxs [HndU Hwf] Hrange Hrhex Hrcan Hmake Hsafe.
  destruct (makeTx_spec _ _ _ _ Hmake) as (chosen & rest & Hsplit & Hchange & Hsent & Hcover & Htx).
  destruct (makeTx_exact _ _ _ _ Hrange Hsplit Hsent) as (Hin_exact & Hbound & Hneeded & Hout_exact).
  rewrite Hin_exact, Hneeded in Hcover. rewrite Hin_exact, (Hout_exact Hcover) in Hchange.
  cbv zeta in Htx.
  set (change := amountChange amountSent U) in *.
  set (outs := {| publicKey := recipient; amount := amountSent |}
               :: (if change >? 1
                   then [{| publicKey := wallet_publicKey; amount := change |}] else [])) in *.
  set (h := sha256_tx (map outpoint_of_utxo chosen) outs) in *.
  assert (forall u, In u chosen -> In u U /\ own u = true) as Hmember.
  { intros u Hu. apply filter_In. rewrite Hsplit. apply in_or_app. left. exact Hu. }
  assert (NoDup chosen) as Hnd.
  { apply NoDup_app_remove_r with (l' := rest). rewrite <- Hsplit.
    apply NoDup_filter. apply NoDup_map_inv with (f := key_of). exact HndU. }
  assert (forall u, In u chosen ->
            In u U /\ JS.hex_exact 64 (utxo_hash u) = true
            /\ (utxo_index u = 0 \/ utxo_index u = 1)) as Hok.
  { intros u Hu. destruct (Hmember u Hu) as [HinU Hown]. split; [exact HinU|].
    rewrite Forall_forall in Hwf. apply Hwf; assumption. }
  assert (chosen <> []) as Hne.
  { intros ->. simpl in Hcover. lia. }
  destruct (validate_inputs_run (wallet_sign h) btxs U chosen [] [] 0 HndU Hnd Hok)
    as (pos & Hpos & Hin); [intros i []|].
  assert (Forall acceptable_output outs) as Houts.
  { subst tx. cbn [outputs] in Hsafe. inversion Hsafe as [|? ? Hs1 Hs2]; subst.
    unfold outs. constructor.
    - repeat split; try assumption. cbn [amount]. lia.
    - destruct (change >? 1) eqn:Ec; [|constructor].
      inversion Hs2 as [|? ? Hs3 _]; subst. constructor; [|constructor].
      repeat split; cbn [publicKey amount];
        [apply wallet_key_hex | apply wallet_key_canonical | exact Hs3 |].
      rewrite Z.gtb_ltb in Ec. apply Z.ltb_lt in Ec. lia. }
  subst tx. cbn [Txs.addTx inputs outputs tx_hash].
  rewrite length_map.
  replace (List.length chosen <? 1)%nat with false
    by (symmetry; apply Nat.ltb_ge; destruct chosen; [congruence | simpl; lia]).
  replace ((List.length outs <? 1) || (2 <? List.length outs))%nat with false
    by (unfold outs; destruct (change >? 1); reflexivity).
  unfold bind at 1. rewrite Hin. cbn [app].
  unfold bind at 1. rewrite validate_outputs_run by exact Houts. cbn [app].
  rewrite Hin_exact.
  assert (less_each (amount_sum chosen) (map amount outs)
          = amount_sum chosen - amountSent - (if change >? 1 then change else 0)) as Hsum.
  { unfold outs, less_each. destruct (change >? 1) eqn:Ec; cbn [map fold_left amount].
    - rewrite Z.gtb_ltb in Ec. apply Z.ltb_lt in Ec.
      rewrite (minus_exact (amount_sum chosen) amountSent) by lia. apply minus_exact. lia.
    - rewrite (minus_exact (amount_sum chosen) amountSent) by lia. lia. }
  rewrite Hsum.
  destruct (change =? 1) eqn:E1.
  - apply Z.eqb_eq in E1. rewrite E1 in *. change (1 >? 1) with false. cbv iota.
    replace (amount_sum chosen - amountSent - 0 =? 1 + Z.of_nat (List.length chosen))
      with false by (symmetry; apply Z.eqb_neq; lia).
    reflexivity.
  - apply Z.eqb_neq in E1.
    replace (amount_sum chosen - amountSent - (if change >? 1 then change else 0)
             =? 1 + Z.of_nat (List.length chosen)) with true.
    2:{ symmetry. apply Z.eqb_eq. destruct (change >? 1) eqn:Ec; [lia|].
        rewrite Z.gtb_ltb in Ec. apply Z.ltb_ge in Ec. lia. }
    cbn [negb]. fold h. rewrite String.eqb_refl. cbn [negb].
    unfold bind at 1.
    rewrite validate_signatures_run; [reflexivity | exact Hpos |].
    intros u Hu. destruct (Hmember u Hu) as [_ Hown]. apply String.eqb_eq. exact Hown.
Qed.

End WalletAccepted.

(** * The model on concrete inputs *)

Section ToyFacts.

Lemma hex_digit_lower v : 0 <= v < 16 -> JS.is_lower_hex (Toy.hex_digit v) = true.
Proof.
  intros Hv.
  assert (v = 0 \/ v = 1 \/ v = 2 \/ v = 3 \/ v = 4 \/ v = 5 \/ v = 6 \/ v = 7 \/
          v = 8 \/ v = 9 \/ v = 10 \/ v = 11 \/ v = 12 \/ v = 13 \/ v = 14 \/ v = 15)
    as Hcases by lia.
  repeat (destruct Hcases as [->|Hcases]; [reflexivity|]). subst v. reflexivity.
Qed.

Lemma hex_of_chars n z : JS.all_chars JS.is_lower_hex (Toy.hex_of n z) = true.
Proof.
  induction n as [|n IH]; [reflexivity|].
  cbn [Toy.hex_of JS.all_chars]. rewrite IH, hex_digit_lower; [reflexivity|].
  apply Z.mod_pos_bound. lia.
Qed.

Lemma hex_of_length n z : String.length (Toy.hex_of n z) = n.
Proof. induction n as [|n IH]; [reflexivity|]. cbn [Toy.hex_of String.length]. now rewrite IH. Qed.

#[export] Instance toy_wallet_laws : @WalletLaws Toy.crypto.
Proof.
  split.
  - vm_compute. reflexivity.
  - vm_compute. reflexivity.
  - intros msg. unfold JS.hex_between. cbn [wallet_sign Toy.crypto]. unfold Toy.sign.
    rewrite hex_of_length, hex_of_chars. reflexivity.
  - intros msg. cbn [verify wallet_publicKey wallet_sign Toy.crypto].
    rewrite !String.eqb_refl. reflexivity.
Qed.

End ToyFacts.

(** * What the validator accepts *)

Section ValidatorSoundness.
Context `{Crypto}.

(** [UTXOs[i].amount], summed over the positions [idxs]. *)
Definition spent_sum (UTXOs : list UTXO) (idxs : list nat) : Z :=
  fold_right (fun i acc =>
                match nth_error UTXOs i with
                | Some u => utxo_amount u + acc
                | None => acc
                end) 0 idxs.

(** The amounts [UTXOs[i].amount] at the positions [idxs], in their order. *)
Definition spent_amounts (UTXOs : list UTXO) (idxs : list nat) : list Z :=
  flat_map (fun i => match nth_error UTXOs i with
                     | Some u => [utxo_amount u]
                     | None => []
                     end) idxs.

(** [net] of [addTx] after its two loops: the amounts at [idxs] added to 0
    one after the other, then the amounts of [outs] subtracted one after the
    other, each operation rounding as a double does. *)
Definition net_of (UTXOs : list UTXO) (idxs : list nat) (outs : list Output) : Z :=
  less_each (sum_from 0 (spent_amounts UTXOs idxs)) (map amount outs).

(** The input [input] of a transaction of hash [h] spends the UTXO at
    position [i]: its hash and index are well formed, [i] is the first
    position of the set with that hash and index, and its signature is a
    signature of [h] that verifies under the public key found there. *)
Definition spends_at (UTXOs : list UTXO) (h : string) (input : Input) (i : nat) : Prop :=
  JS.findIndex (Txs.refers_to (in_hash input) (in_index input)) UTXOs = Some i
  /\ JS.hex_exact 64 (in_hash input) = true
  /\ (in_index input = 0 \/ in_index input = 1)
  /\ JS.hex_between 20 144 (signature input) = true
  /\ exists u,
       nth_error UTXOs i = Some u
       /\ verify (utxo_publicKey u) h (signature input) = true.

Lemma spent_sum_app U a b : spent_sum U (a ++ b) = spent_sum U a + spent_sum U b.
Proof.
  unfold spent_sum. induction a as [|i a IH]; cbn [app fold_right]; [lia|].
  rewrite IH. destruct (nth_error U i); lia.
Qed.

Lemma spent_amounts_app U a b :
  spent_amounts U (a ++ b) = spent_amounts U a ++ spent_amounts U b.
Proof. apply flat_map_app. Qed.




Lemma includes_false i l : JS.includes i l = false -> ~ In i l.
Proof.
  unfold JS.includes. intros E Hin.
  assert (existsb (Nat.eqb i) l = true) as Ht.
  { apply existsb_exists. exists i. split; [exact Hin | apply Nat.eqb_refl]. }
  congruence.
Qed.

Lemma index_zero_or_one z :
  negb (JS.isSafeInteger z) || (z <? 0) || (z >? 1) = false -> z = 0 \/ z = 1.
Proof.
  intros E. apply orb_false_elim in E. destruct E as [E E1].
  apply orb_false_elim in E. destruct E as [_ E0].
  apply Z.ltb_ge in E0. rewrite Z.gtb_ltb in E1. apply Z.ltb_ge in E1. lia.
Qed.

Lemma validate_inputs_sound ins : forall vin idxs net s vin' idxs' net' s',
  Txs.validate_inputs ins (vin, idxs, net) s = (Return (vin', idxs', net'), s') ->
  NoDup idxs ->
  exists pos,
    idxs' = idxs ++ pos /\ NoDup idxs'
    /\ net' = sum_from net (spent_amounts (snd s) pos)
    /\ Forall2 (fun input i =>
         JS.findIndex (Txs.refers_to (in_hash input) (in_index input)) (snd s) = Some i
         /\ JS.hex_exact 64 (in_hash input) = true
         /\ (in_index input = 0 \/ in_index input = 1)) ins pos.
Proof.
  induction ins as [|input rest IH]; intros vin idxs net s vin' idxs' net' s' E Hnd.
  - simpl in E. inversion E; subst. exists []. rewrite app_nil_r.
    repeat split; try assumption. constructor.
  - cbn [Txs.validate_inputs] in E.
    destruct (negb (JS.hex_exact 64 (in_hash input))) eqn:Eh; [discriminate E|].
    apply negb_false_iff in Eh.
    destruct (negb (JS.isSafeInteger (in_index input)) || (in_index input <? 0)
              || (in_index input >? 1)) eqn:Ei; [discriminate E|].
    apply index_zero_or_one in Ei.
    unfold bind at 1, get at 1 in E. cbn [snd] in E.
    destruct (JS.findIndex (Txs.refers_to (in_hash input) (in_index input)) (snd s))
      as [i|] eqn:Ef; [|discriminate E].
    destruct (JS.includes i idxs) eqn:Einc; [discriminate E|].
    apply includes_false in Einc.
    destruct (nth_error (snd s) i) as [u|] eqn:En; [|discriminate E].
    apply IH in E.
    2:{ apply NoDup_app; [exact Hnd | repeat constructor; intros [] |].
        intros j Hj [<-|[]]. contradiction. }
    destruct E as (pos & -> & Hnd' & -> & Hall).
    exists (i :: pos). rewrite <- app_assoc in *. cbn [app] in *.
    repeat split; try assumption.
    + cbn [spent_amounts flat_map]. rewrite En. reflexivity.
    + constructor; [auto | exact Hall].
Qed.

Lemma validate_outputs_sound outs : forall vout net s vout' net' s',
  Txs.validate_outputs outs (vout, net) s = (Return (vout', net'), s') ->
  Forall acceptable_output outs /\ net' = less_each net (map amount outs).
Proof.
  induction outs as [|o outs IH]; intros vout net s vout' net' s' E.
  - simpl in E. inversion E; subst. split; [constructor|]. reflexivity.
  - cbn [Txs.validate_outputs] in E.
    destruct (negb (JS.hex_exact 66 (publicKey o))) eqn:Eh; [discriminate E|].
    destruct (negb (canonicalKey (publicKey o))) eqn:Ec; [discriminate E|].
    destruct (negb (JS.isSafeInteger (amount o)) || (amount o <? 2)) eqn:Ea;
      [discriminate E|].
    apply negb_false_iff in Eh, Ec. apply orb_false_elim in Ea. destruct Ea as [Es Ea].
    apply negb_false_iff in Es. apply Z.ltb_ge in Ea.
    apply IH in E. destruct E as [Hall ->].
    split; [constructor; [repeat split; assumption | exact Hall]|]. reflexivity.
Qed.

Lemma validate_signatures_sound h ins : forall idxs vins s signed s',
  Txs.validate_signatures h ins idxs vins s = (Return signed, s') ->
  List.length idxs = List.length ins ->
  Forall2 (fun input i =>
             exists u, nth_error (snd s) i = Some u
                       /\ JS.hex_between 20 144 (signature input) = true
                       /\ verify (utxo_publicKey u) h (signature input) = true)
          ins idxs.
Proof.
  induction ins as [|input rest IH]; intros idxs vins s signed s' E Hlen.
  - destruct idxs; [constructor | discriminate Hlen].
  - cbn [Txs.validate_signatures] in E.
    destruct (negb (JS.hex_between 20 144 (signature input))) eqn:Eh; [discriminate E|].
    apply negb_false_iff in Eh.
    unfold bind at 1, get at 1 in E. cbn [snd] in E.
    destruct idxs as [|i idxs]; [discriminate Hlen|].
    destruct vins as [|v vins]; [discriminate E|].
    destruct (nth_error (snd s) i) as [u|] eqn:En; [|discriminate E].
    destruct (negb (verify (utxo_publicKey u) h (signature input))) eqn:Ev;
      [discriminate E|].
    apply negb_false_iff in Ev.
    unfold bind at 1 in E.
    destruct (Txs.validate_signatures h rest idxs vins s) as [[signed0|e] s0] eqn:E0;
      [|discriminate E].
    pose proof (validate_signatures_readonly h rest idxs vins s) as Hro.
    rewrite E0 in Hro. simpl in Hro. subst s0.
    constructor; [eauto|].
    eapply IH; [exact E0|]. simpl in Hlen. lia.
Qed.

(** Everything that [addTx] has checked when it returns, and what it has
    written. *)
Lemma addTx_sound tx btxs U b s' :
  Txs.addTx tx (btxs, U) = (Return b, s') ->
  exists t idxs,
    tx = UserTx t
    /\ (1 <= List.length (inputs t))%nat
    /\ (1 <= List.length (outputs t) <= 2)%nat
    /\ NoDup idxs
    /\ NoDup (map outpoint_of (inputs t))
    /\ Forall2 (spends_at U (tx_hash t)) (inputs t) idxs
    /\ Forall acceptable_output (outputs t)
    /\ net_of U idxs (outputs t) = 1 + Z.of_nat (List.length (inputs t))
    /\ tx_hash t = sha256_tx (map outpoint_of (inputs t)) (outputs t)
    /\ s' = (btxs ++ [UserTx t],
             Txs.remove_spent idxs U ++ Txs.new_UTXOs (tx_hash t) (outputs t)).
Proof.
  intros E. pose proof E as Estate. apply addTx_ok in Estate.
  destruct tx as [t|cb]; [|discriminate E].
  cbn [Txs.addTx] in E. unfold throw in E.
  destruct (List.length (inputs t) <? 1)%nat eqn:Ein; [discriminate E|].
  destruct ((List.length (outputs t) <? 1) || (2 <? List.length (outputs t)))%nat eqn:Eout;
    [discriminate E|].
  apply Nat.ltb_ge in Ein. apply orb_false_elim in Eout. destruct Eout as [Eo1 Eo2].
  apply Nat.ltb_ge in Eo1, Eo2.
  unfold bind at 1 in E.
  destruct (Txs.validate_inputs (inputs t) ([], [], 0) (btxs, U))
    as [[[[vin idxs] net]|e] s1] eqn:E1; cbv beta iota in E; [|discriminate E].
  pose proof (validate_inputs_readonly (inputs t) ([], [], 0) (btxs, U)) as R1.
  rewrite E1 in R1. simpl in R1. subst s1.
  pose proof E1 as E1'. apply validate_inputs_ok in E1'. destruct E1' as [-> _].
  apply validate_inputs_sound in E1; [|constructor].
  destruct E1 as (pos & -> & Hnd & -> & Hin). cbn [app snd] in *.
  unfold bind at 1 in E.
  destruct (Txs.validate_outputs (outputs t) ([], sum_from 0 (spent_amounts U pos)) (btxs, U))
    as [[[vout net']|e] s2] eqn:E2; cbv beta iota in E; [|discriminate E].
  pose proof (validate_outputs_readonly (outputs t) ([], sum_from 0 (spent_amounts U pos))
                (btxs, U)) as R2.
  rewrite E2 in R2. simpl in R2. subst s2.
  pose proof E2 as E2'. apply validate_outputs_ok in E2'. subst vout.
  apply validate_outputs_sound in E2. destruct E2 as [Hout ->]. cbn [app] in E.
  fold (net_of U pos (outputs t)) in E.
  destruct (negb (net_of U pos (outputs t)
                  =? 1 + Z.of_nat (List.length (inputs t)))) eqn:Enet; [discriminate E|].
  apply negb_false_iff, Z.eqb_eq in Enet.
  destruct (negb (tx_hash t =? sha256_tx (map outpoint_of (inputs t)) (outputs t))%string)
    eqn:Eh; [discriminate E|].
  apply negb_false_iff, String.eqb_eq in Eh.
  unfold bind at 1 in E.
  destruct (Txs.validate_signatures (tx_hash t) (inputs t) pos
              (map outpoint_of (inputs t)) (btxs, U)) as [[signed|e] s3] eqn:E3;
    cbv beta iota in E; [|discriminate E].
  apply validate_signatures_sound in E3;
    [|symmetry; eapply Forall2_length; exact Hin].
  cbn [snd] in E3.
  assert (Forall2 (spends_at U (tx_hash t)) (inputs t) pos) as Hspend.
  { clear - Hin E3. revert E3. induction Hin as [|input i ins pos' (Hf & Hh & Hi) _ IH];
      intros E3; inversion E3 as [|? ? ? ? (u & Hn & Hs & Hv) E3']; subst; constructor.
    - repeat split; try assumption. exists u. split; assumption.
    - apply IH. exact E3'. }
  assert (NoDup (map outpoint_of (inputs t))) as Hkeys.
  { clear - Hin Hnd. induction Hin as [|input i ins pos' (Hf & _) Hrest IH];
      [constructor|].
    inversion Hnd as [|? ? Hfresh Hnd']; subst. cbn [map]. constructor; [|apply IH, Hnd'].
    intros Hdup. apply in_map_iff in Hdup. destruct Hdup as (input' & Heq & Hin').
    apply Hfresh. clear - Hrest Hin' Heq Hf.
    induction Hrest as [|input0 j ins0 pos0 (Hf0 & _) _ IH0]; [inversion Hin'|].
    destruct Hin' as [->|Hin'].
    - left. unfold outpoint_of in Heq. inversion Heq as [[Eh Ei]].
      rewrite Eh, Ei in Hf0. congruence.
    - right. apply IH0. exact Hin'. }
  destruct Estate as (t' & idxs' & Et & _ & Es & Hpos').
  inversion Et; subst t'.
  assert (idxs' = pos) as ->.
  { clear - Hin Hpos'. revert idxs' Hpos'.
    induction Hin as [|input i ins pos' (Hf & _) _ IH]; intros idxs' Hpos';
      inversion Hpos' as [|? j ? rest Hj Hrest]; subst; [reflexivity|].
    f_equal; [congruence | apply IH; exact Hrest]. }
  exists t, pos. repeat split; try assumption; lia.
Qed.






End ValidatorSoundness.

(** * The coinbase *)

Section CoinbaseFacts.
Context `{Crypto}.

Lemma count_inputs_nonneg btxs fees : Txs.count_inputs btxs = Some fees -> 0 <= fees.
Proof.
  revert fees. induction btxs as [|[t|c] rest IH]; intros fees E; simpl in E.
  - inversion E. lia.
  - destruct (Txs.count_inputs rest) as [n|]; [|discriminate E].
    inversion E. specialize (IH n eq_refl). lia.
  - discriminate E.
Qed.

Lemma count_inputs_after_coinbase btxs c : Txs.count_inputs (btxs ++ [CoinbaseTx c]) = None.
Proof.
  induction btxs as [|[t|c'] rest IH]; simpl; [reflexivity | | reflexivity].
  rewrite IH. reflexivity.
Qed.

(** What [addCoinbase] has checked when it returns, and what it wrote. *)
Lemma addCoinbase_sound coinbase t btxs U s' :
  Txs.addCoinbase coinbase t (btxs, U) = (Return tt, s') ->
  exists cb o fees,
    coinbase = CoinbaseTx cb /\ cb_outputs cb = [o]
    /\ Txs.count_inputs btxs = Some fees /\ 0 <= fees
    /\ amount o = 10 + fees
    /\ JS.hex_exact 66 (publicKey o) = true /\ canonicalKey (publicKey o) = true
    /\ cb_hash cb = sha256_coinbase t [o]
    /\ s' = (btxs ++ [CoinbaseTx cb],
             U ++ [{| utxo_hash := cb_hash cb; utxo_index := 0;
                      utxo_publicKey := publicKey o;
                      utxo_amount := amount o |}]).
Proof.
  intros E. destruct coinbase as [tx|cb]; [discriminate E|].
  cbn [Txs.addCoinbase] in E.
  destruct (cb_outputs cb) as [|o [|o' outs]] eqn:Eouts; try discriminate E.
  destruct (negb (JS.hex_exact 66 (publicKey o))) eqn:Eh; [discriminate E|].
  destruct (negb (canonicalKey (publicKey o))) eqn:Ec; [discriminate E|].
  apply negb_false_iff in Eh, Ec.
  unfold bind at 1, get at 1 in E. cbn [fst] in E.
  destruct (Txs.count_inputs btxs) as [fees|] eqn:Ef; [|discriminate E].
  destruct (negb (amount o =? 10 + fees)) eqn:Ea; [discriminate E|].
  apply negb_false_iff, Z.eqb_eq in Ea.
  destruct (negb (cb_hash cb =?
                  sha256_coinbase t [{| publicKey := publicKey o; amount := amount o |}])%string)
    eqn:Ehash; [discriminate E|].
  apply negb_false_iff, String.eqb_eq in Ehash.
  unfold bind, modify in E. cbn in E. inversion E as [Es]. clear E.
  assert ({| publicKey := publicKey o; amount := amount o |} = o) as Ho
    by (destruct o; reflexivity).
  rewrite Ho in *.
  assert ({| cb_outputs := [o]; cb_hash := cb_hash cb |} = cb) as Hcb
    by (destruct cb; simpl in *; subst; reflexivity).
  rewrite Hcb in *.
  exists cb, o, fees. pose proof (count_inputs_nonneg _ _ Ef).
  repeat split; assumption || reflexivity.
Qed.

(** Once a coinbase is in [block.txs], [addCoinbase] throws. *)
Lemma addCoinbase_after_coinbase coinbase t btxs cb U :
  exists e, Txs.addCoinbase coinbase t (btxs ++ [CoinbaseTx cb], U)
            = (Throw e, (btxs ++ [CoinbaseTx cb], U)).
Proof.
  pose proof (addCoinbase_atomic coinbase t) as Hat.
  destruct (Txs.addCoinbase coinbase t (btxs ++ [CoinbaseTx cb], U)) as [[[]|e] s2] eqn:E2.
  - exfalso. destruct coinbase as [tx2|cb2]; [discriminate E2|].
    cbn [Txs.addCoinbase] in E2.
    destruct (cb_outputs cb2) as [|o2 [|o2' outs2]]; try discriminate E2.
    destruct (negb (JS.hex_exact 66 (publicKey o2))); [discriminate E2|].
    destruct (negb (canonicalKey (publicKey o2))); [discriminate E2|].
    unfold bind at 1, get at 1 in E2. cbn [fst] in E2.
    rewrite count_inputs_after_coinbase in E2. discriminate E2.
  - exists e. rewrite (Hat _ _ _ E2). reflexivity.
Qed.

Lemma addCoinbase_run cb o t btxs U fees :
  cb_outputs cb = [o] ->
  JS.hex_exact 66 (publicKey o) = true -> canonicalKey (publicKey o) = true ->
  Txs.count_inputs btxs = Some fees -> amount o = 10 + fees ->
  cb_hash cb = sha256_coinbase t [o] ->
  Txs.addCoinbase (CoinbaseTx cb) t (btxs, U)
  = (Return tt, (btxs ++ [CoinbaseTx cb],
                 U ++ [{| utxo_hash := cb_hash cb; utxo_index := 0;
                          utxo_publicKey := publicKey o; utxo_amount := amount o |}])).
Proof.
  intros Hone Hh Hc Hf Ha Hd. cbn [Txs.addCoinbase]. rewrite Hone, Hh, Hc.
  cbn [negb]. unfold bind at 1, get at 1. cbn [fst]. rewrite Hf.
  apply Z.eqb_eq in Ha. rewrite Ha. cbn [negb].
  assert ({| publicKey := publicKey o; amount := amount o |} = o) as Ho
    by (destruct o; reflexivity).
  rewrite Ho, Hd, String.eqb_refl. cbn [negb].
  unfold bind, modify. cbn [fst snd cb_hash].
  rewrite <- Hd, <- Hone. destruct cb; reflexivity.
Qed.

(** X5: [addCoinbase] accepts exactly a coinbase with a single output, to
    a canonical key, whose amount is 10 plus the number of inputs of the
    transactions already in the block and whose hash is the digest of the
    block time and that output; it then pushes the coinbase onto
    [block.txs] and its output onto [UTXOs] with index 0.  When it throws
    it has changed nothing, and after it has returned a second
    [addCoinbase] on the same block throws. *)
Theorem addCoinbase_pays_the_reward_once :
  forall coinbase t btxs U,
    (forall s',
        Txs.addCoinbase coinbase t (btxs, U) = (Return tt, s')
        <-> exists cb o fees,
              coinbase = CoinbaseTx cb /\ cb_outputs cb = [o]
              /\ JS.hex_exact 66 (publicKey o) = true /\ canonicalKey (publicKey o) = true
              /\ Txs.count_inputs btxs = Some fees /\ 0 <= fees
              /\ amount o = 10 + fees
              /\ cb_hash cb = sha256_coinbase t [o]
              /\ s' = (btxs ++ [CoinbaseTx cb],
                       U ++ [{| utxo_hash := cb_hash cb; utxo_index := 0;
                                utxo_publicKey := publicKey o;
                                utxo_amount := amount o |}]))
    /\ (forall e s', Txs.addCoinbase coinbase t (btxs, U) = (Throw e, s') -> s' = (btxs, U))
    /\ (forall s',
          Txs.addCoinbase coinbase t (btxs, U) = (Return tt, s') ->
          forall coinbase2 t2, exists e, Txs.addCoinbase coinbase2 t2 s' = (Throw e, s')).
Proof.
  intros coinbase t btxs U. split; [|split].
  - intros s'. split.
    + intros E. apply addCoinbase_sound in E.
      destruct E as (cb & o & fees & Ec & Hone & Hf & H0 & Ha & Hh & Hk & Hd & Es).
      exists cb, o, fees. repeat split; assumption.
    + intros (cb & o & fees & -> & Hone & Hh & Hk & Hf & _ & Ha & Hd & ->).
      apply addCoinbase_run with (fees := fees); assumption.
  - intros e s' E. eapply addCoinbase_atomic. exact E.
  - intros s' E. apply addCoinbase_sound in E.
    destruct E as (cb & o & fees & _ & _ & _ & _ & _ & _ & _ & _ & ->).
    intros coinbase2 t2. apply addCoinbase_after_coinbase.
Qed.

End CoinbaseFacts.

(** * The difficulty schedule, block by block *)

Section ScheduleFacts.

Lemma intervals_snoc chain prev bs :
  Blocks.last_block chain = Some prev ->
  WorkSpec.intervals (chain ++ bs) = WorkSpec.intervals chain ++ WorkSpec.intervals (prev :: bs).
Proof.
  unfold Blocks.last_block.
  induction chain as [|b0 rest IH]; intros Hlast; [discriminate Hlast|].
  destruct rest as [|b1 rest'].
  - simpl in Hlast. inversion Hlast; subst. reflexivity.
  - change ((b0 :: b1 :: rest') ++ bs) with (b0 :: b1 :: (rest' ++ bs)).
    rewrite !intervals_cons2. cbn [app]. f_equal. apply IH.
    cbn [List.length] in *. rewrite Nat.sub_succ, Nat.sub_0_r in *. exact Hlast.
Qed.

Lemma nextDifficulty_app chain prev bs :
  Blocks.last_block chain = Some prev ->
  Work.nextDifficulty (chain ++ bs)
  = fold_left WorkSpec.step (WorkSpec.intervals (prev :: bs)) (Work.nextDifficulty chain).
Proof.
  intros Hlast. rewrite !nextDifficulty_refines. unfold WorkSpec.nextDifficulty.
  rewrite (intervals_snoc _ _ _ Hlast), fold_left_app. reflexivity.
Qed.

Lemma step_bounds d iv : 0 <= WorkSpec.step d iv <= 256.
Proof. unfold WorkSpec.step, WorkSpec.clamp. lia. Qed.

Lemma fold_step_run (ivs : list Z) : forall d,
  0 <= d <= 256 ->
  (Forall (fun iv => iv < 5) ivs ->
   fold_left WorkSpec.step ivs d = Z.min 256 (d + Z.of_nat (List.length ivs)))
  /\ (Forall (fun iv => 20 < iv) ivs ->
      fold_left WorkSpec.step ivs d = Z.max 0 (d - Z.of_nat (List.length ivs)))
  /\ (Forall (fun iv => 5 <= iv <= 20) ivs -> fold_left WorkSpec.step ivs d = d).
Proof.
  induction ivs as [|iv ivs IH]; intros d Hd.
  - cbn. repeat split; intros _; lia.
  - cbn [fold_left List.length]. rewrite Nat2Z.inj_succ.
    destruct (IH (WorkSpec.step d iv) (step_bounds d iv)) as (Hfast & Hslow & Hsteady).
    repeat split; intros Hall; inversion Hall as [|? ? Hiv Hrest]; subst.
    + rewrite (Hfast Hrest). unfold WorkSpec.step, WorkSpec.clamp.
      replace (iv <? 5) with true by (symmetry; apply Z.ltb_lt; lia). lia.
    + rewrite (Hslow Hrest). unfold WorkSpec.step, WorkSpec.clamp.
      replace (iv <? 5) with false by (symmetry; apply Z.ltb_ge; lia).
      replace (20 <? iv) with true by (symmetry; apply Z.ltb_lt; lia). lia.
    + rewrite (Hsteady Hrest). unfold WorkSpec.step, WorkSpec.clamp.
      replace (iv <? 5) with false by (symmetry; apply Z.ltb_ge; lia).
      replace (20 <? iv) with false by (symmetry; apply Z.ltb_ge; lia). lia.
Qed.

(** X6: the required difficulty of a chain extended by one block is the
    required difficulty of the chain adjusted by the last interval alone,
    so it moves by at most one per block; over a run of blocks that all
    came within 5 seconds it rises by one per block up to 256, over a run
    that all took more than 20 seconds it falls by one per block down to
    0, and over a run of intervals between 5 and 20 seconds it stays. *)
Theorem nextDifficulty_follows_the_intervals :
  forall (chain : list Block) (prev : Block),
    Blocks.last_block chain = Some prev ->
    let d := Work.nextDifficulty chain in
    (forall b,
        Work.nextDifficulty (chain ++ [b]) = Work.adjust (time b - time prev) d
        /\ d - 1 <= Work.nextDifficulty (chain ++ [b]) <= d + 1)
    /\ (forall bs,
          let ivs := WorkSpec.intervals (prev :: bs) in
          (Forall (fun iv => iv < 5) ivs ->
           Work.nextDifficulty (chain ++ bs) = Z.min 256 (d + Z.of_nat (List.length bs)))
          /\ (Forall (fun iv => 20 < iv) ivs ->
              Work.nextDifficulty (chain ++ bs) = Z.max 0 (d - Z.of_nat (List.length bs)))
          /\ (Forall (fun iv => 5 <= iv <= 20) ivs ->
              Work.nextDifficulty (chain ++ bs) = d)).
Proof.
  intros chain prev Hlast d.
  pose proof (nextDifficulty_bounds chain) as Hd. fold d in Hd.
  split.
  - intros b. rewrite (nextDifficulty_app _ _ [b] Hlast). fold d.
    cbn [WorkSpec.intervals fold_left]. rewrite adjust_is_step.
    split; [reflexivity|]. unfold WorkSpec.step, WorkSpec.clamp.
    destruct (time b - time prev <? 5); [|destruct (20 <? time b - time prev)]; lia.
  - intros bs ivs. rewrite (nextDifficulty_app _ _ bs Hlast). fold d. fold ivs.
    assert (List.length ivs = List.length bs) as Hlen.
    { unfold ivs. clear. revert prev. induction bs as [|b bs IH]; intros prev; [reflexivity|].
      rewrite intervals_cons2. cbn [List.length]. f_equal. apply IH. }
    rewrite <- Hlen. apply fold_step_run. exact Hd.
Qed.

End ScheduleFacts.

(** * Rounding is monotone *)

Section RoundingFacts.

(** The integer that [F64.rne] keeps of the 53 leading bits [q], given the
    remainder [r] and half the weight [h] of the last kept bit. *)
Definition round_choice (q r h : Z) : Z :=
  if r <? h then q else if h <? r then q + 1 else if Z.even q then q else q + 1.

Lemma rne_large x :
  53 <= Z.log2 x ->
  let s := Z.log2 x - 52 in
  F64.rne x = round_choice (x / 2 ^ s) (x mod 2 ^ s) (2 ^ (s - 1)) * 2 ^ s
  /\ 2 ^ 52 <= x / 2 ^ s < 2 ^ 53
  /\ 0 <= x mod 2 ^ s < 2 ^ s
  /\ x = x / 2 ^ s * 2 ^ s + x mod 2 ^ s.
Proof.
  intros Hl s. assert (0 < s) as Hs by (unfold s; lia).
  assert (0 < x) as Hx.
  { destruct (Z_lt_le_dec 0 x) as [Hp|Hn]; [exact Hp|].
    rewrite Z.log2_nonpos in Hl by exact Hn. lia. }
  assert (0 < 2 ^ s) as Hpow by (apply Z.pow_pos_nonneg; lia).
  pose proof (Z.log2_spec x Hx) as [Hlo Hhi].
  replace (Z.log2 x) with (s + 52) in Hlo, Hhi by (unfold s; lia).
  replace (Z.succ (s + 52)) with (s + 53) in Hhi by lia.
  rewrite Z.pow_add_r in Hlo, Hhi by lia.
  repeat split.
  - unfold F64.rne. replace (Z.log2 x <? 53) with false by (symmetry; apply Z.ltb_ge; lia).
    cbv zeta. fold s. rewrite Z.shiftr_div_pow2, !Z.shiftl_mul_pow2 by lia.
    replace (x - x / 2 ^ s * 2 ^ s) with (x mod 2 ^ s)
      by (rewrite Z.mod_eq by lia; lia).
    reflexivity.
  - apply Z.div_le_lower_bound; lia.
  - apply Z.div_lt_upper_bound; lia.
  - apply Z.mod_pos_bound. exact Hpow.
  - apply Z.mod_pos_bound. exact Hpow.
  - rewrite Z.mod_eq by lia. lia.
Qed.

Lemma round_choice_bounds q r h : q <= round_choice q r h <= q + 1.
Proof.
  unfold round_choice.
  destruct (r <? h); [lia|]. destruct (h <? r); [lia|]. destruct (Z.even q); lia.
Qed.

Lemma round_choice_mono q r1 r2 h :
  r1 <= r2 -> round_choice q r1 h <= round_choice q r2 h.
Proof.
  intros Hr. unfold round_choice.
  destruct (r1 <? h) eqn:E1; destruct (r2 <? h) eqn:E2;
    destruct (h <? r1) eqn:E3; destruct (h <? r2) eqn:E4;
    rewrite ?Z.ltb_lt, ?Z.ltb_ge in *; destruct (Z.even q); lia.
Qed.

(** Between the powers of two around it. *)
Lemma rne_between x :
  53 <= Z.log2 x -> 2 ^ Z.log2 x <= F64.rne x <= 2 ^ (Z.log2 x + 1).
Proof.
  intros Hl. destruct (rne_large x Hl) as (-> & Hq & _ & _).
  set (s := Z.log2 x - 52) in *.
  assert (0 < 2 ^ s) as Hpow by (apply Z.pow_pos_nonneg; unfold s; lia).
  replace (Z.log2 x) with (s + 52) by (unfold s; lia).
  replace (s + 52 + 1) with (s + 53) by lia.
  rewrite !Z.pow_add_r by (unfold s; lia).
  pose proof (round_choice_bounds (x / 2 ^ s) (x mod 2 ^ s) (2 ^ (s - 1))). nia.
Qed.

Lemma rne_mono x y : 0 <= x <= y -> F64.rne x <= F64.rne y.
Proof.
  intros Hxy.
  assert (Z.log2 x <= Z.log2 y) as Hlog by (apply Z.log2_le_mono; lia).
  destruct (Z_lt_le_dec (Z.log2 y) 53) as [Hy|Hy].
  - (* both below 2^53 *)
    unfold F64.rne.
    replace (Z.log2 y <? 53) with true by (symmetry; apply Z.ltb_lt; lia).
    replace (Z.log2 x <? 53) with true by (symmetry; apply Z.ltb_lt; lia). lia.
  - destruct (Z_lt_le_dec (Z.log2 x) 53) as [Hx|Hx].
    + (* x below, y above *)
      pose proof (rne_between y Hy) as [Hlo _].
      assert (F64.rne x = x) as ->.
      { unfold F64.rne. replace (Z.log2 x <? 53) with true
          by (symmetry; apply Z.ltb_lt; lia). reflexivity. }
      assert (2 ^ 53 <= 2 ^ Z.log2 y) by (apply Z.pow_le_mono_r; lia).
      destruct (Z.eq_dec x 0) as [->|Hnz]; [lia|].
      assert (x < 2 ^ 53).
      { pose proof (Z.log2_spec x ltac:(lia)) as [_ Hhi].
        assert (2 ^ Z.succ (Z.log2 x) <= 2 ^ 53) by (apply Z.pow_le_mono_r; lia). lia. }
      lia.
    + destruct (Z.eq_dec (Z.log2 x) (Z.log2 y)) as [Heq|Hne].
      * (* the same binade *)
        destruct (rne_large x Hx) as (-> & Hqx & Hrx & Ex).
        destruct (rne_large y Hy) as (-> & Hqy & Hry & Ey).
        rewrite Heq in *. set (s := Z.log2 y - 52) in *.
        assert (0 < 2 ^ s) as Hpow by (apply Z.pow_pos_nonneg; unfold s; lia).
        set (qx := x / 2 ^ s) in *. set (qy := y / 2 ^ s) in *.
        set (rx := x mod 2 ^ s) in *. set (ry := y mod 2 ^ s) in *.
        assert (qx <= qy) as Hq by (apply Z.div_le_mono; lia).
        apply Z.mul_le_mono_nonneg_r; [lia|].
        destruct (Z.eq_dec qx qy) as [Eq|Nq].
        -- rewrite Eq in *. apply round_choice_mono. nia.
        -- pose proof (round_choice_bounds qx rx (2 ^ (s - 1))).
           pose proof (round_choice_bounds qy ry (2 ^ (s - 1))). lia.
      * (* y in a higher binade *)
        pose proof (rne_between x Hx) as [_ Hhi].
        pose proof (rne_between y Hy) as [Hlo _].
        assert (2 ^ (Z.log2 x + 1) <= 2 ^ Z.log2 y) by (apply Z.pow_le_mono_r; lia).
        lia.
Qed.

(** A number with at most 53 significant bits is its own rounding. *)
Lemma rne_exact m k :
  0 <= m < 2 ^ 53 -> 0 <= k -> F64.rne (m * 2 ^ k) = m * 2 ^ k.
Proof.
  intros Hm Hk.
  assert (0 < 2 ^ k) as Hpk by (apply Z.pow_pos_nonneg; lia).
  destruct (Z_lt_le_dec (Z.log2 (m * 2 ^ k)) 53) as [Hs|Hb].
  - unfold F64.rne. replace (Z.log2 (m * 2 ^ k) <? 53) with true
      by (symmetry; apply Z.ltb_lt; lia). reflexivity.
  - assert (0 < m) as Hpos.
    { destruct (Z.eq_dec m 0) as [->|]; [|lia]. rewrite Z.mul_0_l in Hb.
      change (Z.log2 0) with 0 in Hb. lia. }
    assert (Z.log2 (m * 2 ^ k) = Z.log2 m + k) as Hlog.
    { replace (m * 2 ^ k) with (m * 2 ^ k + 0) by lia. apply log2_shifted; lia. }
    assert (Z.log2 m < 53) as Hlm by (apply Z.log2_lt_pow2; lia).
    destruct (rne_large _ Hb) as (-> & _ & _ & _).
    rewrite Hlog. set (s := Z.log2 m + k - 52).
    assert (0 < s <= k) as Hs by (unfold s; lia).
    assert (0 < 2 ^ s) as Hps by (apply Z.pow_pos_nonneg; lia).
    assert (m * 2 ^ k = m * 2 ^ (k - s) * 2 ^ s) as Hsplit.
    { rewrite <- Z.mul_assoc, <- Z.pow_add_r by lia. f_equal. f_equal. lia. }
    rewrite Hsplit at 1 2.
    rewrite Z.div_mul, Z.mod_mul by lia.
    unfold round_choice.
    replace (0 <? 2 ^ (s - 1)) with true
      by (symmetry; apply Z.ltb_lt; apply Z.pow_pos_nonneg; lia).
    lia.
Qed.

Lemma rne_idempotent x : 0 <= x -> F64.rne (F64.rne x) = F64.rne x.
Proof.
  intros Hx. destruct (Z_lt_le_dec (Z.log2 x) 53) as [Hs|Hb].
  - assert (F64.rne x = x) as E.
    { unfold F64.rne. replace (Z.log2 x <? 53) with true
        by (symmetry; apply Z.ltb_lt; lia). reflexivity. }
    rewrite !E. reflexivity.
  - destruct (rne_large x Hb) as (-> & Hq & _ & _).
    set (s := Z.log2 x - 52) in *.
    assert (0 < s) as Hs by (unfold s; lia).
    pose proof (round_choice_bounds (x / 2 ^ s) (x mod 2 ^ s) (2 ^ (s - 1))) as Hc.
    set (c := round_choice (x / 2 ^ s) (x mod 2 ^ s) (2 ^ (s - 1))) in *.
    destruct (Z.eq_dec c (2 ^ 53)) as [->|Hne].
    + replace (2 ^ 53 * 2 ^ s) with (2 ^ 52 * 2 ^ (s + 1))
        by (rewrite (Z.pow_add_r 2 s 1) by lia; lia).
      apply rne_exact; lia.
    + apply rne_exact; lia.
Qed.

End RoundingFacts.

(** * Cumulative difficulty never decreases *)

Section WorkGrows.
Context `{Crypto} {engine : Engine}.

Lemma chainDifficulty_rounded chain :
  F64.rne (Work.chainDifficulty chain) = Work.chainDifficulty chain.
Proof.
  induction chain as [|b chain _] using rev_ind; [reflexivity|].
  rewrite chainDifficulty_snoc. unfold F64.add, F64.round.
  pose proof (chainDifficulty_nonneg chain).
  pose proof (pow2_pos _ (blockDifficulty_ge b)).
  replace (_ + _ <? 0) with false by (symmetry; apply Z.ltb_ge; lia).
  apply rne_idempotent. lia.
Qed.

Lemma chainDifficulty_snoc_le chain b :
  Work.chainDifficulty chain <= Work.chainDifficulty (chain ++ [b]).
Proof.
  rewrite chainDifficulty_snoc. unfold F64.add, F64.round.
  pose proof (chainDifficulty_nonneg chain).
  pose proof (pow2_pos _ (blockDifficulty_ge b)).
  replace (_ + _ <? 0) with false by (symmetry; apply Z.ltb_ge; lia).
  rewrite <- (chainDifficulty_rounded chain) at 1. apply rne_mono. lia.
Qed.

Lemma chainDifficulty_app_le chain more :
  Work.chainDifficulty chain <= Work.chainDifficulty (chain ++ more).
Proof.
  induction more as [|b more IH] using rev_ind.
  - rewrite app_nil_r. lia.
  - rewrite app_assoc. pose proof (chainDifficulty_snoc_le (chain ++ more) b). lia.
Qed.

Lemma addBlock_work_le now block s r s' :
  Blocks.addBlock now block s = (r, s') ->
  Work.chainDifficulty (fst s) <= Work.chainDifficulty (fst s').
Proof.
  destruct s as [chain U]. intros E. destruct r as [[]|e].
  - apply addBlock_ok in E. destruct E as (-> & _). cbn [fst].
    apply chainDifficulty_snoc_le.
  - apply addBlock_throws in E. destruct E as [->|(_ & -> & _)]; cbn [fst]; [lia|].
    apply chainDifficulty_snoc_le.
Qed.

Lemma swapChains_work_le now chain s r s' :
  Blocks.swapChains now chain s = (r, s') ->
  Work.chainDifficulty (fst s) <= Work.chainDifficulty (fst s')
  /\ (s' <> s -> exists increase, r = Return increase /\ 0 < increase).
Proof.
  intros E. rewrite swapChains_unfold in E.
  destruct (Blocks.add_blocks now (skipn 1 chain)
              (Blocks.genesisChain, Blocks.genesisUTXOs))
    as [[[]|e] [validated validatedUTXOs]].
  - cbv zeta in E.
    destruct (0 <? F64.sub (Work.chainDifficulty validated) (Work.chainDifficulty (fst s)))
      eqn:Einc; inversion E; subst.
    + apply Z.ltb_lt in Einc. split.
      * unfold F64.sub in Einc. apply (proj1 (round_pos_iff _)) in Einc. cbn [fst]. lia.
      * intros _. eexists. split; [reflexivity | exact Einc].
    + split; [lia | congruence].
  - inversion E; subst. split; [lia | congruence].
Qed.

(** X7: in double precision too the cumulative difficulty of a chain is at
    least that of each of its prefixes; hence neither [addBlock] nor
    [swapChains] ever lowers the cumulative difficulty of the chain they
    write, and [swapChains] writes nothing unless it returns a positive
    difference. *)
Theorem chainDifficulty_never_decreases :
  (forall chain more,
      Work.chainDifficulty chain <= Work.chainDifficulty (chain ++ more))
  /\ (forall now block s r s',
        Blocks.addBlock now block s = (r, s') ->
        Work.chainDifficulty (fst s) <= Work.chainDifficulty (fst s'))
  /\ (forall now chain s r s',
        Blocks.swapChains now chain s = (r, s') ->
        Work.chainDifficulty (fst s) <= Work.chainDifficulty (fst s')
        /\ (s' <> s -> exists increase, r = Return increase /\ 0 < increase)).
Proof.
  split; [exact chainDifficulty_app_le|]. split.
  - exact addBlock_work_le.
  - exact swapChains_work_le.
Qed.

End WorkGrows.

(** * Invariants of the node's chain and UTXO set *)

Section ChainInvariants.
Context `{Crypto} {engine : Engine}.

(** What [addBlock] has checked of an accepted block, and what it wrote. *)
Lemma addBlock_sound now block chain U s' :
  Blocks.addBlock now block (chain, U) = (Return tt, s') ->
  exists prev vU,
    Blocks.last_block chain = Some prev
    /\ time prev < time block
    /\ 1000 * time block <= 10000 + now
    /\ JS.isSafeInteger (time block) = true
    /\ JS.isSafeInteger (nonce block) = true /\ 0 <= nonce block
    /\ JS.hex_exact 64 (block_hash block) = true
    /\ block_hash block
       = sha256_block (block_hash prev) (time block) (txs block) (nonce block)
    /\ Work.nextDifficulty chain <= Work.blockDifficulty block
    /\ Blocks.rebuild_txs block ([], U) = (Return tt, (txs block, vU))
    /\ s' = (chain ++ [block], vU)
    /\ 2 + Z.of_nat (List.length vU) <= spread_limit.
Proof.
  intros E. rewrite addBlock_unfold in E. unfold shape_error in E.
  destruct (negb (JS.isSafeInteger (time block)) || (time block <? 0)) eqn:Et;
    [discriminate E|].
  destruct (List.length (txs block) <? 1)%nat; [discriminate E|].
  destruct (negb (JS.isSafeInteger (nonce block)) || (nonce block <? 0)) eqn:En;
    [discriminate E|].
  destruct (negb (JS.hex_exact 64 (block_hash block))) eqn:Eh; [discriminate E|].
  apply orb_false_elim in Et, En. destruct Et as [Et _], En as [En En0].
  apply negb_false_iff in Et, En, Eh. apply Z.ltb_ge in En0.
  cbn [fst] in E.
  destruct (Blocks.last_block chain) as [prev|]; [|discriminate E].
  destruct ((time block <=? time prev) || (1000 * time block >? 10000 + now)) eqn:Etime;
    [discriminate E|].
  apply orb_false_elim in Etime. destruct Etime as [Et1 Et2].
  apply Z.leb_gt in Et1. rewrite Z.gtb_ltb in Et2. apply Z.ltb_ge in Et2.
  rewrite addBlock_after_time_eq in E.
  destruct (Blocks.rebuild_txs block ([], U)) as [[[]|e] [vtxs vU]] eqn:E1;
    [|discriminate E].
  pose proof (rebuild_txs_ok _ _ _ E1) as Hv. simpl in Hv. subst vtxs.
  destruct (negb (block_hash block =?
                  sha256_block (block_hash prev) (time block) (txs block) (nonce block))%string)
    eqn:Ehash; [discriminate E|].
  apply negb_false_iff, String.eqb_eq in Ehash.
  destruct (Work.blockDifficulty block <? Work.nextDifficulty chain) eqn:Ed;
    [discriminate E|].
  apply Z.ltb_ge in Ed.
  destruct (spread_limit <? 2 + Z.of_nat (List.length vU)) eqn:El; [discriminate E|].
  apply Z.ltb_ge in El. inversion E; subst.
  exists prev, vU. repeat split; assumption.
Qed.

(** The block [b] extends the chain [pre]: it is later than the last block
    of [pre], its hash is the digest of that block's hash and of its own
    contents, and it meets the difficulty that [pre] requires. *)
Definition extends (pre : list Block) (b : Block) : Prop :=
  exists prev,
    Blocks.last_block pre = Some prev
    /\ time prev < time b
    /\ JS.hex_exact 64 (block_hash b) = true
    /\ block_hash b = sha256_block (block_hash prev) (time b) (txs b) (nonce b)
    /\ Work.nextDifficulty pre <= Work.blockDifficulty b.

Lemma add_blocks_extends now l : forall chain U s',
  Blocks.add_blocks now l (chain, U) = (Return tt, s') ->
  forall pre b post, l = pre ++ b :: post -> extends (chain ++ pre) b.
Proof.
  induction l as [|b0 l IH]; intros chain U s' E pre b post Hl.
  - destruct pre; discriminate Hl.
  - cbn [Blocks.add_blocks] in E. unfold bind at 1 in E.
    destruct (Blocks.addBlock now b0 (chain, U)) as [[[]|e] [chain1 U1]] eqn:E1;
      [|discriminate E].
    apply addBlock_sound in E1.
    destruct E1 as (prev & vU & Hlast & Ht & _ & _ & _ & _ & Hhex & Hhash & Hd & _ & Es & _).
    inversion Es; subst chain1 U1.
    destruct pre as [|p pre].
    + inversion Hl; subst. rewrite app_nil_r. exists prev. repeat split; assumption.
    + inversion Hl; subst.
      replace (chain ++ p :: pre) with ((chain ++ [p]) ++ pre)
        by (rewrite <- app_assoc; reflexivity).
      eapply IH; [exact E | reflexivity].
Qed.

(** X8: the chain of a node starts with the genesis block, and every later
    block extends the chain before it: its time is greater than its
    predecessor's, its hash is 64 hexadecimal digits and is the digest of
    the predecessor's hash and its own contents, and its difficulty is at
    least what the chain before it requires. *)
Theorem reachable_chain_is_linked :
  forall now s,
    reachable now s ->
    exists rest,
      fst s = Blocks.genesisBlock :: rest
      /\ forall pre b post,
           rest = pre ++ b :: post -> extends (Blocks.genesisBlock :: pre) b.
Proof.
  intros now s Hr. apply reachable_rebuilds in Hr. destruct Hr as (rest & Hc & Hrun).
  exists rest. split; [exact Hc|].
  intros pre b post Hrest.
  specialize (Hrun now (Z.le_refl now)). destruct s as [chain U].
  exact (add_blocks_extends now rest Blocks.genesisChain Blocks.genesisUTXOs
           (chain, U) Hrun pre b post Hrest).
Qed.

(** An entry as the validator writes them. *)
Definition sound_utxo (u : UTXO) : Prop :=
  2 <= utxo_amount u /\ (utxo_index u = 0 \/ utxo_index u = 1).

Lemma Forall_firstn_of {A} (P : A -> Prop) n : forall l, Forall P l -> Forall P (firstn n l).
Proof.
  induction n as [|n IH]; intros [|x l] Hl; cbn; try constructor;
    inversion Hl; subst; auto.
Qed.

Lemma Forall_skipn_of {A} (P : A -> Prop) n : forall l, Forall P l -> Forall P (skipn n l).
Proof.
  induction n as [|n IH]; intros [|x l] Hl; cbn; try assumption; try constructor.
  inversion Hl; subst; auto.
Qed.

Lemma splice1_Forall {A} (P : A -> Prop) i l : Forall P l -> Forall P (JS.splice1 i l).
Proof.
  intros Hl. unfold JS.splice1. apply Forall_app. split.
  - apply Forall_firstn_of, Hl.
  - apply Forall_skipn_of, Hl.
Qed.

Lemma remove_spent_Forall (P : UTXO -> Prop) idxs : forall U,
  Forall P U -> Forall P (Txs.remove_spent idxs U).
Proof.
  unfold Txs.remove_spent.
  induction idxs as [|i idxs IH]; intros U HU; [exact HU|].
  cbn [fold_left]. apply IH, splice1_Forall, HU.
Qed.

Lemma new_UTXOs_sound h outs :
  (List.length outs <= 2)%nat -> Forall acceptable_output outs ->
  Forall sound_utxo (Txs.new_UTXOs h outs).
Proof.
  intros Hlen Hacc. unfold Txs.new_UTXOs.
  destruct outs as [|o1 [|o2 [|o3 outs]]]; cbn [List.length] in Hlen; try lia.
  - constructor.
  - inversion Hacc as [|? ? (_ & _ & _ & H1) _]; subst.
    constructor; [split; [exact H1 | left; reflexivity] | constructor].
  - inversion Hacc as [|? ? (_ & _ & _ & H1) Hacc']; subst.
    inversion Hacc' as [|? ? (_ & _ & _ & H2) _]; subst.
    constructor; [split; [exact H1 | left; reflexivity]|].
    constructor; [split; [exact H2 | right; reflexivity] | constructor].
Qed.

Lemma addTx_keeps_sound tx btxs U b s' :
  Txs.addTx tx (btxs, U) = (Return b, s') ->
  Forall sound_utxo U -> Forall sound_utxo (snd s').
Proof.
  intros E HU. apply addTx_sound in E.
  destruct E as (t & idxs & _ & _ & [_ Hlen] & _ & _ & _ & Hacc & _ & _ & ->).
  cbn [snd]. apply Forall_app. split.
  - apply remove_spent_Forall, HU.
  - apply new_UTXOs_sound; assumption.
Qed.

Lemma add_txs_keeps_sound l : forall btxs U s',
  Blocks.add_txs l (btxs, U) = (Return tt, s') ->
  Forall sound_utxo U -> Forall sound_utxo (snd s').
Proof.
  induction l as [|tx l IH]; intros btxs U s' E HU.
  - inversion E. exact HU.
  - cbn [Blocks.add_txs] in E. unfold bind at 1 in E.
    destruct (Txs.addTx tx (btxs, U)) as [[b|e] [btxs1 U1]] eqn:E1; [|discriminate E].
    apply addTx_keeps_sound in E1; [|exact HU]. eapply IH; eassumption.
Qed.

Lemma rebuild_txs_keeps_sound block U s' :
  Blocks.rebuild_txs block ([], U) = (Return tt, s') ->
  Forall sound_utxo U -> Forall sound_utxo (snd s').
Proof.
  unfold Blocks.rebuild_txs. intros E HU. unfold bind at 1 in E.
  destruct (Blocks.add_txs (removelast (txs block)) ([], U)) as [[[]|e] [btxs1 U1]] eqn:E1;
    [|discriminate E].
  apply add_txs_keeps_sound in E1; [|exact HU]. cbn [snd] in E1.
  destruct (nth_error (txs block) (List.length (txs block) - 1)) as [cb|]; [|discriminate E].
  apply addCoinbase_sound in E.
  destruct E as (c & o & fees & _ & _ & _ & Hfees & Ha & _ & _ & _ & ->). cbn [snd].
  apply Forall_app. split; [exact E1|]. constructor; [|constructor].
  split; [cbn [utxo_amount]; lia | left; reflexivity].
Qed.

Lemma add_blocks_keeps_sound now l : forall chain U s',
  Blocks.add_blocks now l (chain, U) = (Return tt, s') ->
  Forall sound_utxo U -> Forall sound_utxo (snd s').
Proof.
  induction l as [|b l IH]; intros chain U s' E HU.
  - inversion E. exact HU.
  - cbn [Blocks.add_blocks] in E. unfold bind at 1 in E.
    destruct (Blocks.addBlock now b (chain, U)) as [[[]|e] [chain1 U1]] eqn:E1;
      [|discriminate E].
    apply addBlock_sound in E1.
    destruct E1 as (prev & vU & _ & _ & _ & _ & _ & _ & _ & _ & _ & Hre & Es & _).
    inversion Es; subst chain1 U1.
    apply rebuild_txs_keeps_sound in Hre; [|exact HU]. eapply IH; eassumption.
Qed.

(** X9: every entry of the UTXO set of a node has an amount of at least 2
    and the index 0 or 1. *)
Theorem reachable_UTXOs_are_sound :
  forall now s, reachable now s -> Forall sound_utxo (snd s).
Proof.
  intros now s Hr. apply reachable_rebuilds in Hr. destruct Hr as (rest & _ & Hrun).
  specialize (Hrun now (Z.le_refl now)).
  eapply add_blocks_keeps_sound; [exact Hrun|].
  repeat constructor. cbn. lia.
Qed.

End ChainInvariants.

(** * The blocks that are accepted, and the miner's *)

Section MinerFacts.
Context `{Crypto} {engine : Engine}.

(** A block that passes every check of [addBlock] is pushed on the chain;
    the UTXO set is then replaced, unless its entries are more than a call
    takes as arguments. *)
Lemma addBlock_checks_passed now block chain U prev vU :
  Blocks.last_block chain = Some prev ->
  time prev < time block -> 0 <= time block -> 1000 * time block <= 10000 + now ->
  JS.isSafeInteger (time block) = true ->
  JS.isSafeInteger (nonce block) = true -> 0 <= nonce block ->
  JS.hex_exact 64 (block_hash block) = true ->
  block_hash block = sha256_block (block_hash prev) (time block) (txs block) (nonce block) ->
  Work.nextDifficulty chain <= Work.blockDifficulty block ->
  Blocks.rebuild_txs block ([], U) = (Return tt, (txs block, vU)) ->
  Blocks.addBlock now block (chain, U)
  = if spread_limit <? 2 + Z.of_nat (List.length vU)
    then (Throw "RangeError"%string, (chain ++ [block], U))
    else (Return tt, (chain ++ [block], vU)).
Proof.
  intros Hlast Hlt H0 Hnow Ht Hn Hn0 Hh Hd Hw Hre.
  rewrite addBlock_unfold. unfold shape_error. rewrite Ht, Hn, Hh. cbn [negb orb].
  apply Z.ltb_ge in H0, Hn0. rewrite H0, Hn0.
  assert ((List.length (txs block) <? 1)%nat = false) as Hlen.
  { apply Nat.ltb_ge. unfold Blocks.rebuild_txs in Hre. unfold bind at 1 in Hre.
    destruct (Blocks.add_txs (removelast (txs block)) ([], U)) as [[[]|e] s1];
      [|discriminate Hre].
    destruct (txs block); [discriminate Hre | simpl; lia]. }
  rewrite Hlen. cbn [fst]. rewrite Hlast.
  apply Z.leb_gt in Hlt. rewrite Hlt. cbn [orb].
  assert ((1000 * time block >? 10000 + now) = false) as Hnow'
    by (rewrite Z.gtb_ltb; apply Z.ltb_ge; lia).
  rewrite Hnow'.
  rewrite addBlock_after_time_eq, Hre.
  rewrite <- Hd, String.eqb_refl. cbn [negb].
  apply Z.ltb_ge in Hw. rewrite Hw. reflexivity.
Qed.

Lemma addBlock_complete now block chain U prev vU :
  Blocks.last_block chain = Some prev ->
  time prev < time block -> 0 <= time block -> 1000 * time block <= 10000 + now ->
  JS.isSafeInteger (time block) = true ->
  JS.isSafeInteger (nonce block) = true -> 0 <= nonce block ->
  JS.hex_exact 64 (block_hash block) = true ->
  block_hash block = sha256_block (block_hash prev) (time block) (txs block) (nonce block) ->
  Work.nextDifficulty chain <= Work.blockDifficulty block ->
  Blocks.rebuild_txs block ([], U) = (Return tt, (txs block, vU)) ->
  2 + Z.of_nat (List.length vU) <= spread_limit ->
  Blocks.addBlock now block (chain, U) = (Return tt, (chain ++ [block], vU)).
Proof.
  intros Hlast Hlt H0 Hnow Ht Hn Hn0 Hh Hd Hw Hre Hfit.
  rewrite (addBlock_checks_passed now block chain U prev vU) by assumption.
  apply Z.ltb_ge in Hfit. rewrite Hfit. reflexivity.
Qed.

Lemma last_of_snoc {A} (l : list A) x :
  nth_error (l ++ [x]) (List.length (l ++ [x]) - 1) = Some x.
Proof.
  rewrite length_app. cbn [List.length]. rewrite Nat.add_sub.
  rewrite nth_error_app2 by lia. rewrite Nat.sub_diag. reflexivity.
Qed.

Lemma addBlock_time_nonneg now block s s' :
  Blocks.addBlock now block s = (Return tt, s') -> 0 <= time block.
Proof.
  intros E. rewrite addBlock_unfold in E. unfold shape_error in E.
  destruct (negb (JS.isSafeInteger (time block)) || (time block <? 0)) eqn:Et;
    [discriminate E|].
  apply orb_false_elim in Et. destruct Et as [_ Et]. apply Z.ltb_ge in Et. exact Et.
Qed.

(** The transactions of a block, as [addBlock] requires them: user
    transactions that validate one after the other from the UTXO set [U],
    then one coinbase with a single output, to a canonical key, of ten plus
    the number of inputs spent in the block, and with the digest of the
    block time and that output as its hash; [vU] is the UTXO set after
    these transactions with the output of the coinbase appended. *)
Definition block_txs_valid (block : Block) (U vU : list UTXO) : Prop :=
  exists users cb o fees U1,
    txs block = users ++ [CoinbaseTx cb]
    /\ Blocks.add_txs users ([], U) = (Return tt, (users, U1))
    /\ cb_outputs cb = [o]
    /\ JS.hex_exact 66 (publicKey o) = true /\ canonicalKey (publicKey o) = true
    /\ Txs.count_inputs users = Some fees /\ amount o = 10 + fees
    /\ cb_hash cb = sha256_coinbase (time block) [o]
    /\ vU = U1 ++ [{| utxo_hash := cb_hash cb; utxo_index := 0;
                      utxo_publicKey := publicKey o; utxo_amount := amount o |}].

Lemma rebuild_txs_iff block U vU :
  Blocks.rebuild_txs block ([], U) = (Return tt, (txs block, vU))
  <-> block_txs_valid block U vU.
Proof.
  unfold Blocks.rebuild_txs, block_txs_valid. split.
  - intros E. unfold bind at 1 in E.
    destruct (Blocks.add_txs (removelast (txs block)) ([], U)) as [[[]|e] [b1 U1]] eqn:E1;
      [|discriminate E].
    pose proof (add_txs_ok _ _ _ _ E1) as Hb. cbn in Hb. subst b1.
    destruct (nth_error (txs block) (List.length (txs block) - 1)) as [c|] eqn:En;
      [|discriminate E].
    apply removelast_nth_error in En.
    apply addCoinbase_sound in E.
    destruct E as (cb & o & fees & -> & Hone & Hf & _ & Ha & Hh & Hc & Hd & Es).
    inversion Es as [[Et Ev]].
    exists (removelast (txs block)), cb, o, fees, U1.
    repeat split; assumption.
  - intros (users & cb & o & fees & U1 & Etxs & Hrun & Hone & Hh & Hc & Hf & Ha & Hd & ->).
    rewrite Etxs. rewrite removelast_last, last_of_snoc. unfold bind at 1. rewrite Hrun.
    apply addCoinbase_run with (fees := fees); assumption.
Qed.

(** X10: [addBlock] accepts a block exactly when its time is a safe
    integer, not negative, later than that of the last block of the chain
    and at most ten seconds ahead of the clock, its nonce is a safe integer
    and not negative, its hash is 64 hexadecimal digits and is the digest
    of the previous hash and of its contents, its difficulty is at least
    what the chain requires, its transactions are valid for the UTXO set,
    and the UTXO set after them, with the two leading arguments of
    [splice], is not more than a call takes as arguments; it then appends
    the block to the chain and replaces the UTXO set. *)
Theorem addBlock_accepts_exactly :
  forall now block chain U s',
    Blocks.addBlock now block (chain, U) = (Return tt, s')
    <-> exists prev vU,
          Blocks.last_block chain = Some prev
          /\ JS.isSafeInteger (time block) = true /\ 0 <= time block
          /\ time prev < time block /\ 1000 * time block <= 10000 + now
          /\ JS.isSafeInteger (nonce block) = true /\ 0 <= nonce block
          /\ JS.hex_exact 64 (block_hash block) = true
          /\ block_hash block
             = sha256_block (block_hash prev) (time block) (txs block) (nonce block)
          /\ Work.nextDifficulty chain <= Work.blockDifficulty block
          /\ block_txs_valid block U vU
          /\ 2 + Z.of_nat (List.length vU) <= spread_limit
          /\ s' = (chain ++ [block], vU).
Proof.
  intros now block chain U s'. split.
  - intros E. pose proof (addBlock_time_nonneg _ _ _ _ E) as H0.
    apply addBlock_sound in E.
    destruct E as (prev & vU & Hlast & Hlt & Hnow & Ht & Hn & Hn0 & Hh & Hd & Hw & Hre & -> & Hfit).
    exists prev, vU. apply rebuild_txs_iff in Hre. repeat split; assumption.
  - intros (prev & vU & Hlast & Ht & H0 & Hlt & Hnow & Hn & Hn0 & Hh & Hd & Hw & Hre & Hfit & ->).
    apply rebuild_txs_iff in Hre.
    apply (addBlock_complete now block chain U prev); assumption.
Qed.

Lemma reward_fold ptxs : forall acc,
  fold_left (fun reward tx => reward + Z.of_nat (List.length (inputs tx))) ptxs acc
  = acc + (Miner.reward ptxs - 10).
Proof.
  unfold Miner.reward. induction ptxs as [|t ptxs IH]; intros acc; cbn [fold_left]; [lia|].
  rewrite IH, (IH (10 + _)). lia.
Qed.

(** The miner's reward is the one [addCoinbase] asks for. *)
Lemma reward_count ptxs :
  Txs.count_inputs (map UserTx ptxs) = Some (Miner.reward ptxs - 10).
Proof.
  induction ptxs as [|t ptxs IH]; [reflexivity|].
  cbn [map Txs.count_inputs]. rewrite IH. cbn [option_map]. f_equal.
  unfold Miner.reward at 2. cbn [fold_left]. rewrite reward_fold. lia.
Qed.


(** The block that [mineBlock] returns, spelled out. *)
Lemma mineBlock_block now n ptxs pk chain block :
  Miner.mineBlock now n ptxs pk chain = Return (Some block) ->
  exists prev,
    Blocks.last_block chain = Some prev
    /\ time block = Z.max (time prev + 1) (Miner.ceil_seconds now)
    /\ nonce block = n
    /\ txs block
       = map UserTx ptxs
         ++ [CoinbaseTx
               {| cb_outputs := [{| publicKey := pk; amount := Miner.reward ptxs |}];
                  cb_hash := sha256_coinbase (time block)
                               [{| publicKey := pk; amount := Miner.reward ptxs |}] |}]
    /\ block_hash block
       = sha256_block (block_hash prev) (time block) (txs block) (nonce block)
    /\ Work.nextDifficulty chain <= Work.blockDifficulty block.
Proof.
  unfold Miner.mineBlock. intros E.
  destruct (Blocks.last_block chain) as [prev|]; [|discriminate E].
  cbv zeta in E.
  match type of E with
  | (if ?c then _ else _) = _ => destruct c eqn:Ed; [discriminate E|]
  end.
  inversion E as [Eb]. clear E. apply Z.ltb_ge in Ed. rewrite Eb in Ed.
  exists prev. subst block. cbn [time nonce txs block_hash].
  repeat split; try reflexivity. exact Ed.
Qed.

(** The rebuild of a mined block succeeds exactly when its transactions,
    taken from the pool, validate one after the other. *)
Lemma rebuild_mined block ptxs pk U :
  txs block
  = map UserTx ptxs
    ++ [CoinbaseTx
          {| cb_outputs := [{| publicKey := pk; amount := Miner.reward ptxs |}];
             cb_hash := sha256_coinbase (time block)
                          [{| publicKey := pk; amount := Miner.reward ptxs |}] |}] ->
  JS.hex_exact 66 pk = true -> canonicalKey pk = true ->
  forall vU,
    (exists U1,
        Blocks.add_txs (map UserTx ptxs) ([], U) = (Return tt, (map UserTx ptxs, U1))
        /\ vU = U1 ++ [{| utxo_hash := sha256_coinbase (time block)
                                         [{| publicKey := pk; amount := Miner.reward ptxs |}];
                          utxo_index := 0; utxo_publicKey := pk;
                          utxo_amount := Miner.reward ptxs |}])
    <-> Blocks.rebuild_txs block ([], U) = (Return tt, (txs block, vU)).
Proof.
  intros Etxs Hh Hc vU. unfold Blocks.rebuild_txs.
  destruct block as [t btxs n h]. cbn [txs time] in *. subst btxs.
  rewrite removelast_last, last_of_snoc. unfold bind at 1.
  split.
  - intros (U1 & Hrun & ->). rewrite Hrun.
    set (o := {| publicKey := pk; amount := Miner.reward ptxs |}).
    set (cb := {| cb_outputs := [o]; cb_hash := sha256_coinbase t [o] |}).
    rewrite (addCoinbase_run cb o t (map UserTx ptxs) U1 (Miner.reward ptxs - 10));
      [ reflexivity | reflexivity | exact Hh | exact Hc | apply reward_count
      | cbn [amount o]; lia | reflexivity ].
  - intros E.
    destruct (Blocks.add_txs (map UserTx ptxs) ([], U)) as [[[]|e] [b1 U1]] eqn:E1;
      [|discriminate E].
    pose proof (add_txs_ok _ _ _ _ E1) as Hb. cbn in Hb. subst b1.
    exists U1. split; [reflexivity|].
    apply addCoinbase_ok in E. destruct E as (c & o & Ec & Hone & Es).
    inversion Ec; subst c. cbn in Hone. inversion Hone; subst o.
    inversion Es. reflexivity.
Qed.

Lemma ceil_seconds_bounds now :
  now <= 1000 * Miner.ceil_seconds now < now + 1000.
Proof.
  unfold Miner.ceil_seconds.
  pose proof (Z.div_mod (- now) 1000 ltac:(lia)).
  pose proof (Z.mod_pos_bound (- now) 1000 ltac:(lia)). lia.
Qed.

(** X11: a block that [mineBlock] has returned is accepted by [addBlock] on
    the chain it was mined on exactly when the pooled transactions it took
    validate one after the other against the node's UTXO set, its time is
    at most ten seconds ahead of the clock, and the UTXO set after these
    transactions and the coinbase, with the two leading arguments of
    [splice], is not more than a call takes as arguments; the node's state
    is then the chain with that block appended and the UTXO set after
    these transactions and the coinbase paying ten plus one per input to
    the miner's key.  The time of the block is in range unless the last
    block of the chain is itself more than nine seconds ahead of the
    clock. *)
Theorem mined_block_is_accepted_iff :
  forall now now' n ptxs pk chain U block prev,
    Miner.mineBlock now n ptxs pk chain = Return (Some block) ->
    Blocks.last_block chain = Some prev ->
    0 <= time prev -> JS.isSafeInteger (time block) = true ->
    0 <= n -> JS.isSafeInteger n = true ->
    JS.hex_exact 66 pk = true -> canonicalKey pk = true ->
    JS.hex_exact 64 (block_hash block) = true ->
    (forall s',
        Blocks.addBlock now' block (chain, U) = (Return tt, s')
        <-> 1000 * time block <= 10000 + now'
            /\ exists U1,
                 Blocks.add_txs (map UserTx ptxs) ([], U) = (Return tt, (map UserTx ptxs, U1))
                 /\ 2 + Z.of_nat (List.length U1 + 1) <= spread_limit
                 /\ s' = (chain ++ [block],
                          U1 ++ [{| utxo_hash := sha256_coinbase (time block)
                                      [{| publicKey := pk; amount := Miner.reward ptxs |}];
                                    utxo_index := 0; utxo_publicKey := pk;
                                    utxo_amount := Miner.reward ptxs |}]))
    /\ (now <= now' -> 1000 * time prev <= 9000 + now' ->
        1000 * time block <= 10000 + now').
Proof.
  intros now now' n ptxs pk chain U block prev Hm Hlast Hp Ht Hn0 Hn Hh Hc Hd.
  apply mineBlock_block in Hm.
  destruct Hm as (prev' & Hlast' & Etime & En & Etxs & Ehash & Hw).
  rewrite Hlast in Hlast'. inversion Hlast'; subst prev'. clear Hlast'.
  split.
  - intros s'. split.
    + intros E. apply addBlock_sound in E.
      destruct E as (p & vU & _ & _ & Hnow & _ & _ & _ & _ & _ & _ & Hre & -> & Hfit).
      split; [exact Hnow|].
      apply (rebuild_mined block ptxs pk U Etxs Hh Hc) in Hre.
      destruct Hre as (U1 & Hrun & ->). exists U1.
      rewrite length_app in Hfit. cbn [List.length] in Hfit.
      split; [exact Hrun | split; [exact Hfit | reflexivity]].
    + intros (Hnow & U1 & Hrun & Hfit & ->).
      apply (addBlock_complete now' block chain U prev);
        [ exact Hlast | lia | lia | exact Hnow | exact Ht | rewrite En; exact Hn
        | rewrite En; exact Hn0 | exact Hd | exact Ehash | exact Hw | | ].
      * apply (rebuild_mined block ptxs pk U Etxs Hh Hc). exists U1.
        split; [exact Hrun | reflexivity].
      * rewrite length_app. cbn [List.length]. exact Hfit.
  - intros Hle Hprev. rewrite Etime. pose proof (ceil_seconds_bounds now). lia.
Qed.

End MinerFacts.

(** * What a thrown exception leaves behind *)

Section CommitOrder.
Context `{Crypto} {engine : Engine}.

(** C3: when [addTx] or [swapChains] throws, at whichever step, the state
    it was given is what it was before the call.  [addBlock] leaves the
    chain and the UTXO set as they were when one of its checks fails, but
    not when the last statement of its commit throws: a block that passes
    every check, and after which the UTXO set has more entries than a call
    takes as arguments, is pushed on the chain by [chain.push(block)], and
    [UTXOs.splice(0, UTXOs.length, ...validatedUTXOs)] then raises a
    RangeError with the UTXO set still the one before the block. *)
Theorem addBlock_commit_is_not_atomic :
  (forall tx s e s', Txs.addTx tx s = (Throw e, s') -> s' = s)
  /\ (forall now chain s e s', Blocks.swapChains now chain s = (Throw e, s') -> s' = s)
  /\ (forall now block chain U e s',
        Blocks.addBlock now block (chain, U) = (Throw e, s') ->
        s' = (chain, U) \/ (e = "RangeError"%string /\ s' = (chain ++ [block], U)))
  /\ (forall now block chain U prev vU,
        Blocks.last_block chain = Some prev ->
        JS.isSafeInteger (time block) = true -> 0 <= time block ->
        time prev < time block -> 1000 * time block <= 10000 + now ->
        JS.isSafeInteger (nonce block) = true -> 0 <= nonce block ->
        JS.hex_exact 64 (block_hash block) = true ->
        block_hash block
        = sha256_block (block_hash prev) (time block) (txs block) (nonce block) ->
        Work.nextDifficulty chain <= Work.blockDifficulty block ->
        block_txs_valid block U vU ->
        spread_limit < 2 + Z.of_nat (List.length vU) ->
        Blocks.addBlock now block (chain, U)
        = (Throw "RangeError"%string, (chain ++ [block], U))).
Proof.
  split; [|split; [|split]].
  - intros tx. apply addTx_atomic.
  - intros now chain. apply swapChains_atomic.
  - intros now block chain U e s' E. apply addBlock_throws in E.
    destruct E as [->|(-> & -> & _)]; [left; reflexivity | right; split; reflexivity].
  - intros now block chain U prev vU Hlast Ht H0 Hlt Hnow Hn Hn0 Hh Hd Hw Hre Hover.
    apply rebuild_txs_iff in Hre.
    rewrite (addBlock_checks_passed now block chain U prev vU) by assumption.
    apply Z.ltb_lt in Hover. rewrite Hover. reflexivity.
Qed.

End CommitOrder.

(** * The claims of the pool *)

Section PoolInvariant.
Context `{Crypto}.

Definition input_key (input : Input) : string * Z := (in_hash input, in_index input).

(** The outputs spent by the pooled transactions, in the order of the pool. *)
Definition pooled_inputs (ptxs : list Tx) : list (string * Z) :=
  flat_map (fun t => map input_key (inputs t)) ptxs.

(** [usedUTXOs] holds, in the order of the pool, one entry for every input
    of every pooled transaction, and no output is spent twice in the pool. *)
Definition consistent (p : Pool.pool) : Prop :=
  map key_of (Pool.usedUTXOs p) = pooled_inputs (Pool.pool_txs p)
  /\ NoDup (pooled_inputs (Pool.pool_txs p)).

Lemma claimed_iff used input :
  claimed used input = true <-> In (input_key input) (map key_of used).
Proof.
  unfold claimed. rewrite existsb_exists. split.
  - intros (u & Hin & Hr). apply refers_to_eq in Hr. destruct Hr as [Hh Hi].
    apply in_map_iff. exists u. split; [|exact Hin].
    unfold key_of, input_key. congruence.
  - intros Hin. apply in_map_iff in Hin. destruct Hin as (u & Hk & Hin).
    exists u. split; [exact Hin|]. unfold key_of, input_key in Hk. inversion Hk.
    unfold Txs.refers_to. rewrite String.eqb_refl, Z.eqb_refl. reflexivity.
Qed.

Lemma spends_iff u input : Pool.spends u input = true <-> input_key input = key_of u.
Proof.
  unfold Pool.spends, input_key, key_of. rewrite andb_true_iff, String.eqb_eq, Z.eqb_eq.
  split; [intros [-> ->]; reflexivity | intros E; inversion E; auto].
Qed.


Lemma findIndex_none {A} (p : A -> bool) l :
  JS.findIndex p l = None <-> forall x, In x l -> p x = false.
Proof.
  induction l as [|a l IH]; cbn [JS.findIndex].
  - split; [intros _ x [] | reflexivity].
  - destruct (p a) eqn:Ea.
    + split; [discriminate|]. intros Hall. rewrite (Hall a (or_introl eq_refl)) in Ea.
      discriminate Ea.
    + destruct (JS.findIndex p l) as [j|].
      * split; [discriminate|]. intros Hall. exfalso.
        assert (Some j = None) as Hj
          by (apply (proj2 IH); intros x Hx; apply Hall; right; exact Hx).
        discriminate Hj.
      * split; [|reflexivity]. intros _ x [<-|Hx]; [exact Ea|].
        apply (proj1 IH eq_refl). exact Hx.
Qed.

(** [findTxIndex] returns -1 exactly for the outputs no pooled transaction
    spends. *)
Lemma findTxIndex_none u ptxs :
  Pool.findTxIndex u ptxs = None <-> ~ In (key_of u) (pooled_inputs ptxs).
Proof.
  unfold Pool.findTxIndex. rewrite findIndex_none. unfold pooled_inputs. split.
  - intros Hall Hin. apply in_flat_map in Hin. destruct Hin as (t & Ht & Hk).
    apply in_map_iff in Hk. destruct Hk as (input & Hk & Hi).
    specialize (Hall t Ht).
    assert (existsb (Pool.spends u) (inputs t) = true) as Hex.
    { apply existsb_exists. exists input. split; [exact Hi|]. apply spends_iff. exact Hk. }
    congruence.
  - intros Hno t Ht. destruct (existsb (Pool.spends u) (inputs t)) eqn:Hex; [|reflexivity].
    exfalso. apply Hno. apply existsb_exists in Hex. destruct Hex as (input & Hi & Hs).
    apply in_flat_map. exists t. split; [exact Ht|].
    apply in_map_iff. exists input. split; [|exact Hi]. apply spends_iff. exact Hs.
Qed.


Lemma pooled_inputs_snoc ptxs t :
  pooled_inputs (ptxs ++ [t]) = pooled_inputs ptxs ++ map input_key (inputs t).
Proof.
  unfold pooled_inputs. rewrite flat_map_app. cbn [flat_map]. rewrite app_nil_r. reflexivity.
Qed.

Lemma NoDup_app_of {A} (l1 l2 : list A) :
  NoDup l1 -> NoDup l2 -> (forall x, In x l2 -> ~ In x l1) -> NoDup (l1 ++ l2).
Proof.
  intros H1 H2 Hd. induction H1 as [|a l1 Ha H1 IH]; [exact H2|].
  cbn [app]. constructor.
  - intros Hin. apply in_app_or in Hin. destruct Hin as [Hin|Hin]; [exact (Ha Hin)|].
    apply (Hd a Hin). left. reflexivity.
  - apply IH. intros x Hx Hin. apply (Hd x Hx). right. exact Hin.
Qed.

Lemma input_keys_NoDup ins : NoDup (map outpoint_of ins) -> NoDup (map input_key ins).
Proof.
  induction ins as [|a ins IH]; cbn [map]; intros Hnd; [constructor|].
  inversion Hnd as [|? ? Ha Hnd']; subst. constructor; [|apply IH, Hnd'].
  intros Hin. apply Ha. apply in_map_iff in Hin. destruct Hin as (b & Hk & Hb).
  apply in_map_iff. exists b. split; [|exact Hb].
  unfold input_key in Hk. unfold outpoint_of. inversion Hk. congruence.
Qed.

(** The pool after [Pool.addTx], whatever it answered. *)
Lemma pool_addTx_cases tx p U :
  snd (Pool.addTx tx (p, U)) = (p, U)
  \/ exists t,
       tx = UserTx t /\ validates U tx
       /\ existsb (claimed (Pool.usedUTXOs p)) (inputs t) = false
       /\ Pool.addTx tx (p, U) = (Return true, (accept p U t, U)).
Proof.
  destruct (Txs.addTx tx ([], U)) as [[b|e] s1] eqn:E.
  - pose proof E as E'. apply addTx_ok in E'. destruct E' as (t & idxs & -> & -> & _ & _).
    assert (validates U (UserTx t)) as Hv by (unfold validates; rewrite E; reflexivity).
    rewrite (pool_addTx_run t p U Hv).
    destruct (existsb (claimed (Pool.usedUTXOs p)) (inputs t)) eqn:Ec.
    + left. reflexivity.
    + right. exists t. repeat split; assumption || reflexivity.
  - left. unfold Pool.addTx. unfold bind at 1, get at 1. cbn [snd].
    unfold bind at 1, call_on_fresh at 1. rewrite E. reflexivity.
Qed.

Lemma accept_consistent p U t :
  consistent p -> validates U (UserTx t) ->
  existsb (claimed (Pool.usedUTXOs p)) (inputs t) = false ->
  consistent (accept p U t).
Proof.
  intros [Hused Hnd] Hv Hfree. unfold consistent, accept. cbn [Pool.pool_txs Pool.usedUTXOs].
  rewrite pooled_inputs_snoc, map_app.
  destruct (validates_found _ _ Hv) as (t' & Et & Hf). inversion Et; subst t'.
  assert (map key_of (claims_of U (inputs t)) = map input_key (inputs t)) as Hkeys
    by (apply claims_of_outpoints; exact Hf).
  split; [rewrite Hused, Hkeys; reflexivity|].
  apply NoDup_app_of; [exact Hnd | |].
  - unfold validates in Hv.
    destruct (Txs.addTx (UserTx t) ([], U)) as [[b|e] s1] eqn:E; [|discriminate Hv].
    apply addTx_sound in E.
    destruct E as (t' & idxs & Et' & _ & _ & _ & Hk & _). inversion Et'; subst t'.
    apply input_keys_NoDup. exact Hk.
  - intros k Hk Hin. apply in_map_iff in Hk. destruct Hk as (input & <- & Hi).
    rewrite <- Hused in Hin. apply claimed_iff in Hin.
    assert (existsb (claimed (Pool.usedUTXOs p)) (inputs t) = true) as Hex
      by (apply existsb_exists; exists input; auto).
    congruence.
Qed.


End PoolInvariant.

(** * What [removeBlockTxs] can do to the pool *)

Section EvictionBounds.

(** [l1] is [l2] with some elements left out. *)
Inductive sublist {A} : list A -> list A -> Prop :=
| sublist_nil : sublist [] []
| sublist_skip x l1 l2 : sublist l1 l2 -> sublist l1 (x :: l2)
| sublist_keep x l1 l2 : sublist l1 l2 -> sublist (x :: l1) (x :: l2).

Lemma sublist_refl {A} (l : list A) : sublist l l.
Proof. induction l; constructor; assumption. Qed.

Lemma sublist_trans {A} (l1 l2 l3 : list A) :
  sublist l1 l2 -> sublist l2 l3 -> sublist l1 l3.
Proof.
  intros H12 H23. revert l1 H12.
  induction H23 as [|x l2 l3 _ IH|x l2 l3 _ IH]; intros l1 H12.
  - exact H12.
  - constructor. apply IH. exact H12.
  - inversion H12; subst; constructor; apply IH; assumption.
Qed.

Lemma splice1_sublist {A} i : forall l : list A, sublist (JS.splice1 i l) l.
Proof.
  unfold JS.splice1. induction i as [|i IH]; intros [|a l].
  - constructor.
  - cbn [firstn skipn app]. apply sublist_skip, sublist_refl.
  - constructor.
  - change (skipn (S (S i)) (a :: l)) with (skipn (S i) l). cbn [firstn app].
    apply sublist_keep, IH.
Qed.

Lemma skipn_skipn_add {A} j k (l : list A) : skipn j (skipn k l) = skipn (k + j) l.
Proof.
  revert l. induction k as [|k IH]; intros l; [reflexivity|].
  destruct l as [|a l]; [now rewrite !skipn_nil|]. cbn [skipn Nat.add]. apply IH.
Qed.

(** The pool [q] is what is left of [p]: its transactions are some of those
    of [p], in their order, and its claims are those of [p] without the
    first few. *)
Definition left_of (p q : Pool.pool) : Prop :=
  sublist (Pool.pool_txs q) (Pool.pool_txs p)
  /\ exists k, Pool.usedUTXOs q = skipn k (Pool.usedUTXOs p).

Lemma left_of_refl p : left_of p p.
Proof. split; [apply sublist_refl | exists O; reflexivity]. Qed.

Lemma left_of_trans p q r : left_of p q -> left_of q r -> left_of p r.
Proof.
  intros [H1 (k1 & E1)] [H2 (k2 & E2)]. split.
  - eapply sublist_trans; eassumption.
  - exists (k1 + k2)%nat. rewrite E2, E1. apply skipn_skipn_add.
Qed.

(** Every [splice] of the inner loop removes the first claim. *)
Lemma release_inputs_run ins : forall p,
  Pool.release_inputs ins p
  = (Return tt, {| Pool.pool_txs := Pool.pool_txs p;
                   Pool.usedUTXOs := skipn (List.length ins) (Pool.usedUTXOs p) |}).
Proof.
  induction ins as [|input ins IH]; intros p.
  - destruct p; reflexivity.
  - cbn [Pool.release_inputs]. unfold bind at 1, get at 1. unfold bind at 1, modify at 1.
    rewrite IH. cbn [Pool.pool_txs Pool.usedUTXOs List.length].
    unfold Pool.splice_start, JS.splice1. cbn [firstn app].
    rewrite skipn_skipn_add. reflexivity.
Qed.

Lemma findIndex_bound {A} (f : A -> bool) l i :
  JS.findIndex f l = Some i -> exists x, nth_error l i = Some x /\ f x = true.
Proof.
  intros E. destruct (findIndex_find _ _ _ E) as (x & Hf & Hn).
  exists x. split; [exact Hn|]. apply find_some in Hf. tauto.
Qed.

Lemma remove_claimant_run input p :
  exists q, Pool.remove_claimant input p = (Return tt, q) /\ left_of p q
            /\ (find (Txs.refers_to (in_hash input) (in_index input)) (Pool.usedUTXOs p) = None
                -> q = p).
Proof.
  unfold Pool.remove_claimant. unfold bind at 1, get at 1.
  destruct (find (Txs.refers_to (in_hash input) (in_index input)) (Pool.usedUTXOs p))
    as [usedUTXO|]; [|exists p; split; [reflexivity | split; [apply left_of_refl | reflexivity]]].
  destruct (Pool.findTxIndex usedUTXO (Pool.pool_txs p)) as [i|] eqn:Ei;
    [|exists p; split; [reflexivity | split; [apply left_of_refl | discriminate]]].
  unfold Pool.findTxIndex in Ei. apply findIndex_bound in Ei. destruct Ei as (t & Hn & _).
  rewrite Hn. unfold bind at 1. rewrite release_inputs_run. unfold modify.
  cbn [Pool.pool_txs Pool.usedUTXOs].
  eexists. split; [reflexivity|]. split; [|discriminate].
  split; cbn [Pool.pool_txs Pool.usedUTXOs]; [apply splice1_sublist | eexists; reflexivity].
Qed.

Lemma remove_claimants_run ins : forall p,
  exists q, Pool.remove_claimants ins p = (Return tt, q) /\ left_of p q
            /\ (Forall (fun input =>
                          find (Txs.refers_to (in_hash input) (in_index input))
                               (Pool.usedUTXOs p) = None) ins
                -> q = p).
Proof.
  induction ins as [|input ins IH]; intros p.
  - exists p. split; [reflexivity | split; [apply left_of_refl | reflexivity]].
  - cbn [Pool.remove_claimants]. unfold bind at 1.
    destruct (remove_claimant_run input p) as (q1 & -> & H1 & Hsame1).
    destruct (IH q1) as (q & -> & H2 & Hsame2).
    exists q. split; [reflexivity|]. split; [eapply left_of_trans; eassumption|].
    intros Hall. inversion Hall as [|? ? Hi Hrest]; subst.
    specialize (Hsame1 Hi). subst q1. apply Hsame2. exact Hrest.
Qed.

Definition is_user (tx : TxObject) : Prop :=
  match tx with UserTx _ => True | CoinbaseTx _ => False end.

(** The inputs of the user transactions of a block. *)
Definition block_inputs (btxs : list TxObject) : list Input :=
  flat_map (fun tx => match tx with UserTx t => inputs t | CoinbaseTx _ => [] end) btxs.

Lemma remove_each_run btxs : forall p,
  Forall is_user btxs ->
  exists q, Pool.remove_each btxs p = (Return tt, q) /\ left_of p q
            /\ (Forall (fun input =>
                          find (Txs.refers_to (in_hash input) (in_index input))
                               (Pool.usedUTXOs p) = None) (block_inputs btxs)
                -> q = p).
Proof.
  induction btxs as [|tx btxs IH]; intros p Hu.
  - exists p. split; [reflexivity | split; [apply left_of_refl | reflexivity]].
  - inversion Hu as [|? ? Htx Hrest]; subst. destruct tx as [t|cb]; [|destruct Htx].
    cbn [Pool.remove_each block_inputs flat_map]. unfold bind at 1.
    destruct (remove_claimants_run (inputs t) p) as (q1 & -> & H1 & Hsame1).
    destruct (IH q1 Hrest) as (q & -> & H2 & Hsame2).
    exists q. split; [reflexivity|]. split; [eapply left_of_trans; eassumption|].
    intros Hall. apply Forall_app in Hall. destruct Hall as [Ha Hb].
    specialize (Hsame1 Ha). subst q1. apply Hsame2. exact Hb.
Qed.

(** X13: on a block whose transactions before the last are user
    transactions, as in every block that [addBlock] has accepted,
    [removeBlockTxs] does not throw, and it only removes: the pooled
    transactions it leaves are some of those it found, in their order, and
    [usedUTXOs] has lost its first few entries.  When no input of the block
    is claimed in [usedUTXOs] the pool is unchanged. *)
Theorem removeBlockTxs_only_removes :
  forall (block : Block) (p : Pool.pool),
    Forall is_user (removelast (txs block)) ->
    exists q,
      Pool.removeBlockTxs block p = (Return tt, q)
      /\ sublist (Pool.pool_txs q) (Pool.pool_txs p)
      /\ (exists k, Pool.usedUTXOs q = skipn k (Pool.usedUTXOs p))
      /\ (Forall (fun input =>
                    find (Txs.refers_to (in_hash input) (in_index input))
                         (Pool.usedUTXOs p) = None)
                 (block_inputs (removelast (txs block)))
          -> q = p).
Proof.
  intros block p Hu. unfold Pool.removeBlockTxs.
  destruct (remove_each_run _ p Hu) as (q & E & [Hs Hk] & Hsame).
  exists q. split; [exact E | split; [exact Hs | split; [exact Hk | exact Hsame]]].
Qed.

End EvictionBounds.

(** * The inputs that the wallet selects *)

Section WalletSelection.
Context `{Crypto}.

(** The test of the loop of [makeTx] after the UTXOs [us], with [n] inputs
    and the amount [amt] taken before them: [amountInput >= amountSent + 1 +
    tx.inputs.length], both sides as the doubles that the code computes. *)
Definition covers (amountSent : Z) (n : nat) (amt : Z) (us : list UTXO) : Prop :=
  needed amountSent (n + List.length us) <= sum_from amt (amounts us).

(** The same test on the integers. *)
Definition covers_exactly (amountSent : Z) (us : list UTXO) : Prop :=
  amountSent + 1 + Z.of_nat (List.length us) <= amount_sum us.

Lemma amount_sum_app a b : amount_sum (a ++ b) = amount_sum a + amount_sum b.
Proof. unfold amount_sum. induction a as [|u a IH]; cbn [app fold_right]; lia. Qed.

Lemma covers_cons amountSent n amt u us :
  covers amountSent n amt (u :: us)
  <-> covers amountSent (n + 1) (Num.plus amt (utxo_amount u)) us.
Proof.
  unfold covers. cbn [List.length amounts map sum_from fold_left].
  replace (n + S (List.length us))%nat with (n + 1 + List.length us)%nat by lia.
  reflexivity.
Qed.

(** The loop of [makeTx] stops at the first UTXO with which the amount is
    covered, or takes them all. *)
Lemma gather_greedy amountSent us : forall ins amt,
  exists chosen rest,
    us = chosen ++ rest
    /\ Wallet.gather amountSent us (ins, amt)
       = (ins ++ map outpoint_of_utxo chosen, sum_from amt (amounts chosen))
    /\ (forall shorter more,
          chosen = shorter ++ more -> shorter <> [] -> more <> [] ->
          ~ covers amountSent (List.length ins) amt shorter)
    /\ (rest <> [] -> covers amountSent (List.length ins) amt chosen)
    /\ (us <> [] -> chosen <> []).
Proof.
  induction us as [|u us IH]; intros ins amt.
  - exists [], []. cbn [Wallet.gather map amounts sum_from fold_left app].
    rewrite app_nil_r. repeat split; try reflexivity.
    + intros shorter more E. symmetry in E. apply app_eq_nil in E. tauto.
    + intros Hne. congruence.
    + intros Hne. congruence.
  - cbn [Wallet.gather fst snd].
    destruct (Num.plus amt (utxo_amount u) >=?
              Num.plus (Num.plus amountSent 1)
                (Z.of_nat (List.length (ins ++ [{| op_hash := utxo_hash u; op_index := utxo_index u |}]))))
      eqn:Ec.
    + exists [u], us. cbn [map app].
      repeat split; try reflexivity.
      * intros shorter more E Hs Hm. exfalso.
        destruct shorter as [|a [|b shorter]]; [congruence| |discriminate E].
        inversion E; subst. congruence.
      * intros _. unfold covers, needed. cbn [List.length amounts map sum_from fold_left].
        rewrite Z.geb_leb in Ec. apply Z.leb_le in Ec.
        rewrite length_app in Ec. cbn [List.length] in Ec. exact Ec.
      * intros _. discriminate.
    + rewrite Z.geb_leb in Ec. apply Z.leb_gt in Ec.
      rewrite length_app in Ec. cbn [List.length] in Ec.
      destruct (IH (ins ++ [{| op_hash := utxo_hash u; op_index := utxo_index u |}])
                   (Num.plus amt (utxo_amount u)))
        as (chosen & rest & Hsplit & Hg & Hshort & Hcov & Hne).
      rewrite length_app in Hshort, Hcov. cbn [List.length] in Hshort, Hcov.
      exists (u :: chosen), rest. rewrite Hg. cbn [map app].
      rewrite <- app_assoc. cbn [app].
      unfold outpoint_of_utxo at 2.
      split; [rewrite Hsplit; reflexivity|].
      split; [reflexivity|].
      split; [|split].
      * intros shorter more E Hs Hm.
        destruct shorter as [|a shorter]; [congruence|].
        cbn [app] in E. inversion E; subst a.
        destruct shorter as [|b shorter].
        -- unfold covers, needed. cbn [List.length amounts map sum_from fold_left]. lia.
        -- rewrite covers_cons.
           apply (Hshort (b :: shorter) more); [assumption | discriminate | assumption].
      * intros Hr. rewrite covers_cons. exact (Hcov Hr).
      * intros _. discriminate.
Qed.

Lemma amount_sum_ge_length us :
  Forall (fun u => 1 <= utxo_amount u) us -> Z.of_nat (List.length us) <= amount_sum us.
Proof.
  induction 1 as [|u us Hu _ IH]; cbn [List.length amount_sum fold_right]; [lia|].
  fold (amount_sum us). lia.
Qed.

Lemma covers_test amountSent us b :
  (sum_from 0 (amounts us)
   <? Num.plus (Num.plus amountSent 1) (Z.of_nat (List.length us))) = b ->
  (covers amountSent 0 0 us <-> b = false).
Proof.
  intros <-. unfold covers, needed. rewrite Z.ltb_ge. cbn [Nat.add]. reflexivity.
Qed.

(** Nothing is covered before the first UTXO is taken. *)
Lemma covers_nothing amountSent : 2 < amountSent -> ~ covers amountSent 0 0 [].
Proof.
  intros Ha. unfold covers, needed, Num.plus.
  cbn [List.length amounts map sum_from fold_left Nat.add Z.of_nat].
  rewrite Z.add_0_r.
  assert (0 < F64.round (amountSent + 1)) as H1 by (apply round_pos_iff; lia).
  assert (0 < F64.round (F64.round (amountSent + 1))) as H2 by (apply round_pos_iff; exact H1).
  lia.
Qed.

(** Where every integer is a double the test is the one on the integers. *)
Lemma covers_in_exact_range amountSent U pre post :
  in_exact_range amountSent U -> 2 < amountSent ->
  filter own U = pre ++ post ->
  (covers amountSent 0 0 pre <-> covers_exactly amountSent pre).
Proof.
  intros Hrange Ha Hsplit.
  destruct (makeTx_exact _ _ _ _ Hrange Hsplit Ha) as (Hs & _ & Hn & _).
  unfold covers, covers_exactly. cbn [Nat.add]. rewrite Hs, Hn. reflexivity.
Qed.

(** X14: [makeTx] throws exactly when [amountSent] is at most 2.
    Otherwise it goes through the wallet's own UTXOs in the order of the
    set and takes the shortest run of them, from the first, with which the
    test of its loop passes: the amounts, added up in double precision,
    reach [amountSent + 1] plus the number of inputs, as a double too; it
    returns [false] exactly when no such run exists.  While the amounts stay
    where every integer is a double, the test passes exactly when the
    amounts cover [amountSent], the burn of 1 and the fee of 1 per input,
    and, when every own UTXO holds at least 1, [makeTx] returns [false]
    exactly when all of them together do not cover it. *)
Theorem makeTx_takes_the_shortest_cover :
  forall (amountSent : Z) (recipient : string) (U : list UTXO),
    (amountSent <= 2 <-> exists e, Wallet.makeTx amountSent recipient U = Throw e)
    /\ (forall tx,
          Wallet.makeTx amountSent recipient U = Return (Some tx) ->
          exists chosen rest,
            filter own U = chosen ++ rest
            /\ map outpoint_of (inputs tx) = map outpoint_of_utxo chosen
            /\ covers amountSent 0 0 chosen
            /\ forall shorter more,
                 chosen = shorter ++ more -> more <> [] ->
                 ~ covers amountSent 0 0 shorter)
    /\ (2 < amountSent ->
        (Wallet.makeTx amountSent recipient U = Return None
         <-> forall pre post, filter own U = pre ++ post -> ~ covers amountSent 0 0 pre))
    /\ (2 < amountSent -> in_exact_range amountSent U ->
        (forall pre post,
            filter own U = pre ++ post ->
            (covers amountSent 0 0 pre <-> covers_exactly amountSent pre))
        /\ (Forall (fun u => 1 <= utxo_amount u) (filter own U) ->
            (Wallet.makeTx amountSent recipient U = Return None
             <-> ~ covers_exactly amountSent (filter own U)))).
Proof.
  intros amountSent recipient U.
  unfold Wallet.makeTx. fold own.
  destruct (gather_greedy amountSent (filter own U) [] 0)
    as (chosen & rest & Hsplit & Hg & Hshort & Hcov & Hne).
  rewrite Hg. cbn [app List.length] in *. rewrite length_map.
  destruct (amountSent <=? 2) eqn:Ea.
  - apply Z.leb_le in Ea. split; [|split; [|split]].
    + split; [eauto | intros _; exact Ea].
    + intros tx E. discriminate E.
    + intros Hgt. lia.
    + intros Hgt. lia.
  - apply Z.leb_gt in Ea.
    assert (forall shorter more, chosen = shorter ++ more -> more <> [] ->
                                 ~ covers amountSent 0 0 shorter) as Hshort'.
    { intros shorter more E Hm. destruct shorter as [|a shorter].
      - apply covers_nothing. exact Ea.
      - apply (Hshort (a :: shorter) more E); [discriminate | exact Hm]. }
    assert ((if sum_from 0 (amounts chosen)
                <? Num.plus (Num.plus amountSent 1) (Z.of_nat (List.length chosen))
             then true else false) = true
            <-> forall pre post, filter own U = pre ++ post -> ~ covers amountSent 0 0 pre)
      as Hnone.
    { destruct (sum_from 0 (amounts chosen)
                <? Num.plus (Num.plus amountSent 1) (Z.of_nat (List.length chosen))) eqn:Eb.
      - split; [|reflexivity]. intros _ pre post Hpre.
        assert (~ covers amountSent 0 0 chosen) as Hno
          by (rewrite (covers_test _ _ _ Eb); congruence).
        assert (rest = []) as ->
          by (destruct rest; [reflexivity | exfalso; apply Hno, Hcov; discriminate]).
        rewrite app_nil_r in Hsplit. rewrite Hsplit in Hpre.
        destruct post as [|b post].
        + rewrite app_nil_r in Hpre. subst pre. exact Hno.
        + apply (Hshort' pre (b :: post) Hpre). discriminate.
      - split; [discriminate|]. intros Hall. exfalso.
        apply (Hall chosen rest Hsplit). apply (covers_test _ _ _ Eb). reflexivity. }
    split; [|split; [|split]].
    + split; [lia|]. intros [e E].
      destruct (sum_from 0 (amounts chosen)
                <? Num.plus (Num.plus amountSent 1) (Z.of_nat (List.length chosen)));
        discriminate E.
    + intros tx E.
      destruct (sum_from 0 (amounts chosen)
                <? Num.plus (Num.plus amountSent 1) (Z.of_nat (List.length chosen))) eqn:Eb;
        [discriminate E|].
      inversion E as [Etx]. clear E. exists chosen, rest.
      split; [exact Hsplit|]. split.
      * cbn [inputs]. rewrite map_map. unfold outpoint_of, outpoint_of_utxo. cbn.
        clear. induction chosen as [|u l IH]; [reflexivity|]. cbn [map]. f_equal. exact IH.
      * split; [apply (covers_test _ _ _ Eb); reflexivity | exact Hshort'].
    + intros _. rewrite <- Hnone.
      destruct (sum_from 0 (amounts chosen)
                <? Num.plus (Num.plus amountSent 1) (Z.of_nat (List.length chosen)));
        split; intros E; try reflexivity; discriminate E.
    + intros _ Hrange.
      assert (forall pre post, filter own U = pre ++ post ->
                (covers amountSent 0 0 pre <-> covers_exactly amountSent pre)) as Hexact
        by (intros pre post Hpre; exact (covers_in_exact_range _ _ _ _ Hrange Ea Hpre)).
      split; [exact Hexact|]. intros Hall.
      assert ((if sum_from 0 (amounts chosen)
                  <? Num.plus (Num.plus amountSent 1) (Z.of_nat (List.length chosen))
               then true else false) = true
              <-> ~ covers_exactly amountSent (filter own U)) as Hiff.
      { rewrite Hnone. split.
        - intros Hno. rewrite <- (Hexact (filter own U) []) by (symmetry; apply app_nil_r).
          apply (Hno (filter own U) []). symmetry. apply app_nil_r.
        - intros Hno pre post Hpre. rewrite (Hexact pre post Hpre). intros Hyes.
          apply Hno. rewrite Hpre in Hall |- *.
          apply Forall_app in Hall. destruct Hall as [_ Hpost].
          apply amount_sum_ge_length in Hpost.
          unfold covers_exactly in *. rewrite amount_sum_app, length_app, Nat2Z.inj_add. lia. }
      rewrite <- Hiff.
      destruct (sum_from 0 (amounts chosen)
                <? Num.plus (Num.plus amountSent 1) (Z.of_nat (List.length chosen)));
        split; intros E; try reflexivity; discriminate E.
Qed.

End WalletSelection.

(** * The handlers of the node *)

Section NodeFacts.
Context `{Crypto} {engine : Engine}.

Lemma add_txs_users l : forall s s',
  Blocks.add_txs l s = (Return tt, s') -> Forall is_user l.
Proof.
  induction l as [|tx l IH]; intros s s' E; [constructor|].
  cbn [Blocks.add_txs] in E. unfold bind at 1 in E.
  destruct s as [btxs U].
  destruct (Txs.addTx tx (btxs, U)) as [[b|e] s1] eqn:E1; [|discriminate E].
  apply addTx_ok in E1. destruct E1 as (t & idxs & -> & _).
  constructor; [exact I | eapply IH; exact E].
Qed.

(** The transactions before the coinbase of an accepted block are user
    transactions. *)
Lemma accepted_block_users now block s s' :
  Blocks.addBlock now block s = (Return tt, s') -> Forall is_user (removelast (txs block)).
Proof.
  destruct s as [chain U]. intros E. apply addBlock_sound in E.
  destruct E as (prev & vU & _ & _ & _ & _ & _ & _ & _ & _ & _ & Hre & _).
  unfold Blocks.rebuild_txs in Hre. unfold bind at 1 in Hre.
  destruct (Blocks.add_txs (removelast (txs block)) ([], U)) as [[[]|e] s1] eqn:E1;
    [|discriminate Hre].
  eapply add_txs_users. exact E1.
Qed.

Lemma last_block_snoc chain b : Blocks.last_block (chain ++ [b]) = Some b.
Proof. unfold Blocks.last_block. apply last_of_snoc. Qed.

Lemma onMessage_block_accepted now block n s' :
  Blocks.addBlock now block (fst n) = (Return tt, s') ->
  exists q,
    Node.onMessage now (Node.LATESTBLOCK block) n
    = (Return [Node.SentTip Node.Others (Some block)], (s', q))
    /\ Pool.removeBlockTxs block (snd n) = (Return tt, q)
    /\ left_of (snd n) q
    /\ fst s' = fst (fst n) ++ [block].
Proof.
  intros E.
  destruct (remove_each_run _ (snd n) (accepted_block_users _ _ _ _ E)) as (q & Eq & Hl & _).
  fold (Pool.removeBlockTxs block) in Eq.
  assert (fst s' = fst (fst n) ++ [block]) as Hc.
  { destruct (fst n) as [chain U]. apply addBlock_ok in E. tauto. }
  exists q. split; [|repeat split; try assumption; apply Hl].
  unfold Node.onMessage, Node.try_catch.
  unfold bind at 1, Node.on_chain at 1. rewrite E. cbv beta iota.
  unfold bind at 1, Node.on_pool at 1. cbn [snd fst]. rewrite Eq. cbv beta iota.
  unfold Node.broadcastBlock, bind, get, ret. cbn [fst]. rewrite Hc, last_block_snoc.
  reflexivity.
Qed.

(** The spread of [addBlock] threw on the block [block]: every check had
    passed, the block is on the chain, and the UTXO set and the pool are
    those before the block. *)
Definition commit_overflowed (block : Block) (n n' : Node.node) : Prop :=
  n' = ((fst (fst n) ++ [block], snd (fst n)), snd n)
  /\ exists vU,
       Blocks.rebuild_txs block ([], snd (fst n)) = (Return tt, (txs block, vU))
       /\ spread_limit < 2 + Z.of_nat (List.length vU).

Lemma addBlock_throws_on_node now block (n : Node.node) e s' :
  Blocks.addBlock now block (fst n) = (Throw e, s') ->
  s' = fst n \/ (e = "RangeError"%string /\ commit_overflowed block n (s', snd n)).
Proof.
  destruct n as [[chain U] p]. cbn [fst snd]. intros E.
  apply addBlock_throws in E.
  destruct E as [->|(-> & -> & _ & _ & vU & Hre & Hlim)]; [left; reflexivity|].
  right. split; [reflexivity|]. split; [reflexivity|]. exists vU. split; assumption.
Qed.

Lemma onMessage_block_rejected now block n e s' :
  Blocks.addBlock now block (fst n) = (Throw e, s') ->
  Node.onMessage now (Node.LATESTBLOCK block) n
  = (Return [Node.SentChain Node.Sender (fst s')], (s', snd n)).
Proof.
  intros E.
  unfold Node.onMessage, Node.try_catch.
  unfold bind at 1, Node.on_chain at 1. rewrite E. cbv beta iota.
  unfold Node.sendChain, bind, get, ret. cbn [fst snd]. reflexivity.
Qed.

Lemma onMessage_chain_invalid now chain n e s' :
  Blocks.swapChains now chain (fst n) = (Throw e, s') ->
  Node.onMessage now (Node.BLOCKCHAIN chain) n = (Return [Node.Logged e], n).
Proof.
  intros E. pose proof (swapChains_atomic now chain _ _ _ E) as ->.
  unfold Node.onMessage, Node.try_catch.
  unfold bind at 1, Node.on_chain at 1. rewrite E. cbv beta iota.
  unfold ret. destruct n; reflexivity.
Qed.

Lemma swapChains_keeps now chain s increase s' :
  Blocks.swapChains now chain s = (Return increase, s') ->
  (0 <? increase) = false -> s' = s.
Proof.
  intros E Hinc. rewrite swapChains_unfold in E.
  destruct (Blocks.add_blocks now (skipn 1 chain) (Blocks.genesisChain, Blocks.genesisUTXOs))
    as [[[]|e] [validated validatedUTXOs]]; [|discriminate E].
  cbv zeta in E. injection E as Ei Es. rewrite Ei, Hinc in Es.
  symmetry. exact Es.
Qed.

Lemma onMessage_chain_valid now chain n increase s' :
  Blocks.swapChains now chain (fst n) = (Return increase, s') ->
  Node.onMessage now (Node.BLOCKCHAIN chain) n
  = if 0 <? increase
    then (Return [Node.SentTip Node.Others (Blocks.last_block (fst s'))],
          (s', Node.empty_pool))
    else if increase <? 0
         then (Return [Node.SentChain Node.Sender (fst (fst n))], n)
         else (Return [], n).
Proof.
  intros E.
  unfold Node.onMessage, Node.try_catch.
  unfold bind at 1, Node.on_chain at 1. rewrite E. cbv beta iota. unfold F64.ltb.
  destruct (0 <? increase) eqn:Hinc.
  - reflexivity.
  - rewrite (swapChains_keeps _ _ _ _ _ E Hinc).
    destruct (increase <? 0); unfold Node.sendChain, bind, get, ret; cbn [fst snd];
      destruct n; reflexivity.
Qed.

Lemma onMessage_tx now tx n :
  Node.onMessage now (Node.TRANSACTION tx) n
  = match Pool.addTx tx (snd n, snd (fst n)) with
    | (Return true, (p', _)) => (Return [Node.SentTx Node.Others tx], (fst n, p'))
    | (Return false, _) => (Return [], n)
    | (Throw e, _) => (Return [Node.Logged e], n)
    end.
Proof.
  unfold Node.onMessage, Node.try_catch.
  unfold bind at 1, Node.on_pool_and_UTXOs at 1.
  destruct n as [[chain U] p]. cbn [fst snd].
  destruct (pool_addTx_cases tx p U) as [E|(t & -> & Hv & Hfree & E)].
  - destruct (Pool.addTx tx (p, U)) as [[[]|e] [p' U']]; cbn [snd] in E;
      inversion E; subst; reflexivity.
  - rewrite E. reflexivity.
Qed.

Lemma onMessage_unknown now type n :
  Node.onMessage now (Node.UNKNOWN type) n
  = (Return [Node.Logged "Unknown message type"], n).
Proof. reflexivity. Qed.

(** X15: how [onMessage] answers.  A block that [addBlock] accepts is
    appended to the chain, the pool loses entries at most, and the block is
    sent on to the other peers.  When [addBlock] throws, the sender is sent
    the node's chain as [addBlock] left it and the pool is not touched: a
    block that fails a check has changed nothing; a block that passed them
    all and whose UTXO set is more than a call takes as arguments is on the
    chain that is sent, and the UTXO set is the one before it.  A chain
    that does not validate is only logged; one with more work replaces the
    node's chain, empties the pool and has its last block sent to the other
    peers; one with less work is answered with the node's chain, and one
    with equal work is ignored.  A transaction is sent on to the other
    peers exactly when the pool took it, and leaves the chain and the UTXO
    set alone in every case. *)
Theorem onMessage_answers :
  forall (now : Z) (n : Node.node),
    (forall block s',
        Blocks.addBlock now block (fst n) = (Return tt, s') ->
        exists q,
          Node.onMessage now (Node.LATESTBLOCK block) n
          = (Return [Node.SentTip Node.Others (Some block)], (s', q))
          /\ Pool.removeBlockTxs block (snd n) = (Return tt, q)
          /\ left_of (snd n) q
          /\ fst s' = fst (fst n) ++ [block])
    /\ (forall block e s',
           Blocks.addBlock now block (fst n) = (Throw e, s') ->
           Node.onMessage now (Node.LATESTBLOCK block) n
           = (Return [Node.SentChain Node.Sender (fst s')], (s', snd n))
           /\ (s' = fst n
               \/ (e = "RangeError"%string /\ commit_overflowed block n (s', snd n))))
    /\ (forall chain e s',
           Blocks.swapChains now chain (fst n) = (Throw e, s') ->
           Node.onMessage now (Node.BLOCKCHAIN chain) n = (Return [Node.Logged e], n))
    /\ (forall chain increase s',
           Blocks.swapChains now chain (fst n) = (Return increase, s') ->
           Node.onMessage now (Node.BLOCKCHAIN chain) n
           = if 0 <? increase
             then (Return [Node.SentTip Node.Others (Blocks.last_block (fst s'))],
                   (s', Node.empty_pool))
             else if increase <? 0
                  then (Return [Node.SentChain Node.Sender (fst (fst n))], n)
                  else (Return [], n))
    /\ (forall tx,
           Node.onMessage now (Node.TRANSACTION tx) n
           = match Pool.addTx tx (snd n, snd (fst n)) with
             | (Return true, (p', _)) => (Return [Node.SentTx Node.Others tx], (fst n, p'))
             | (Return false, _) => (Return [], n)
             | (Throw e, _) => (Return [Node.Logged e], n)
             end)
    /\ (forall type,
           Node.onMessage now (Node.UNKNOWN type) n
           = (Return [Node.Logged "Unknown message type"], n)).
Proof.
  intros now n. split; [|split; [|split; [|split; [|split]]]].
  - intros block s'. apply onMessage_block_accepted.
  - intros block e s' E. split.
    + exact (onMessage_block_rejected _ _ _ _ _ E).
    + exact (addBlock_throws_on_node _ _ _ _ _ E).
  - intros chain e s'. apply onMessage_chain_invalid.
  - intros chain increase s'. apply onMessage_chain_valid.
  - intros tx. apply onMessage_tx.
  - intros type. apply onMessage_unknown.
Qed.


(** X16: whatever message arrives, [onMessage] returns, and the cumulative
    difficulty of the chain has not gone down.  Unless the spread of
    [addBlock] threw, the chain and the UTXO set it leaves are again a
    state that [addBlock] and [swapChains] reach from the genesis, and
    whenever the chain or the UTXO set has changed the new last block, and
    nothing else, has been sent to the other peers.  When the spread
    threw, on a block that had passed every check, that block is on the
    chain, the UTXO set and the pool are those before it, and the sender
    has been sent the chain.  A pool that is consistent stays so unless
    the message is a block. *)
Theorem onMessage_keeps_the_node_valid :
  forall (now : Z) (msg : Node.message) (n : Node.node),
    reachable now (fst n) ->
    exists events n',
      Node.onMessage now msg n = (Return events, n')
      /\ Work.chainDifficulty (fst (fst n)) <= Work.chainDifficulty (fst (fst n'))
      /\ ((reachable now (fst n')
           /\ (fst n' = fst n
               \/ events = [Node.SentTip Node.Others (Blocks.last_block (fst (fst n')))]))
          \/ (exists block,
                msg = Node.LATESTBLOCK block
                /\ Blocks.addBlock now block (fst n) = (Throw "RangeError"%string, fst n')
                /\ commit_overflowed block n n'
                /\ events = [Node.SentChain Node.Sender (fst (fst n'))]))
      /\ (consistent (snd n) ->
          match msg with
          | Node.LATESTBLOCK _ => True
          | _ => consistent (snd n')
          end).
Proof.
  intros now msg n Hr. destruct msg as [block|chain|tx|type].
  - destruct (Blocks.addBlock now block (fst n)) as [[[]|e] s'] eqn:E.
    + destruct (onMessage_block_accepted _ _ _ _ E) as (q & -> & _ & _ & Hc).
      do 2 eexists. split; [reflexivity|]. cbn [fst snd].
      split; [eapply addBlock_work_le; exact E|].
      split; [|exact (fun _ => I)].
      left. split; [eapply reach_addBlock; eassumption|].
      right. rewrite Hc, last_block_snoc. reflexivity.
    + rewrite (onMessage_block_rejected _ _ _ _ _ E).
      do 2 eexists. split; [reflexivity|]. cbn [fst snd].
      split; [eapply addBlock_work_le; exact E|].
      split; [|exact (fun _ => I)].
      destruct (addBlock_throws_on_node _ _ _ _ _ E) as [->|[-> Hover]].
      * left. split; [exact Hr | left; reflexivity].
      * right. exists block.
        split; [reflexivity|]. split; [exact E|]. split; [exact Hover | reflexivity].
  - destruct (Blocks.swapChains now chain (fst n)) as [[increase|e] s'] eqn:E.
    + rewrite (onMessage_chain_valid _ _ _ _ _ E).
      pose proof (swapChains_work_le _ _ _ _ _ E) as [Hw _].
      destruct (0 <? increase) eqn:Hinc.
      * do 2 eexists. split; [reflexivity|]. cbn [fst snd].
        split; [exact Hw|].
        split; [left; split; [eapply reach_swapChains; eassumption | right; reflexivity]|].
        intros _. split; [reflexivity | constructor].
      * destruct (increase <? 0); do 2 eexists; (split; [reflexivity|]);
          (split; [lia|]); (split; [left; split; [exact Hr | left; reflexivity]|]);
          intros Hc; exact Hc.
    + rewrite (onMessage_chain_invalid _ _ _ _ _ E).
      do 2 eexists. split; [reflexivity|].
      split; [lia|]. split; [left; split; [exact Hr | left; reflexivity]|].
      intros Hc; exact Hc.
  - rewrite onMessage_tx. destruct n as [[ch U] p]. cbn [fst snd] in *.
    destruct (pool_addTx_cases tx p U) as [E|(t & -> & Hv & Hfree & E)].
    + destruct (Pool.addTx tx (p, U)) as [[[]|e] [p' U']]; cbn [snd] in E;
        inversion E; subst; do 2 eexists; (split; [reflexivity|]); cbn [fst snd];
        (split; [lia|]); (split; [left; split; [exact Hr | left; reflexivity]|]);
        intros Hc; exact Hc.
    + rewrite E. do 2 eexists. split; [reflexivity|]. cbn [fst snd].
      split; [lia|]. split; [left; split; [exact Hr | left; reflexivity]|].
      intros Hc. apply accept_consistent; assumption.
  - rewrite onMessage_unknown. do 2 eexists. split; [reflexivity|].
    split; [lia|]. split; [left; split; [exact Hr | left; reflexivity]|].
    intros Hc; exact Hc.
Qed.

Lemma mineAttempt_unfold now now' random_nonce n :
  Node.mineAttempt now now' random_nonce n
  = match Miner.mineBlock now random_nonce (Pool.pool_txs (snd n)) wallet_publicKey
            (fst (fst n)) with
    | Throw e => (Throw e, n)
    | Return None => (Return [], n)
    | Return (Some block) =>
        match Blocks.addBlock now' block (fst n) with
        | (Throw e, s') => (Throw e, (s', snd n))
        | (Return _, s') =>
            match Pool.removeBlockTxs block (snd n) with
            | (Throw e, q) => (Throw e, (s', q))
            | (Return _, q) =>
                (Return [Node.SentTip Node.Everyone (Blocks.last_block (fst s'))], (s', q))
            end
        end
    end.
Proof.
  unfold Node.mineAttempt. unfold bind at 1, get at 1. cbv beta iota.
  unfold Node.node, Blocks.state.
  match goal with
  | |- context [Miner.mineBlock ?a ?b ?c ?d ?e] =>
      destruct (Miner.mineBlock a b c d e) as [[block|]|e0]; [|reflexivity|reflexivity]
  end.
  unfold bind at 1, Node.on_chain at 1. unfold Node.node, Blocks.state.
  match goal with
  | |- context [Blocks.addBlock ?a ?b ?c] =>
      destruct (Blocks.addBlock a b c) as [[[]|e1] s']; [|reflexivity]
  end.
  unfold bind at 1, Node.on_pool at 1. cbn [snd fst]. unfold Node.node, Blocks.state.
  match goal with
  | |- context [Pool.removeBlockTxs ?a ?b] =>
      destruct (Pool.removeBlockTxs a b) as [[[]|e2] q]; reflexivity
  end.
Qed.

(** X17: when [mineAttempt] throws it has changed nothing, unless what
    is thrown is the RangeError of the spread of [addBlock]: the block that
    [mineBlock] returned had passed every check and is on the chain, and
    the UTXO set and the pool are those before it.  When it returns, the
    chain and the UTXO set are again a state reached from the genesis and
    the cumulative difficulty has not gone down; either no block was found
    and nothing has changed, or the block that [mineBlock] returned is the
    new last block, it has been sent to every peer, and the pool has lost
    entries at most. *)
Theorem mineAttempt_appends_what_it_mined :
  forall (now now' random_nonce : Z) (n : Node.node),
    reachable now' (fst n) ->
    (forall e n',
        Node.mineAttempt now now' random_nonce n = (Throw e, n') ->
        n' = n
        \/ (e = "RangeError"%string
            /\ exists block,
                 Miner.mineBlock now random_nonce (Pool.pool_txs (snd n)) wallet_publicKey
                   (fst (fst n)) = Return (Some block)
                 /\ commit_overflowed block n n'))
    /\ (forall events n',
          Node.mineAttempt now now' random_nonce n = (Return events, n') ->
          reachable now' (fst n')
          /\ Work.chainDifficulty (fst (fst n)) <= Work.chainDifficulty (fst (fst n'))
          /\ ((events = [] /\ n' = n)
              \/ exists block,
                   Miner.mineBlock now random_nonce (Pool.pool_txs (snd n)) wallet_publicKey
                     (fst (fst n)) = Return (Some block)
                   /\ fst (fst n') = fst (fst n) ++ [block]
                   /\ events = [Node.SentTip Node.Everyone (Some block)]
                   /\ left_of (snd n) (snd n'))).
Proof.
  intros now now' random_nonce n Hr. rewrite mineAttempt_unfold.
  destruct (Miner.mineBlock now random_nonce (Pool.pool_txs (snd n)) wallet_publicKey
              (fst (fst n))) as [[block|]|e0] eqn:Em.
  - destruct (Blocks.addBlock now' block (fst n)) as [[[]|e1] s'] eqn:E.
    + destruct (remove_each_run _ (snd n) (accepted_block_users _ _ _ _ E))
        as (q & Eq & Hl & _).
      fold (Pool.removeBlockTxs block) in Eq. rewrite Eq.
      assert (fst s' = fst (fst n) ++ [block]) as Hc.
      { destruct (fst n) as [chain U]. apply addBlock_ok in E. tauto. }
      rewrite Hc, last_block_snoc.
      split; [intros e n' Ex; discriminate Ex|].
      intros events n' Ex. inversion Ex; subst events n'. cbn [fst snd].
      split; [eapply reach_addBlock; eassumption|].
      split; [eapply addBlock_work_le; exact E|].
      right. exists block.
      split; [reflexivity|]. split; [exact Hc|]. split; [reflexivity | exact Hl].
    + split; [|intros events n' Ex; discriminate Ex].
      intros e n' Ex. inversion Ex; subst e n'.
      destruct (addBlock_throws_on_node _ _ _ _ _ E) as [->|[-> Hover]].
      * left. destruct n; reflexivity.
      * right. split; [reflexivity|]. exists block. split; [reflexivity | exact Hover].
  - split; [intros e n' Ex; discriminate Ex|].
    intros events n' Ex. inversion Ex; subst.
    split; [exact Hr|]. split; [lia|]. left. split; reflexivity.
  - split; [|intros events n' Ex; discriminate Ex].
    intros e n' Ex. inversion Ex. left. reflexivity.
Qed.

End NodeFacts.

(** * The errors a computation can throw *)

Section ErrorFacts.

(** Every exception of [m] satisfies [P]. *)
Definition throws_only {S A} (P : string -> Prop) (m : M S A) : Prop :=
  forall s e s', m s = (Throw e, s') -> P e.

Lemma throws_only_ret {S A} P (a : A) : throws_only P (@ret S A a).
Proof. intros s e s' E. discriminate E. Qed.

Lemma throws_only_get {S} P : throws_only P (@get S).
Proof. intros s e s' E. discriminate E. Qed.

Lemma throws_only_modify {S} P f : throws_only P (@modify S f).
Proof. intros s e s' E. discriminate E. Qed.

Lemma throws_only_throw {S A} (P : string -> Prop) e : P e -> throws_only P (@throw S A e).
Proof. intros He s e' s' E. inversion E; subst. exact He. Qed.

Lemma throws_only_bind {S A B} P (m : M S A) (k : A -> M S B) :
  throws_only P m -> (forall a, throws_only P (k a)) -> throws_only P (bind m k).
Proof.
  intros Hm Hk s e s' E. unfold bind in E.
  destruct (m s) as [[a|e1] s1] eqn:E1.
  - eapply Hk; exact E.
  - inversion E; subst. eapply Hm; exact E1.
Qed.

Lemma throws_only_call_on_fresh {S L A} P (m : M L A) (l : L) :
  throws_only P m -> throws_only P (@call_on_fresh S L A m l).
Proof.
  intros Hm s e s' E. unfold call_on_fresh in E.
  destruct (m l) as [[a|e1] l'] eqn:E1; [discriminate E|].
  inversion E; subst. eapply Hm; exact E1.
Qed.

End ErrorFacts.

(** Proves [throws_only P m] by following the structure of [m]; [IH] is
    the induction hypothesis of a loop and [known] proves the calls. *)
Ltac prove_throws_only IH known :=
  repeat first
    [ apply throws_only_ret | apply throws_only_get | apply throws_only_modify
    | apply throws_only_throw; solve [ intros Heq; discriminate Heq ]
    | apply IH
    | solve [ known ]
    | apply throws_only_bind; [ | intros ? ]
    | progress split_cases ].

(** * Sending from the wallet *)

Section SendFacts.
Context `{Crypto}.

Definition pool_refusal : string := "Transaction uses input UTXOs already used in pool".

Definition not_refusal (e : string) : Prop := e <> pool_refusal.

Lemma validate_inputs_errors ins acc : throws_only not_refusal (Txs.validate_inputs ins acc).
Proof.
  revert acc. induction ins as [|input rest IH]; intros acc; simpl;
    unfold not_refusal, pool_refusal; prove_throws_only IH idtac.
Qed.

Lemma validate_outputs_errors outs acc : throws_only not_refusal (Txs.validate_outputs outs acc).
Proof.
  revert acc. induction outs as [|output rest IH]; intros acc; simpl;
    unfold not_refusal, pool_refusal; prove_throws_only IH idtac.
Qed.

Lemma validate_signatures_errors h ins idxs vinputs :
  throws_only not_refusal (Txs.validate_signatures h ins idxs vinputs).
Proof.
  revert idxs vinputs.
  induction ins as [|input rest IH]; intros idxs vinputs; simpl;
    unfold not_refusal, pool_refusal; prove_throws_only IH idtac.
Qed.

Ltac txs_errors :=
  first [ apply validate_inputs_errors | apply validate_outputs_errors
        | apply validate_signatures_errors ].

Lemma addTx_errors tx : throws_only not_refusal (Txs.addTx tx).
Proof.
  destruct tx as [tx|cb]; simpl; unfold not_refusal, pool_refusal;
    prove_throws_only I txs_errors.
Qed.


Lemma claim_inputs_errors ins acc : throws_only not_refusal (Pool.claim_inputs ins acc).
Proof.
  revert acc. induction ins as [|input rest IH]; intros acc; simpl;
    unfold not_refusal, pool_refusal; prove_throws_only IH idtac.
Qed.

Lemma pool_addTx_errors tx : throws_only not_refusal (Pool.addTx tx).
Proof.
  unfold Pool.addTx.
  apply throws_only_bind; [apply throws_only_get | intros s].
  apply throws_only_bind;
    [apply throws_only_call_on_fresh, addTx_errors | intros r].
  destruct (negb (fst r));
    [apply throws_only_throw; intros Heq; discriminate Heq|].
  destruct tx as [t|cb]; [|apply throws_only_throw; intros Heq; discriminate Heq].
  apply throws_only_bind; [apply claim_inputs_errors | intros c].
  destruct c as [inputUTXOs|]; [|apply throws_only_ret].
  repeat (apply throws_only_bind; [apply throws_only_modify | intros ?]).
  apply throws_only_ret.
Qed.

(** [send], by what [makeTx] and [Pool.addTx] answer. *)
Lemma send_unfold amountSent recipient n :
  Node.send amountSent recipient n
  = match Wallet.makeTx amountSent recipient
            (filter (Node.unused (snd n)) (snd (fst n))) with
    | Throw e => (Return [Node.Logged e], n)
    | Return None =>
        (Return [Node.Logged "Insufficient balance (not including unconfirmed change)"], n)
    | Return (Some tx) =>
        match Pool.addTx (UserTx tx) (snd n, snd (fst n)) with
        | (Return true, (p', _)) =>
            (Return [Node.SentTx Node.Everyone (UserTx tx)], (fst n, p'))
        | (Return false, _) => (Return [Node.Logged pool_refusal], n)
        | (Throw e, _) => (Return [Node.Logged e], n)
        end
    end.
Proof.
  destruct n as [[chain U] p].
  unfold Node.send, Node.try_catch. unfold bind at 1, get at 1. cbv beta iota.
  cbn [fst snd].
  destruct (Wallet.makeTx amountSent recipient (filter (Node.unused p) U))
    as [[tx|]|e0]; [|reflexivity|reflexivity].
  unfold bind at 1, Node.on_pool_and_UTXOs at 1. cbn [fst snd].
  destruct (pool_addTx_cases (UserTx tx) p U) as [E|(t & Et & Hv & Hfree & E)].
  - destruct (Pool.addTx (UserTx tx) (p, U)) as [[[]|e] [p' U']]; cbn [snd] in E;
      inversion E; subst; reflexivity.
  - rewrite E. reflexivity.
Qed.

Lemma input_key_to_input sig u : input_key (to_input sig u) = key_of u.
Proof. reflexivity. Qed.

(** The wallet, given the UTXOs that [findTxIndex] does not find, selects
    none that the pool has claimed. *)
Lemma makeTx_inputs_unclaimed amountSent recipient p U tx :
  consistent p ->
  Wallet.makeTx amountSent recipient (filter (Node.unused p) U) = Return (Some tx) ->
  existsb (claimed (Pool.usedUTXOs p)) (inputs tx) = false.
Proof.
  intros [Hused _] Hm.
  destruct (makeTx_spec _ _ _ _ Hm) as (chosen & rest & Hsplit & _ & _ & _ & Htx).
  cbv zeta in Htx.
  destruct (existsb (claimed (Pool.usedUTXOs p)) (inputs tx)) eqn:Ex; [|reflexivity].
  exfalso. apply existsb_exists in Ex. destruct Ex as (input & Hin & Hc).
  rewrite Htx in Hin. cbn [inputs] in Hin. apply in_map_iff in Hin.
  destruct Hin as (u & <- & Hu).
  apply claimed_iff in Hc. rewrite input_key_to_input, Hused in Hc.
  assert (In u (filter own (filter (Node.unused p) U))) as Hu'
    by (rewrite Hsplit; apply in_or_app; left; exact Hu).
  apply filter_In in Hu'. destruct Hu' as [Hu' _].
  apply filter_In in Hu'. destruct Hu' as [_ Hfree].
  unfold Node.unused in Hfree.
  destruct (Pool.findTxIndex u (Pool.pool_txs p)) eqn:Ef; [discriminate Hfree|].
  apply findTxIndex_none in Ef. exact (Ef Hc).
Qed.

(** X18: with a consistent pool the command [send] never reports that the
    transaction uses inputs already used in the pool: [makeTx] is given the
    UTXOs that no pooled transaction spends, so what it builds is either
    thrown out by the validator or taken by the pool.  [send] leaves the
    chain and the UTXO set alone and the pool consistent; when it fails it
    logs the error and changes nothing, and when it succeeds the
    transaction validates against the UTXO set, is in the pool with its
    inputs claimed, and has been sent to every peer. *)
Theorem send_is_never_refused_by_the_pool :
  forall (amountSent : Z) (recipient : string) (n : Node.node),
    consistent (snd n) ->
    exists events n',
      Node.send amountSent recipient n = (Return events, n')
      /\ fst n' = fst n
      /\ consistent (snd n')
      /\ ((exists e, events = [Node.Logged e] /\ e <> pool_refusal /\ n' = n)
          \/ exists tx,
               Wallet.makeTx amountSent recipient
                 (filter (Node.unused (snd n)) (snd (fst n))) = Return (Some tx)
               /\ validates (snd (fst n)) (UserTx tx)
               /\ events = [Node.SentTx Node.Everyone (UserTx tx)]
               /\ snd n' = accept (snd n) (snd (fst n)) tx).
Proof.
  intros amountSent recipient n Hc. rewrite send_unfold.
  destruct n as [[chain U] p]. cbn [fst snd] in *.
  destruct (Wallet.makeTx amountSent recipient (filter (Node.unused p) U))
    as [[tx|]|e0] eqn:Em.
  - pose proof (makeTx_inputs_unclaimed _ _ _ _ _ Hc Em) as Hfree.
    destruct (Txs.addTx (UserTx tx) ([], U)) as [[b|e] s1] eqn:E.
    + pose proof E as E'. apply addTx_ok in E'.
      destruct E' as (t & idxs & Et & -> & _ & _). inversion Et; subst t.
      assert (validates U (UserTx tx)) as Hv by (unfold validates; rewrite E; reflexivity).
      rewrite (pool_addTx_run tx p U Hv), Hfree.
      do 2 eexists. split; [reflexivity|]. cbn [fst snd].
      split; [reflexivity|]. split; [apply accept_consistent; assumption|].
      right. exists tx. repeat split; assumption.
    + destruct (Pool.addTx (UserTx tx) (p, U)) as [[b|e1] s2] eqn:Ep.
      * exfalso. unfold Pool.addTx in Ep. unfold bind at 1, get at 1 in Ep.
        cbn [snd] in Ep. unfold bind at 1, call_on_fresh at 1 in Ep. rewrite E in Ep.
        discriminate Ep.
      * pose proof (pool_addTx_errors _ _ _ _ Ep) as Hne.
        do 2 eexists. split; [reflexivity|]. cbn [fst snd].
        split; [reflexivity|]. split; [exact Hc|].
        left. exists e1. repeat split. exact Hne.
  - do 2 eexists. split; [reflexivity|]. cbn [fst snd].
    split; [reflexivity|]. split; [exact Hc|].
    left. eexists. split; [reflexivity|]. split; [|reflexivity].
    intros Heq; discriminate Heq.
  - do 2 eexists. split; [reflexivity|]. cbn [fst snd].
    split; [reflexivity|]. split; [exact Hc|].
    left. exists e0. split; [reflexivity|]. split; [|reflexivity].
    unfold Wallet.makeTx in Em.
    destruct (amountSent <=? 2).
    + inversion Em. intros Heq; discriminate Heq.
    + destruct (Wallet.gather _ _ _) as [ins amountInput].
      destruct (amountInput <? _); discriminate Em.
Qed.

End SendFacts.

(** * Stale chains *)

Section StaleChains.
Context `{Crypto} {engine : Engine}.

Lemma round_nonpos d : d <= 0 -> F64.round d <= 0.
Proof.
  intros Hd. destruct (Z_lt_le_dec 0 (F64.round d)) as [Hpos|Hle]; [|exact Hle].
  apply (proj1 (round_pos_iff _)) in Hpos. lia.
Qed.

Lemma stale_chain_run now s pre more :
  reachable now s ->
  fst s = Blocks.genesisBlock :: pre ++ more ->
  exists U1,
    Blocks.add_blocks now pre (Blocks.genesisChain, Blocks.genesisUTXOs)
    = (Return tt, (Blocks.genesisBlock :: pre, U1)).
Proof.
  intros Hr Hc. apply reachable_rebuilds in Hr. destruct Hr as (rest & Hc' & Hrun).
  rewrite Hc in Hc'. inversion Hc' as [Hrest]. subst rest.
  specialize (Hrun now (Z.le_refl now)). rewrite add_blocks_app in Hrun.
  destruct (Blocks.add_blocks now pre (Blocks.genesisChain, Blocks.genesisUTXOs))
    as [[[]|e] [c1 U1]] eqn:E1; [|discriminate Hrun].
  pose proof (add_blocks_ok _ _ _ _ _ E1) as Hc1. cbn in Hc1. subst c1.
  exists U1. reflexivity.
Qed.

(** X19: a candidate whose blocks after the first are an initial part of
    the node's own chain, whatever stands in the place of the genesis
    block, is never adopted: [swapChains] validates it, returns a
    difference that is not positive and leaves the chain and the UTXO set
    as they are.  [onMessage] then answers with the node's chain when the
    difference is negative and with nothing when it is zero, and keeps the
    pool. *)
Theorem swapChains_never_adopts_a_stale_chain :
  forall (now : Z) (n : Node.node) (first : Block) (pre more : list Block),
    reachable now (fst n) ->
    fst (fst n) = Blocks.genesisBlock :: pre ++ more ->
    let increase :=
      F64.sub (Work.chainDifficulty (Blocks.genesisBlock :: pre))
              (Work.chainDifficulty (fst (fst n))) in
    increase <= 0
    /\ Blocks.swapChains now (first :: pre) (fst n) = (Return increase, fst n)
    /\ Node.onMessage now (Node.BLOCKCHAIN (first :: pre)) n
       = (Return (if increase <? 0
                  then [Node.SentChain Node.Sender (fst (fst n))] else []), n).
Proof.
  intros now n first pre more Hr Hc increase.
  assert (increase <= 0) as Hle.
  { unfold increase, F64.sub. apply round_nonpos. rewrite Hc.
    pose proof (chainDifficulty_app_le (Blocks.genesisBlock :: pre) more) as Hw.
    rewrite <- app_comm_cons in Hw. lia. }
  assert (Blocks.swapChains now (first :: pre) (fst n) = (Return increase, fst n)) as Hswap.
  { destruct (stale_chain_run now (fst n) pre more Hr Hc) as (U1 & Hrun).
    rewrite swapChains_unfold. cbn [skipn]. rewrite Hrun. cbv zeta. fold increase.
    replace (0 <? increase) with false by (symmetry; apply Z.ltb_ge; exact Hle).
    reflexivity. }
  split; [exact Hle|]. split; [exact Hswap|].
  rewrite (onMessage_chain_valid _ _ _ _ _ Hswap).
  replace (0 <? increase) with false by (symmetry; apply Z.ltb_ge; exact Hle).
  destruct (increase <? 0); reflexivity.
Qed.

End StaleChains.

(** * The list of peers *)

Section PeerFacts.

Lemma findIndex_not_in peer peers :
  ~ In peer peers -> JS.findIndex (Nat.eqb peer) peers = None.
Proof.
  intros Hno. apply findIndex_none. intros x Hx. apply Nat.eqb_neq.
  intros ->. exact (Hno Hx).
Qed.

Lemma forget_member peer : forall peers,
  NoDup peers -> In peer peers ->
  Node.forget peer peers = filter (fun q => negb (Nat.eqb peer q)) peers.
Proof.
  unfold Node.forget. induction peers as [|q peers IH]; intros Hnd Hin; [destruct Hin|].
  inversion Hnd as [|? ? Hq Hnd']; subst.
  cbn [JS.findIndex filter]. destruct (Nat.eqb peer q) eqn:Eq.
  - apply Nat.eqb_eq in Eq. subst q. cbn [negb]. unfold JS.splice1. cbn [firstn skipn app].
    symmetry. apply forallb_filter_id. apply forallb_forall. intros x Hx.
    apply negb_true_iff, Nat.eqb_neq. intros ->. exact (Hq Hx).
  - destruct Hin as [->|Hin]; [rewrite Nat.eqb_refl in Eq; discriminate Eq|].
    specialize (IH Hnd' Hin).
    destruct (JS.findIndex (Nat.eqb peer) peers) as [i|] eqn:Ei.
    + cbn [option_map negb]. unfold JS.splice1 in *.
      change (skipn (S (S i)) (q :: peers)) with (skipn (S i) peers).
      cbn [firstn app]. f_equal. exact IH.
    + exfalso. rewrite findIndex_none in Ei. specialize (Ei peer Hin).
      rewrite Nat.eqb_refl in Ei. discriminate Ei.
Qed.

(** X20: [onError] and [onClose] remove the socket they are called on from
    [peers] when it is there; called on a socket that is not in the list
    (one that never opened, or one already removed) they remove the last
    peer of the list instead.  So [onError] followed by [onClose] on the
    same registered socket removes it and the last of the other peers.  The
    handler of incoming connections never takes the list beyond 100
    peers. *)
Theorem forgetting_a_peer :
  forall (peer : nat) (peers : list nat),
    (NoDup peers -> In peer peers ->
     Node.onClose peer peers = filter (fun q => negb (Nat.eqb peer q)) peers
     /\ Node.onClose peer (Node.onError peer peers)
        = removelast (filter (fun q => negb (Nat.eqb peer q)) peers))
    /\ (~ In peer peers -> Node.onClose peer peers = removelast peers)
    /\ ((List.length peers <= 100)%nat ->
        (List.length (Node.onConnection peer peers) <= 100)%nat).
Proof.
  intros peer peers. unfold Node.onClose, Node.onError. split; [|split].
  - intros Hnd Hin. rewrite (forget_member peer peers Hnd Hin).
    split; [reflexivity|].
    unfold Node.forget at 1. rewrite findIndex_not_in; [reflexivity|].
    intros Hin'. apply filter_In in Hin'. destruct Hin' as [_ Hne].
    rewrite Nat.eqb_refl in Hne. discriminate Hne.
  - intros Hno. unfold Node.forget. rewrite findIndex_not_in by exact Hno. reflexivity.
  - intros Hlen. unfold Node.onConnection.
    destruct (100 <=? List.length peers)%nat eqn:E; [exact Hlen|].
    apply Nat.leb_gt in E. rewrite length_app. cbn [List.length]. lia.
Qed.

End PeerFacts.

Module Scenario.
Import Toy.

Definition now : Z := 100000.

(** A coinbase paying the wallet, for a block of time [t] whose other
    transactions have [fees] inputs. *)
Definition coinbase_at (t fees : Z) : Coinbase :=
  let outs := [{| publicKey := key 1; amount := 10 + fees |}] in
  {| cb_outputs := outs; cb_hash := sha256_coinbase t outs |}.

(** A block as the miner assembles it. *)
Definition mined (prev : Block) (t : Z) (user : list Tx) (fees n : Z) : Block :=
  let btxs := map UserTx user ++ [CoinbaseTx (coinbase_at t fees)] in
  {| time := t; txs := btxs; nonce := n;
     block_hash := sha256_block (block_hash prev) t btxs n |}.

Definition genesis : Blocks.state := (Blocks.genesisChain, Blocks.genesisUTXOs).

(** A block of difficulty 60, one of difficulty 0 on top of it, and one of
    difficulty 3 on the genesis. *)
Definition heavy : Block := mined Blocks.genesisBlock 10 [] 0 60.
Definition light : Block := mined heavy 20 [] 0 0.
Definition fork : Block := mined Blocks.genesisBlock 10 [] 0 3.

Definition after_heavy : Blocks.state := snd (Blocks.addBlock now heavy genesis).

(** A block whose hash is not the digest of its contents. *)
Definition forged : Block :=
  {| time := 10; txs := [CoinbaseTx (coinbase_at 10 0)]; nonce := 0;
     block_hash := zero_hash |}.

(** Two payments of the wallet's single UTXO [(hash_a, 0)] of amount 10. *)
Definition purse : list UTXO := [utxo hash_a 0 (key 1) 10].

Definition pay (a : Z) (change : list Output) : Tx :=
  let ins := [{| op_hash := hash_a; op_index := 0 |}] in
  let outs := {| publicKey := key 2; amount := a |} :: change in
  {| inputs := [spend hash_a (sign (sha256_tx ins outs))];
     outputs := outs; tx_hash := sha256_tx ins outs |}.

Definition pay8 : Tx := pay 8 [].
Definition pay6 : Tx := pay 6 [{| publicKey := key 1; amount := 2 |}].

Definition empty_pool : Pool.pool := {| Pool.pool_txs := []; Pool.usedUTXOs := [] |}.

(** A UTXO set of 100000 entries under the genesis chain, and the entry
    that the coinbase of [heavy] adds. *)
Definition crowd : list UTXO := repeat (utxo hash_a 0 (key 1) 10) (Z.to_nat 100000).
Definition crowded : Blocks.state := (Blocks.genesisChain, crowd).
Definition heavy_coin : UTXO := utxo (cb_hash (coinbase_at 10 0)) 0 (key 1) 10.

(** A block stamped 110 s, which a clock at 100 s accepts. *)
Definition ahead : Block := mined Blocks.genesisBlock 110 [] 0 0.
Definition after_ahead : Blocks.state := snd (Blocks.addBlock now ahead genesis).

End Scenario.

Section Witnesses.
Import Toy Scenario.

Lemma addBlock_commit_witness :
  snd (Txs.addTx (CoinbaseTx Blocks.genesisTx) ([], purse)) = ([], purse)
  /\ snd (Blocks.swapChains now [Blocks.genesisBlock; heavy; forged] after_heavy) = after_heavy
  /\ snd (Blocks.addBlock now forged genesis) = genesis
  /\ Blocks.addBlock now heavy crowded
     = (Throw "RangeError"%string, (Blocks.genesisChain ++ [heavy], crowd)).
Proof.
  pose proof (@addBlock_commit_is_not_atomic Toy.crypto Toy.engine) as (H1 & H2 & H3 & H4).
  split; [|split; [|split]].
  - apply (H1 (CoinbaseTx Blocks.genesisTx) ([], purse) "Bad structure"%string).
    vm_compute. reflexivity.
  - apply (H2 now [Blocks.genesisBlock; heavy; forged] after_heavy "Bad time"%string).
    vm_compute. reflexivity.
  - destruct (H3 now forged Blocks.genesisChain Blocks.genesisUTXOs "Bad hash"%string
                (Blocks.genesisChain, Blocks.genesisUTXOs)) as [E|[E _]].
    + vm_compute. reflexivity.
    + replace (Blocks.addBlock now forged genesis)
        with (@Throw unit "Bad hash"%string, genesis) by (vm_compute; reflexivity).
      reflexivity.
    + discriminate E.
  - apply (H4 now heavy Blocks.genesisChain crowd Blocks.genesisBlock (crowd ++ [heavy_coin])).
    + reflexivity.
    + reflexivity.
    + vm_compute. discriminate.
    + vm_compute. reflexivity.
    + vm_compute. discriminate.
    + reflexivity.
    + vm_compute. discriminate.
    + vm_compute. reflexivity.
    + vm_compute. reflexivity.
    + vm_compute. discriminate.
    + exists [], (coinbase_at 10 0), {| publicKey := key 1; amount := 10 |}, 0, crowd.
      repeat split; try reflexivity.
    + rewrite length_app. unfold crowd. rewrite repeat_length. cbn [List.length].
      rewrite Nat2Z.inj_add, Z2Nat.id by lia. vm_compute. reflexivity.
Defined.

(** The own chain is not always taken back: [ahead], stamped 110 s, is
    accepted when the clock shows 100 s; a millisecond earlier the same
    chain fails the check of the time, and [swapChains] throws instead of
    returning 0. *)
Lemma own_chain_refused_when_the_clock_goes_back :
  Blocks.addBlock now ahead genesis = (Return tt, after_ahead)
  /\ fst after_ahead = Blocks.genesisChain ++ [ahead]
  /\ Blocks.swapChains (now - 1) (fst after_ahead) after_ahead
     = (Throw "Bad time"%string, after_ahead)
  /\ Blocks.swapChains (now - 1) (fst after_ahead) after_ahead <> (Return 0, after_ahead).
Proof.
  assert (Blocks.swapChains (now - 1) (fst after_ahead) after_ahead
          = (Throw "Bad time"%string, after_ahead)) as E by (vm_compute; reflexivity).
  split; [vm_compute; reflexivity|]. split; [vm_compute; reflexivity|].
  split; [exact E|]. rewrite E. discriminate.
Qed.

Lemma after_heavy_reachable : reachable now after_heavy.
Proof.
  apply (reach_addBlock now heavy genesis); [apply reach_genesis|].
  vm_compute. reflexivity.
Qed.

Lemma swapChains_fork_choice_witness :
  Blocks.swapChains now [Blocks.genesisBlock; fork] genesis
    = (Return (F64.of_Z 8), snd (Blocks.addBlock now fork genesis))
  /\ Blocks.swapChains now [Blocks.genesisBlock; fork] after_heavy
    = (Return (- F64.of_Z (2 ^ 60)), after_heavy)
  /\ Blocks.swapChains now (fst after_heavy) after_heavy = (Return 0, after_heavy).
Proof.
  pose proof (@swapChains_fork_choice Toy.crypto) as [Hswap Hown].
  assert (Blocks.add_blocks now (skipn 1 [Blocks.genesisBlock; fork])
            (Blocks.genesisChain, Blocks.genesisUTXOs)
          = (Return tt, (fst (snd (Blocks.addBlock now fork genesis)),
                         snd (snd (Blocks.addBlock now fork genesis))))) as Hvalid
    by (vm_compute; reflexivity).
  split; [|split].
  - destruct (Hswap now _ genesis _ _ Hvalid) as [Hrun _].
    rewrite Hrun. vm_compute. reflexivity.
  - destruct (Hswap now _ after_heavy _ _ Hvalid) as [Hrun _].
    rewrite Hrun. vm_compute. reflexivity.
  - apply Hown. exact after_heavy_reachable.
Defined.

Lemma chainDifficulty_grows_witness :
  0 < Work.chainDifficulty Blocks.genesisChain
  /\ Work.chainDifficulty Blocks.genesisChain
     < Work.chainDifficulty (fst (snd (Blocks.addBlock now fork genesis))).
Proof.
  pose proof (@chainDifficulty_grows_below_2_53 Toy.crypto) as [Hpos Hgrow].
  split.
  - apply Hpos. discriminate.
  - apply (Hgrow now fork Blocks.genesisChain Blocks.genesisUTXOs).
    + vm_compute. reflexivity.
    + vm_compute. discriminate.
Defined.

(** C6 as stated fails: [addBlock] accepts the block [light] of difficulty
    0 onto a chain whose cumulative difficulty is [2^60], and the sum
    [2^60 + 1] rounds back to [2^60].  (The sum over no block at all is 0.) *)
Lemma chainDifficulty_absorbs_accepted_block :
  Work.chainDifficulty [] = 0
  /\ Blocks.addBlock now heavy genesis = (Return tt, after_heavy)
  /\ fst (Blocks.addBlock now light after_heavy) = Return tt
  /\ fst (snd (Blocks.addBlock now light after_heavy)) = fst after_heavy ++ [light]
  /\ Work.chainDifficulty (fst after_heavy) = F64.of_Z (2 ^ 60)
  /\ Work.chainDifficulty (fst after_heavy ++ [light]) = F64.of_Z (2 ^ 60)
  /\ ~ (Work.chainDifficulty (fst after_heavy)
        < Work.chainDifficulty (fst (snd (Blocks.addBlock now light after_heavy)))).
Proof.
  repeat split; try (vm_compute; reflexivity).
  vm_compute. discriminate.
Qed.


Lemma blockDifficulty_counts_witness :
  Work.blockDifficulty heavy
  = WorkSpec.leading_zero_bits (WorkSpec.hex_value (block_hash heavy))
  /\ Work.blockDifficulty heavy = 60.
Proof.
  split; [|vm_compute; reflexivity].
  apply blockDifficulty_counts_leading_zero_bits.
  - vm_compute. reflexivity.
  - vm_compute. discriminate.
Defined.

Lemma purse_well_formed : well_formed purse.
Proof.
  split.
  - repeat constructor. intros [].
  - repeat constructor; vm_compute; auto.
Qed.

Lemma purse_in_exact_range a : a <= 1000 -> in_exact_range a purse.
Proof.
  intros Ha. split; [|split].
  - constructor; [vm_compute; discriminate | constructor].
  - vm_compute. discriminate.
  - change (Z.of_nat (List.length (filter own purse))) with 1. lia.
Qed.

Lemma makeTx_validates_witness :
  fst (Txs.addTx (UserTx pay8) ([], purse)) = Return true
  /\ fst (Txs.addTx (UserTx pay6) ([], purse)) = Return true
  /\ fst (Txs.addTx (UserTx (pay 7 [])) ([], purse))
     = Throw "Amounts do not net a 1/tx burn + 1/input fee".
Proof.
  pose proof (fun a Ha tx => @makeTx_validates_unless_change_is_one Toy.crypto toy_wallet_laws
                               a (key 2) purse tx [] purse_well_formed
                               (purse_in_exact_range a Ha) eq_refl eq_refl) as Hrun.
  split; [|split].
  - apply (Hrun 8 ltac:(lia) pay8); [reflexivity | repeat constructor].
  - apply (Hrun 6 ltac:(lia) pay6); [reflexivity | repeat constructor].
  - apply (Hrun 7 ltac:(lia) (pay 7 [])); [reflexivity | repeat constructor].
Defined.

(** Past [2^53] the wallet and the validator add and subtract as doubles
    do.  With own amounts of [2^53 - 1] and 4, [(2^53 - 1) + 4] is the
    double [2^53 + 4]: the wallet sends [2^53 - 1] with a change of 2, and
    the validator, whose net amount is then 3 for two inputs, accepts what
    on the integers nets 2. *)
Example makeTx_rounds_as_doubles :
  let U := [utxo hash_a 0 (key 1) (2 ^ 53 - 1); utxo hash_b 0 (key 1) 4] in
  exists tx,
    Wallet.makeTx (2 ^ 53 - 1) (key 2) U = Return (Some tx)
    /\ map amount (outputs tx) = [2 ^ 53 - 1; 2]
    /\ amount_sum U - (2 ^ 53 - 1) - 2 = 2
    /\ net_of U [0; 1]%nat (outputs tx) = 3
    /\ fst (Txs.addTx (UserTx tx) ([], U)) = Return true.
Proof.
  eexists. split; [vm_compute; reflexivity|].
  repeat split; vm_compute; reflexivity.
Qed.

(** With own amounts of [2^53 - 1], 2 and 2 the test of the loop never
    passes, although the three cover [2^53 - 1] with the burn and the fees
    exactly. *)
Example makeTx_misses_an_exact_cover :
  let U := [utxo hash_a 0 (key 1) (2 ^ 53 - 1); utxo hash_b 0 (key 1) 2;
            utxo hash_c 0 (key 1) 2] in
  Wallet.makeTx (2 ^ 53 - 1) (key 2) U = Return None
  /\ covers_exactly (2 ^ 53 - 1) (filter own U).
Proof. split; [vm_compute; reflexivity | vm_compute; discriminate]. Qed.

Lemma addTx_commit_witness :
  exists t idxs,
    UserTx pay8 = UserTx t
    /\ Txs.remove_spent idxs purse = []
    /\ snd (Txs.addTx (UserTx pay8) ([], purse))
       = ([UserTx t], Txs.remove_spent idxs purse ++ Txs.new_UTXOs (tx_hash t) (outputs t)).
Proof.
  destruct (@addTx_commit Toy.crypto (UserTx pay8) [] purse true
              (snd (Txs.addTx (UserTx pay8) ([], purse))))
    as (t & idxs & Et & _ & _ & Es & Hone); [vm_compute; reflexivity|].
  exists t, idxs. split; [exact Et|]. split; [|exact Es].
  inversion Et; subst t.
  destruct (Hone _ eq_refl) as (i & u & -> & Hnth & _ & _ & Hr).
  rewrite Hr. destruct i as [|i]; [reflexivity|].
  destruct i; discriminate Hnth.
Defined.

Lemma addTx_two_inputs_witness :
  exists tx,
    Wallet.makeTx 5 (key 1) [utxo hash_a 0 (key 1) 5; utxo hash_b 0 (key 1) 5;
                             utxo hash_c 0 (key 2) 9] = Return (Some tx)
    /\ map outpoint_of (inputs tx)
       = [{| op_hash := hash_a; op_index := 0 |}; {| op_hash := hash_b; op_index := 0 |}]
    /\ Txs.addTx (UserTx tx)
         ([], [utxo hash_a 0 (key 1) 5; utxo hash_b 0 (key 1) 5; utxo hash_c 0 (key 2) 9])
       = (Return true,
          ([UserTx tx],
           [utxo hash_b 0 (key 1) 5;
            utxo (tx_hash tx) 0 (key 1) 5;
            utxo (tx_hash tx) 1 (key 1) 2])).
Proof.
  exact (@addTx_two_inputs_removes_unrelated_UTXO Toy.crypto toy_wallet_laws (key 2) []).
Defined.

End Witnesses.

(** * The node at work *)

Module Story.
Import Toy Scenario.

(** The hash of the coinbase of [heavy], which pays the wallet. *)
Definition coin : string := cb_hash (coinbase_at 10 0).

(** The wallet pays 5 out of that coinbase and keeps a change of 3. *)
Definition payment : Tx :=
  let ins := [{| op_hash := coin; op_index := 0 |}] in
  let outs := [{| publicKey := key 2; amount := 5 |}; {| publicKey := key 1; amount := 3 |}] in
  {| inputs := [{| in_hash := coin; in_index := 0; signature := sign (sha256_tx ins outs) |}];
     outputs := outs; tx_hash := sha256_tx ins outs |}.

(** The block that the miner finds on [heavy] with that payment in the
    pool, at the time 100 and with the nonce 7. *)
Definition found : Block := mined heavy 100 [payment] 1 7.

(** The node after [heavy], with an empty pool and with the payment pooled. *)
Definition idle : Node.node := (after_heavy, Node.empty_pool).
Definition busy : Node.node :=
  (after_heavy, accept Node.empty_pool (snd after_heavy) payment).

End Story.

Section NodeWitnesses.
Import Toy Scenario Story.



Lemma addCoinbase_pays_the_reward_once_witness :
  exists e,
    Txs.addCoinbase (CoinbaseTx (coinbase_at 20 0)) 20
      ([CoinbaseTx (coinbase_at 10 0)],
       Blocks.genesisUTXOs ++ [utxo coin 0 (key 1) 10])
    = (Throw e, ([CoinbaseTx (coinbase_at 10 0)],
                 Blocks.genesisUTXOs ++ [utxo coin 0 (key 1) 10])).
Proof.
  destruct (@addCoinbase_pays_the_reward_once Toy.crypto (CoinbaseTx (coinbase_at 10 0)) 10 []
              Blocks.genesisUTXOs) as (_ & _ & Honce).
  apply (Honce _ (eq_refl : Txs.addCoinbase (CoinbaseTx (coinbase_at 10 0)) 10
                              ([], Blocks.genesisUTXOs) = _)).
Defined.

Lemma nextDifficulty_follows_the_intervals_witness :
  Work.nextDifficulty (fst after_heavy ++ [light])
  = Work.adjust (time light - time heavy) (Work.nextDifficulty (fst after_heavy))
  /\ Work.nextDifficulty (fst after_heavy) - 1
     <= Work.nextDifficulty (fst after_heavy ++ [light])
     <= Work.nextDifficulty (fst after_heavy) + 1.
Proof.
  exact (proj1 (nextDifficulty_follows_the_intervals (fst after_heavy) heavy eq_refl) light).
Defined.

Lemma chainDifficulty_never_decreases_witness :
  Work.chainDifficulty (fst genesis) <= Work.chainDifficulty (fst after_heavy).
Proof.
  apply (proj1 (proj2 (@chainDifficulty_never_decreases Toy.crypto Toy.engine))
           now heavy genesis (Return tt) after_heavy).
  vm_compute. reflexivity.
Defined.

Lemma reachable_chain_is_linked_witness :
  exists rest,
    fst after_heavy = Blocks.genesisBlock :: rest
    /\ forall pre b post,
         rest = pre ++ b :: post -> extends (Blocks.genesisBlock :: pre) b.
Proof.
  exact (@reachable_chain_is_linked Toy.crypto Toy.engine now after_heavy after_heavy_reachable).
Defined.

Lemma reachable_UTXOs_are_sound_witness : Forall sound_utxo (snd after_heavy).
Proof.
  exact (@reachable_UTXOs_are_sound Toy.crypto Toy.engine now after_heavy after_heavy_reachable).
Defined.

Lemma addBlock_accepts_exactly_witness :
  exists prev vU,
    Blocks.last_block (fst after_heavy) = Some prev
    /\ JS.isSafeInteger (time found) = true /\ 0 <= time found
    /\ time prev < time found /\ 1000 * time found <= 10000 + now
    /\ JS.isSafeInteger (nonce found) = true /\ 0 <= nonce found
    /\ JS.hex_exact 64 (block_hash found) = true
    /\ block_hash found
       = sha256_block (block_hash prev) (time found) (txs found) (nonce found)
    /\ Work.nextDifficulty (fst after_heavy) <= Work.blockDifficulty found
    /\ block_txs_valid found (snd after_heavy) vU
    /\ 2 + Z.of_nat (List.length vU) <= spread_limit
    /\ snd (Blocks.addBlock now found after_heavy) = (fst after_heavy ++ [found], vU).
Proof.
  apply (proj1 (@addBlock_accepts_exactly Toy.crypto Toy.engine now found (fst after_heavy)
                  (snd after_heavy) (snd (Blocks.addBlock now found after_heavy)))).
  vm_compute. reflexivity.
Defined.

Lemma mined_block_is_accepted_iff_witness :
  Miner.mineBlock now 7 [payment] (key 1) (fst after_heavy) = Return (Some found)
  /\ fst (Blocks.addBlock now found after_heavy) = Return tt
  /\ 1000 * time found <= 10000 + now.
Proof.
  assert (Miner.mineBlock now 7 [payment] (key 1) (fst after_heavy) = Return (Some found))
    as Hm by (vm_compute; reflexivity).
  assert (Blocks.last_block (fst after_heavy) = Some heavy) as Hl
    by (vm_compute; reflexivity).
  assert (0 <= time heavy) as H1 by (vm_compute; discriminate).
  assert (JS.isSafeInteger (time found) = true) as H2 by (vm_compute; reflexivity).
  assert (0 <= 7) as H3 by lia.
  assert (JS.isSafeInteger 7 = true) as H4 by (vm_compute; reflexivity).
  assert (JS.hex_exact 66 (key 1) = true) as H5 by (vm_compute; reflexivity).
  assert (canonicalKey (key 1) = true) as H6 by (vm_compute; reflexivity).
  assert (JS.hex_exact 64 (block_hash found) = true) as H7 by (vm_compute; reflexivity).
  destruct (@mined_block_is_accepted_iff Toy.crypto Toy.engine now now 7 [payment] (key 1)
              (fst after_heavy) (snd after_heavy) found heavy Hm Hl H1 H2 H3 H4 H5 H6 H7)
    as [Hiff Htime].
  split; [exact Hm|]. split.
  - assert (Blocks.addBlock now found (fst after_heavy, snd after_heavy)
            = (Return tt, snd (Blocks.addBlock now found after_heavy))) as Hrun.
    { apply Hiff. split; [vm_compute; discriminate|].
      eexists. split; [vm_compute; reflexivity|].
      split; [vm_compute; discriminate | vm_compute; reflexivity]. }
    rewrite <- (surjective_pairing after_heavy) in Hrun. rewrite Hrun. reflexivity.
  - apply Htime; vm_compute; discriminate.
Defined.

Lemma empty_pool_consistent : consistent Node.empty_pool.
Proof. split; [reflexivity | constructor]. Qed.


Lemma removeBlockTxs_only_removes_witness :
  exists q,
    Pool.removeBlockTxs found (snd busy) = (Return tt, q)
    /\ sublist (Pool.pool_txs q) (Pool.pool_txs (snd busy))
    /\ (exists k, Pool.usedUTXOs q = skipn k (Pool.usedUTXOs (snd busy)))
    /\ (Forall (fun input =>
                  find (Txs.refers_to (in_hash input) (in_index input))
                       (Pool.usedUTXOs (snd busy)) = None)
               (block_inputs (removelast (txs found)))
        -> q = snd busy).
Proof.
  apply (removeBlockTxs_only_removes found (snd busy)).
  vm_compute. repeat constructor.
Defined.

Lemma makeTx_takes_the_shortest_cover_witness :
  exists chosen rest,
    filter own (snd after_heavy) = chosen ++ rest
    /\ map outpoint_of (inputs payment) = map outpoint_of_utxo chosen
    /\ covers 5 0 0 chosen
    /\ forall shorter more,
         chosen = shorter ++ more -> more <> [] -> ~ covers 5 0 0 shorter.
Proof.
  destruct (@makeTx_takes_the_shortest_cover Toy.crypto 5 (key 2) (snd after_heavy))
    as (_ & Hsome & _).
  apply Hsome. vm_compute. reflexivity.
Defined.

(** [heavy] passes every check on the crowded node, and the spread of its
    100001 UTXOs throws after the push. *)
Lemma crowded_overflows :
  Blocks.addBlock now heavy crowded
  = (Throw "RangeError"%string, (Blocks.genesisChain ++ [heavy], crowd)).
Proof.
  unfold crowded.
  rewrite (addBlock_checks_passed now heavy Blocks.genesisChain crowd Blocks.genesisBlock
             (crowd ++ [heavy_coin])).
  - replace (spread_limit <? 2 + Z.of_nat (List.length (crowd ++ [heavy_coin]))) with true;
      [reflexivity|].
    rewrite length_app. unfold crowd. rewrite repeat_length. cbn [List.length].
    rewrite Nat2Z.inj_add, Z2Nat.id by lia. vm_compute. reflexivity.
  - reflexivity.
  - vm_compute. reflexivity.
  - vm_compute. discriminate.
  - vm_compute. discriminate.
  - reflexivity.
  - reflexivity.
  - vm_compute. discriminate.
  - vm_compute. reflexivity.
  - vm_compute. reflexivity.
  - vm_compute. discriminate.
  - apply rebuild_txs_iff.
    exists [], (coinbase_at 10 0), {| publicKey := key 1; amount := 10 |}, 0, crowd.
    repeat split; reflexivity.
Qed.

Lemma onMessage_answers_witness :
  (exists q,
      Node.onMessage now (Node.LATESTBLOCK found) busy
      = (Return [Node.SentTip Node.Others (Some found)],
         (snd (Blocks.addBlock now found after_heavy), q))
      /\ Pool.removeBlockTxs found (snd busy) = (Return tt, q)
      /\ left_of (snd busy) q
      /\ fst (snd (Blocks.addBlock now found after_heavy)) = fst (fst busy) ++ [found])
  /\ Node.onMessage now (Node.LATESTBLOCK heavy) (crowded, Node.empty_pool)
     = (Return [Node.SentChain Node.Sender (Blocks.genesisChain ++ [heavy])],
        ((Blocks.genesisChain ++ [heavy], crowd), Node.empty_pool)).
Proof.
  split.
  - destruct (@onMessage_answers Toy.crypto Toy.engine now busy) as (Hblock & _).
    apply Hblock. vm_compute. reflexivity.
  - destruct (@onMessage_answers Toy.crypto Toy.engine now (crowded, Node.empty_pool))
      as (_ & Hthrown & _).
    exact (proj1 (Hthrown heavy _ _ crowded_overflows)).
Defined.

Lemma onMessage_keeps_the_node_valid_witness :
  exists events n',
    Node.onMessage now (Node.LATESTBLOCK found) busy = (Return events, n')
    /\ Work.chainDifficulty (fst (fst busy)) <= Work.chainDifficulty (fst (fst n'))
    /\ ((reachable now (fst n')
         /\ (fst n' = fst busy
             \/ events = [Node.SentTip Node.Others (Blocks.last_block (fst (fst n')))]))
        \/ (exists block,
              Node.LATESTBLOCK found = Node.LATESTBLOCK block
              /\ Blocks.addBlock now block (fst busy) = (Throw "RangeError"%string, fst n')
              /\ commit_overflowed block busy n'
              /\ events = [Node.SentChain Node.Sender (fst (fst n'))]))
    /\ (consistent (snd busy) -> True).
Proof.
  exact (@onMessage_keeps_the_node_valid Toy.crypto Toy.engine now (Node.LATESTBLOCK found) busy
           after_heavy_reachable).
Defined.

Lemma mineAttempt_appends_what_it_mined_witness :
  reachable now (fst (snd (Node.mineAttempt now now 7 busy)))
  /\ Work.chainDifficulty (fst (fst busy))
     <= Work.chainDifficulty (fst (fst (snd (Node.mineAttempt now now 7 busy))))
  /\ (forall e n', Node.mineAttempt now now 7 busy = (Throw e, n') -> e = "RangeError"%string \/ n' = busy).
Proof.
  destruct (@mineAttempt_appends_what_it_mined Toy.crypto Toy.engine now now 7 busy
              after_heavy_reachable) as [Hthrow Hret].
  destruct (Hret [Node.SentTip Node.Everyone (Some found)]
                 (snd (Node.mineAttempt now now 7 busy))) as (Hr & Hw & _);
    [vm_compute; reflexivity|].
  split; [assumption|]. split; [assumption|].
  intros e n' E. destruct (Hthrow e n' E) as [->|[-> _]]; [right | left]; reflexivity.
Defined.

Lemma send_is_never_refused_by_the_pool_witness :
  exists events n',
    Node.send 5 (key 2) idle = (Return events, n')
    /\ fst n' = fst idle
    /\ consistent (snd n')
    /\ ((exists e, events = [Node.Logged e] /\ e <> pool_refusal /\ n' = idle)
        \/ exists tx,
             Wallet.makeTx 5 (key 2)
               (filter (Node.unused (snd idle)) (snd (fst idle))) = Return (Some tx)
             /\ validates (snd (fst idle)) (UserTx tx)
             /\ events = [Node.SentTx Node.Everyone (UserTx tx)]
             /\ snd n' = accept (snd idle) (snd (fst idle)) tx).
Proof.
  exact (@send_is_never_refused_by_the_pool Toy.crypto 5 (key 2) idle empty_pool_consistent).
Defined.

Lemma swapChains_never_adopts_a_stale_chain_witness :
  Blocks.swapChains now [Blocks.genesisBlock] (fst idle)
  = (Return (- F64.of_Z (2 ^ 60)), fst idle)
  /\ Node.onMessage now (Node.BLOCKCHAIN [Blocks.genesisBlock]) idle
     = (Return [Node.SentChain Node.Sender (fst (fst idle))], idle).
Proof.
  destruct (@swapChains_never_adopts_a_stale_chain Toy.crypto Toy.engine now idle Blocks.genesisBlock
              [] [heavy] after_heavy_reachable eq_refl) as (_ & Hswap & Hmsg).
  split; [exact Hswap | exact Hmsg].
Defined.

Lemma forgetting_a_peer_witness :
  Node.onClose 2 [1; 2; 3]%nat = [1; 3]%nat
  /\ Node.onClose 2 (Node.onError 2 [1; 2; 3]%nat) = [1]%nat
  /\ Node.onClose 4 [1; 2; 3]%nat = [1; 2]%nat.
Proof.
  destruct (forgetting_a_peer 2 [1; 2; 3]%nat) as (Hin & _ & _).
  destruct (forgetting_a_peer 4 [1; 2; 3]%nat) as (_ & Hout & _).
  destruct Hin as [H1 H2].
  - repeat constructor; simpl; intuition discriminate.
  - right. left. reflexivity.
  - split; [exact H1|]. split; [exact H2|].
    apply Hout. simpl. intuition discriminate.
Defined.

End NodeWitnesses.
